(** * BLISS detection pipeline: a shallow embedding and its verified properties

    The embedding follows the C++ sources function by function.  Values of
    type [double] and [float] are modelled as exact rationals ([Q]): the
    arithmetic of the program is kept, its rounding is not.  Machine integers
    are modelled as [Z]; no property below depends on their wrap-around.
    Functions that can throw, or whose behaviour is undefined in C++ (an
    unchecked index, a null data source), return an [outcome]. *)

From Stdlib Require Import ZArith QArith Qabs Qminmax Qround Lia Lqa Bool.
From stdpp Require Import base option list countable gmap strings.

Local Open Scope Z_scope.

(** ** Outcomes of fallible code *)

Inductive exn : Set :=
  | out_of_range
  | runtime_error
  | logic_error
  | invalid_argument.

(** [catch (const std::logic_error &)] also catches the classes derived
    from it. *)
Definition is_logic_error (e : exn) : bool :=
  match e with
  | logic_error | out_of_range | invalid_argument => true
  | runtime_error => false
  end.

Inductive outcome (A : Type) : Type :=
  | Returns (a : A)
  | Throws (e : exn)
  | Undefined.

Arguments Returns {A} a.
Arguments Throws {A} e.
Arguments Undefined {A}.

#[export] Instance outcome_ret : MRet outcome := fun A a => Returns a.

#[export] Instance outcome_bind : MBind outcome := fun A B k m =>
  match m with
  | Returns a => k a
  | Throws e => Throws e
  | Undefined => Undefined
  end.

(** ** Numbers *)

(** [x < y] on doubles. *)
Definition Qltb (x y : Q) : bool := negb (Qle_bool y x).

#[export] Instance Qlt_decision (x y : Q) : Decision (x < y)%Q.
Proof.
  destruct (Qlt_le_dec x y) as [Hlt | Hle].
  - left. exact Hlt.
  - right. apply Qle_not_lt. exact Hle.
Defined.

(** [std::round] and [std::lround]: nearest integer, halves away from zero. *)
Definition round_half_away (x : Q) : Z :=
  if Qle_bool 0 x then Qfloor (x + (1 # 2))%Q else - Qfloor (- x + (1 # 2))%Q.

(** [std::numeric_limits<float>::max()]. *)
Definition FLT_MAX : Q := inject_Z ((2 ^ 24 - 1) * 2 ^ 104).

Definition seconds_per_day : Q := inject_Z (24 * 60 * 60).

(** ** core/flag_values.hpp *)

Inductive flag_values : Set :=
  | unflagged
  | filter_rolloff
  | low_spectral_kurtosis
  | high_spectral_kurtosis
  | RESERVED_0
  | magnitude
  | sigma_clip
  | RESERVED_1
  | RESERVED_2.

(** The enumerators' values. *)
Definition flag_value (f : flag_values) : Z :=
  match f with
  | unflagged => 0
  | filter_rolloff => Z.shiftl 1 0
  | low_spectral_kurtosis => Z.shiftl 1 1
  | high_spectral_kurtosis => Z.shiftl 1 2
  | RESERVED_0 => Z.shiftl 1 3
  | magnitude => Z.shiftl 1 4
  | sigma_clip => Z.shiftl 1 5
  | RESERVED_1 => Z.shiftl 1 6
  | RESERVED_2 => Z.shiftl 1 7
  end.

(** The enumerators in increasing order of value: the iteration order of a
    [std::map] keyed by them. *)
Definition flag_values_ascending : list flag_values :=
  [unflagged; filter_rolloff; low_spectral_kurtosis; high_spectral_kurtosis;
   RESERVED_0; magnitude; sigma_clip; RESERVED_1; RESERVED_2].

Definition flag_of_nat (n : nat) : option flag_values :=
  flag_values_ascending !! n.

Definition flag_to_nat (f : flag_values) : nat :=
  match f with
  | unflagged => 0
  | filter_rolloff => 1
  | low_spectral_kurtosis => 2
  | high_spectral_kurtosis => 3
  | RESERVED_0 => 4
  | magnitude => 5
  | sigma_clip => 6
  | RESERVED_1 => 7
  | RESERVED_2 => 8
  end%nat.

#[export] Instance flag_values_eq_dec : EqDecision flag_values.
Proof. solve_decision. Defined.

#[export] Instance flag_values_countable : Countable flag_values.
Proof.
  refine (inj_countable flag_to_nat flag_of_nat _).
  intros f. destruct f; reflexivity.
Defined.

(** ** core/protohit.hpp: [rfi], [freq_drift_coord], [protohit] *)

(** [using rfi = std::map<flag_values, uint8_t>]. *)
Abbreviation rfi := (gmap flag_values Z).

(** [m[k]] on a non-const map: reads the count, and inserts a zero count
    when the key is absent. *)
Definition rfi_subscript (m : rfi) (k : flag_values) : Z * rfi :=
  match m !! k with
  | Some v => (v, m)
  | None => (0, <[k := 0]> m)
  end.

(** The count the program reads for a flag, wherever it reads one. *)
Definition rfi_count (m : rfi) (k : flag_values) : Z := (rfi_subscript m k).1.

(** The entries of the map in iteration order. *)
Definition rfi_items (m : rfi) : list (Z * Z) :=
  omap (fun k => v ← m !! k; Some (flag_value k, v)) flag_values_ascending.

Record freq_drift_coord : Type := {
  drift_index : Z;
  frequency_channel : Z
}.

Record protohit : Type := {
  index_max : freq_drift_coord;
  index_center : freq_drift_coord;
  protohit_snr : Q;
  max_integration : Q;
  desmeared_noise : Q;
  protohit_binwidth : Z;
  locations : list freq_drift_coord;
  protohit_rfi_counts : rfi
}.

(** ** core/hit.hpp *)

Record hit : Type := {
  start_freq_index : Z;
  start_freq_MHz : Q;
  start_time_sec : Q;
  duration_sec : Q;
  rate_index : Z;
  drift_rate_Hz_per_sec : Q;
  power : Q;
  time_span_steps : Z;
  integrated_channels : Z;
  snr : Q;
  bandwidth : Q;
  binwidth : Z;
  rfi_counts : rfi;
  coarse_channel_number : Z
}.

(** An assignment to [rfi_counts]. *)
Definition with_rfi_counts (m : rfi) (h : hit) : hit := {|
  start_freq_index := start_freq_index h;
  start_freq_MHz := start_freq_MHz h;
  start_time_sec := start_time_sec h;
  duration_sec := duration_sec h;
  rate_index := rate_index h;
  drift_rate_Hz_per_sec := drift_rate_Hz_per_sec h;
  power := power h;
  time_span_steps := time_span_steps h;
  integrated_channels := integrated_channels h;
  snr := snr h;
  bandwidth := bandwidth h;
  binwidth := binwidth h;
  rfi_counts := m;
  coarse_channel_number := coarse_channel_number h
|}.

(** Lexicographic combination of two three-way comparisons. *)
Definition lex (c rest : comparison) : comparison :=
  match c with
  | Eq => rest
  | _ => c
  end.

Definition pair_compare (p q : Z * Z) : comparison :=
  lex (p.1 ?= q.1) (p.2 ?= q.2).

(** [std::lexicographical_compare] as a three-way comparison. *)
Fixpoint items_compare (l1 l2 : list (Z * Z)) : comparison :=
  match l1, l2 with
  | [], [] => Eq
  | [], _ :: _ => Lt
  | _ :: _, [] => Gt
  | p :: l1', q :: l2' => lex (pair_compare p q) (items_compare l1' l2')
  end.

(** The tuple of fields [operator==] and [operator<] tie together, compared
    field by field; [integrated_channels] and [coarse_channel_number] are
    left out, as in the source. *)
Definition hit_compare (a b : hit) : comparison :=
  lex (start_freq_index a ?= start_freq_index b)
 (lex (start_freq_MHz a ?= start_freq_MHz b)%Q
 (lex (start_time_sec a ?= start_time_sec b)%Q
 (lex (duration_sec a ?= duration_sec b)%Q
 (lex (rate_index a ?= rate_index b)
 (lex (drift_rate_Hz_per_sec a ?= drift_rate_Hz_per_sec b)%Q
 (lex (power a ?= power b)%Q
 (lex (time_span_steps a ?= time_span_steps b)
 (lex (snr a ?= snr b)%Q
 (lex (bandwidth a ?= bandwidth b)%Q
 (lex (binwidth a ?= binwidth b)
      (items_compare (rfi_items (rfi_counts a)) (rfi_items (rfi_counts b))))))))))))).

(** [hit::operator==]. *)
Definition hit_eqb (a b : hit) : bool :=
  (start_freq_index a =? start_freq_index b)
  && Qeq_bool (start_freq_MHz a) (start_freq_MHz b)
  && Qeq_bool (start_time_sec a) (start_time_sec b)
  && Qeq_bool (duration_sec a) (duration_sec b)
  && (rate_index a =? rate_index b)
  && Qeq_bool (drift_rate_Hz_per_sec a) (drift_rate_Hz_per_sec b)
  && Qeq_bool (power a) (power b)
  && (time_span_steps a =? time_span_steps b)
  && Qeq_bool (snr a) (snr b)
  && Qeq_bool (bandwidth a) (bandwidth b)
  && (binwidth a =? binwidth b)
  && bool_decide (rfi_counts a = rfi_counts b).

(** [hit::operator<]. *)
Definition hit_ltb (a b : hit) : bool :=
  match hit_compare a b with
  | Lt => true
  | _ => false
  end.

(** [operator<] of [std::pair<hit, hit>]. *)
Definition hit_pair_ltb (p q : hit * hit) : bool :=
  hit_ltb p.1 q.1 || (negb (hit_ltb q.1 p.1) && hit_ltb p.2 q.2).

(** ** drift_search/event_search.cpp: the distance between two hits *)

Module EventDistance.

Local Open Scope Q_scope.

Definition freq_localization_weight : Q := 1 # 100.
Definition drift_error_weight : Q := 10.
Definition snr_difference_weight : Q := 0.
Definition eps : Q := 1 / inject_Z (10 ^ 8).

(** The locals of [distance_func], one definition each. *)

Definition snr_difference (a b : hit) : Q := Qabs (snr a - snr b).

Definition drift_difference (a b : hit) : Q :=
  Qabs (drift_rate_Hz_per_sec a - drift_rate_Hz_per_sec b) /
  (eps + drift_rate_Hz_per_sec a * drift_rate_Hz_per_sec a +
   drift_rate_Hz_per_sec b * drift_rate_Hz_per_sec b).

Definition drift_error (a b : hit) : Q :=
  drift_difference a b * drift_difference a b.

Definition first_sample_time (a b : hit) : Q :=
  Qmin (start_time_sec a) (start_time_sec b).

Definition last_sample_time (a b : hit) : Q :=
  Qmax (start_time_sec a + duration_sec b) (start_time_sec b + duration_sec b).

Definition rendezvous_time (a b : hit) : Q :=
  (last_sample_time a b + first_sample_time a b) / 2.

Definition a_time_to_rendezvous (a b : hit) : Q :=
  rendezvous_time a b - start_time_sec a.

Definition b_time_to_rendezvous (a b : hit) : Q :=
  rendezvous_time a b - start_time_sec b.

Definition a_rendezvous_frequency (a b : hit) : Q :=
  start_freq_MHz a * inject_Z (10 ^ 6) +
  drift_rate_Hz_per_sec a * a_time_to_rendezvous a b.

Definition b_rendezvous_frequency (a b : hit) : Q :=
  start_freq_MHz b * inject_Z (10 ^ 6) +
  drift_rate_Hz_per_sec b * b_time_to_rendezvous a b.

Definition rendezvous_frequency_difference (a b : hit) : Q :=
  Qabs (a_rendezvous_frequency a b - b_rendezvous_frequency a b).

Definition distance_func (a b : hit) : Q :=
  freq_localization_weight * rendezvous_frequency_difference a b +
  drift_error_weight * drift_error a b +
  snr_difference_weight * snr_difference a b.

(** The rendezvous time in the words of the specification: each hit ends at
    its own start plus its own duration. *)
Definition specified_rendezvous_time (a b : hit) : Q :=
  (Qmin (start_time_sec a) (start_time_sec b)
   + Qmax (start_time_sec a + duration_sec a) (start_time_sec b + duration_sec b)) / 2.

(** The distance in the words of the specification, over the frequencies the
    program projects: the drift term squares the squared difference of the
    drift rates over their magnitude. *)
Definition specified_distance (a b : hit) : Q :=
  (1 # 100) * Qabs (a_rendezvous_frequency a b - b_rendezvous_frequency a b)
  + 10 * ((drift_rate_Hz_per_sec a - drift_rate_Hz_per_sec b) ^ 2
          / (1 / inject_Z (10 ^ 8)
             + drift_rate_Hz_per_sec a ^ 2 + drift_rate_Hz_per_sec b ^ 2)) ^ 2
  + 0 * Qabs (snr a - snr b).

(** [hit_distance]: the memoising wrapper.  [hit_pair_comparator] is the
    ordering of the cache's keys. *)
Definition hit_pair_comparator (p1 p2 : hit * hit) : bool :=
  if hit_eqb p1.1 p2.1 && hit_eqb p1.2 p2.2 then false
  else if hit_eqb p1.1 p2.2 && hit_eqb p1.2 p2.1 then false
  else hit_pair_ltb p1 p2.

(** Two keys a [std::map] takes for the same key: neither orders before the
    other. *)
Definition same_key (p1 p2 : hit * hit) : bool :=
  negb (hit_pair_comparator p1 p2) && negb (hit_pair_comparator p2 p1).

(** The cache.  A [std::map] lookup yields an entry whose key is [same_key]
    with the one sought; the cache is kept as the list of its entries, newest
    first, and a lookup takes the first such entry.  The balancing of the
    tree is not modelled. *)
Definition distance_cache : Type := list ((hit * hit) * Q).

Definition cache_find (pair : hit * hit) (cache : distance_cache)
  : option ((hit * hit) * Q) :=
  List.find (fun entry => same_key pair entry.1) cache.

(** [hit_distance::operator()]: the distance and the cache after the call. *)
Definition hit_distance (p1 p2 : hit) (cache : distance_cache)
  : Q * distance_cache :=
  let pair := (p1, p2) in
  match cache_find pair cache with
  | Some entry => (entry.2, cache)
  | None =>
      let d := distance_func p1 p2 in
      (d, (pair, d) :: cache)
  end.

(** Two hits that agree on the fields [distance_func] reads. *)
Definition same_track (a a' : hit) : Prop :=
  start_freq_MHz a == start_freq_MHz a'
  /\ start_time_sec a == start_time_sec a'
  /\ duration_sec a == duration_sec a'
  /\ drift_rate_Hz_per_sec a == drift_rate_Hz_per_sec a'
  /\ snr a == snr a'.

(** A hit lasting [D] seconds. *)
Definition lasting (D : Q) (h : hit) : Prop := duration_sec h == D.

(** A cache over hits lasting [D] seconds that stores, for each key, the
    distance of that key. *)
Definition sound (D : Q) (cache : distance_cache) : Prop :=
  Forall (fun entry =>
            lasting D entry.1.1 /\ lasting D entry.1.2
            /\ entry.2 == distance_func entry.1.1 entry.1.2) cache.

End EventDistance.

(** ** drift_search/filter_hits.cpp *)

Module HitFilter.

Local Open Scope Q_scope.

Record filter_options : Type := {
  filter_zero_drift : bool;
  filter_sigmaclip : bool;
  minimum_percent_sigmaclip : Q;
  filter_high_sk : bool;
  minimum_percent_high_sk : Q;
  filter_low_sk : bool;
  maximum_percent_low_sk : Q
}.

(** The thresholds' defaults in [filter_options]. *)
Definition default_filter_options : filter_options := {|
  filter_zero_drift := true;
  filter_sigmaclip := true;
  minimum_percent_sigmaclip := 1 # 10;
  filter_high_sk := false;
  minimum_percent_high_sk := 1 # 10;
  filter_low_sk := false;
  maximum_percent_low_sk := 1 # 10
|}.

Definition eps : Q := 1 / inject_Z (10 ^ 6).

(** One guarded test of the lambda: [enabled && current_hit.rfi_counts[k] ...];
    the subscript is evaluated, and may insert, only when [enabled] holds. *)
Definition flag_test (enabled : bool) (k : flag_values) (test : Q -> bool)
    (current_hit : hit) : bool * hit :=
  if enabled then
    let '(count, counts) := rfi_subscript (rfi_counts current_hit) k in
    (test (inject_Z count), with_rfi_counts counts current_hit)
  else (false, current_hit).

(** The lambda handed to [remove_if]: whether the hit is to be removed, and
    the hit as the lambda leaves it (it takes the hit by reference). *)
Definition rejects (options : filter_options) (current_hit : hit) : bool * hit :=
  if filter_zero_drift options
     && Qltb (Qabs (drift_rate_Hz_per_sec current_hit)) eps
  then (true, current_hit)
  else
    let abs_integrated := inject_Z (Z.abs (integrated_channels current_hit)) in
    let '(sigmaclip, current_hit) :=
      flag_test (filter_sigmaclip options) sigma_clip
        (fun count => Qltb count (abs_integrated * minimum_percent_sigmaclip options))
        current_hit in
    if sigmaclip then (true, current_hit)
    else
      let '(high_sk, current_hit) :=
        flag_test (filter_high_sk options) high_spectral_kurtosis
          (fun count => Qltb count (abs_integrated * minimum_percent_high_sk options))
          current_hit in
      if high_sk then (true, current_hit)
      else
        let '(low_sk, current_hit) :=
          flag_test (filter_low_sk options) low_spectral_kurtosis
            (fun count => Qltb (abs_integrated * maximum_percent_low_sk options) count)
            current_hit in
        if low_sk then (true, current_hit)
        else (false, current_hit).

(** [std::list::remove_if] with a predicate that may modify the element. *)
Fixpoint remove_if (pred : hit -> bool * hit) (hits : list hit) : list hit :=
  match hits with
  | [] => []
  | h :: rest =>
      let '(remove, h') := pred h in
      if remove then remove_if pred rest else h' :: remove_if pred rest
  end.

Definition filter_hits (hits : list hit) (options : filter_options) : list hit :=
  remove_if (rejects options) hits.

(** [N = |integrated_channels|]. *)
Definition N (h : hit) : Q := inject_Z (Z.abs (integrated_channels h)).

(** The rejection rules in the words of the specification, over the counts
    the program reads ([rfi_count]: an absent flag counts zero). *)
Definition rejected (options : filter_options) (h : hit) : Prop :=
  (filter_zero_drift options = true
     /\ Qabs (drift_rate_Hz_per_sec h) < 1 / inject_Z (10 ^ 6))
  \/ (filter_sigmaclip options = true
     /\ inject_Z (rfi_count (rfi_counts h) sigma_clip)
        < N h * minimum_percent_sigmaclip options)
  \/ (filter_high_sk options = true
     /\ inject_Z (rfi_count (rfi_counts h) high_spectral_kurtosis)
        < N h * minimum_percent_high_sk options)
  \/ (filter_low_sk options = true
     /\ N h * maximum_percent_low_sk options
        < inject_Z (rfi_count (rfi_counts h) low_spectral_kurtosis)).

#[export] Instance rejected_dec (options : filter_options) (h : hit)
  : Decision (rejected options h).
Proof. unfold rejected. apply _. Defined.

(** Two hits that agree on every field and on every count the program can
    read; they may differ in which zero counts their maps store. *)
Definition same_hit (h h' : hit) : Prop :=
  start_freq_index h = start_freq_index h'
  /\ start_freq_MHz h = start_freq_MHz h'
  /\ start_time_sec h = start_time_sec h'
  /\ duration_sec h = duration_sec h'
  /\ rate_index h = rate_index h'
  /\ drift_rate_Hz_per_sec h = drift_rate_Hz_per_sec h'
  /\ power h = power h'
  /\ time_span_steps h = time_span_steps h'
  /\ integrated_channels h = integrated_channels h'
  /\ snr h = snr h'
  /\ bandwidth h = bandwidth h'
  /\ binwidth h = binwidth h'
  /\ coarse_channel_number h = coarse_channel_number h'
  /\ forall k, rfi_count (rfi_counts h) k = rfi_count (rfi_counts h') k.

(** The keys the enabled tests of [options] read are stored in the hit. *)
Definition covered (options : filter_options) (h : hit) : Prop :=
  (filter_sigmaclip options = true -> is_Some (rfi_counts h !! sigma_clip))
  /\ (filter_high_sk options = true -> is_Some (rfi_counts h !! high_spectral_kurtosis))
  /\ (filter_low_sk options = true -> is_Some (rfi_counts h !! low_spectral_kurtosis)).

End HitFilter.

(** ** core/frequency_drift_plane.hpp, core/noise_power.hpp *)

Module frequency_drift_plane.

(** [frequency_drift_plane::drift_rate]. *)
Record drift_rate : Type := {
  index_in_plane : Z;
  drift_rate_slope : Q;
  drift_rate_Hz_per_sec : Q;
  drift_channels_span : Z;
  desmeared_bins : Z
}.

(** The plane: the integrated power and the three planes of flag counts
    (rows are drift rates, columns frequency channels), the number of
    integrated time steps and the drift rates searched. *)
Record t : Type := {
  integrated_drifts : list (list Q);
  low_sk_counts : list (list Z);
  high_sk_counts : list (list Z);
  sigma_clip_counts : list (list Z);
  integration_steps : Z;
  drift_rate_info : list drift_rate
}.

End frequency_drift_plane.

Record noise_stats : Type := {
  noise_floor : Q;
  noise_power : Q
}.

(** [v[i]] on a [std::vector]: unchecked, so undefined out of range. *)
Definition vector_subscript {A : Type} (v : list A) (i : Z) : outcome A :=
  if i <? 0 then Undefined
  else match v !! Z.to_nat i with
       | Some a => Returns a
       | None => Undefined
       end.

(** ** drift_search/integrate_drifts.cpp: [compute_drifts] *)

Module DriftGeometry.
Import frequency_drift_plane.

Local Open Scope Q_scope.

Record integrate_drifts_options : Type := {
  desmear : bool;
  low_rate_Hz_per_sec : Q;
  high_rate_Hz_per_sec : Q;
  resolution : Z
}.

Definition default_integrate_drifts_options : integrate_drifts_options := {|
  desmear := true;
  low_rate_Hz_per_sec := -5;
  high_rate_Hz_per_sec := 5;
  resolution := 1
|}.

(** The locals of [compute_drifts] computed before the loop. *)

Definition foff_Hz (foff : Q) : Q := foff * inject_Z (10 ^ 6).

Definition unit_drift_resolution (time_steps : Z) (foff tsamp : Q) : Q :=
  foff_Hz foff / (inject_Z (time_steps - 1) * tsamp).

Definition search_resolution_Hz_sec (time_steps : Z) (foff tsamp : Q)
    (options : integrate_drifts_options) : Q :=
  unit_drift_resolution time_steps foff tsamp * inject_Z (resolution options).

Definition rounded_low_drift_Hz_sec (time_steps : Z) (foff tsamp : Q)
    (options : integrate_drifts_options) : Q :=
  inject_Z (round_half_away
              (low_rate_Hz_per_sec options / unit_drift_resolution time_steps foff tsamp))
  * unit_drift_resolution time_steps foff tsamp.

Definition rounded_high_drift_Hz_sec (time_steps : Z) (foff tsamp : Q)
    (options : integrate_drifts_options) : Q :=
  inject_Z (round_half_away
              (high_rate_Hz_per_sec options / unit_drift_resolution time_steps foff tsamp))
  * unit_drift_resolution time_steps foff tsamp.

Definition number_drifts (time_steps : Z) (foff tsamp : Q)
    (options : integrate_drifts_options) : Q :=
  Qabs ((rounded_high_drift_Hz_sec time_steps foff tsamp options
         - rounded_low_drift_Hz_sec time_steps foff tsamp options)
        / search_resolution_Hz_sec time_steps foff tsamp options).

(** The body of the loop: the entry pushed for [index]. *)
Definition drift_rate_entry (time_steps : Z) (foff tsamp : Q)
    (options : integrate_drifts_options) (index : Z) : drift_rate :=
  let maximum_drift_time_span := (time_steps - 1)%Z in
  let drift_rate :=
    rounded_low_drift_Hz_sec time_steps foff tsamp options
    + inject_Z index * Qabs (search_resolution_Hz_sec time_steps foff tsamp options) in
  let span :=
    round_half_away
      (drift_rate * (inject_Z maximum_drift_time_span * tsamp) / foff_Hz foff) in
  let m := inject_Z span / inject_Z maximum_drift_time_span in
  let smeared_channels := round_half_away (Qabs m) in
  let desmear_binwidth :=
    if desmear options then Z.max 1 smeared_channels else 1%Z in
  {| index_in_plane := index;
     drift_rate_slope := m;
     drift_rate_Hz_per_sec := drift_rate;
     drift_channels_span := span;
     desmeared_bins := desmear_binwidth |}.

(** [for (int index = 0; index < number_drifts; ++index)], with the number
    of iterations still allowed as fuel. *)
Fixpoint drift_loop (fuel : nat) (time_steps : Z) (foff tsamp : Q)
    (options : integrate_drifts_options) (index : Z) : list drift_rate :=
  match fuel with
  | O => []
  | S fuel' =>
      if Qltb (inject_Z index) (number_drifts time_steps foff tsamp options)
      then drift_rate_entry time_steps foff tsamp options index
           :: drift_loop fuel' time_steps foff tsamp options (index + 1)
      else []
  end.

(** [compute_drifts].  A zero step with distinct bounds makes [number_drifts]
    infinite in the program and its loop endless: no grid is returned.  In
    every other case where the program divides by zero its [number_drifts] is
    not a number, the loop body never runs, and the grid is empty; so it is
    here, where a quotient by zero is zero.  The fuel, the least integer not
    below [number_drifts], is the number of indices that pass the loop test. *)
Definition compute_drifts (time_steps : Z) (foff tsamp : Q)
    (options : integrate_drifts_options) : outcome (list drift_rate) :=
  if Qeq_bool (search_resolution_Hz_sec time_steps foff tsamp options) 0
     && negb (Qeq_bool (rounded_high_drift_Hz_sec time_steps foff tsamp options
                        - rounded_low_drift_Hz_sec time_steps foff tsamp options) 0)
  then Undefined
  else Returns (drift_loop
                  (Z.to_nat (Qceiling (number_drifts time_steps foff tsamp options)))
                  time_steps foff tsamp options 0).

End DriftGeometry.

(** ** core/scan_metadata.hpp, core/coarse_channel.cpp *)

Module scan_metadata.

(** The fields of [scan_metadata] this development reads. *)
Record t : Type := {
  fch1 : Q;
  foff : Q;
  tsamp : Q;
  tstart : Q;
  nchans : Z;
  ntsteps : Z
}.

End scan_metadata.

(** A product a coarse channel caches: computed, or a generator for it
    ([std::variant<T, std::function<T()>>]). *)
Inductive cached (A : Type) : Type :=
  | Ready (a : A)
  | Pending (generator : unit -> A).

Arguments Ready {A} a.
Arguments Pending {A} generator.

Definition force {A : Type} (c : cached A) : A :=
  match c with
  | Ready a => a
  | Pending generator => generator tt
  end.

Module coarse_channel.

Local Open Scope Q_scope.

(** The members of [coarse_channel] this development reads; the data and mask
    arrays and the device are left out.  A null shared pointer is [None]. *)
Record t : Type := {
  _meta : scan_metadata.t;
  _coarse_channel_number : Z;
  _noise_stats : option noise_stats;
  _integrated_drift_plane : option (cached frequency_drift_plane.t);
  _hits : option (cached (list hit))
}.

Definition fch1 (cc : t) : Q := scan_metadata.fch1 (_meta cc).
Definition foff (cc : t) : Q := scan_metadata.foff (_meta cc).
Definition tsamp (cc : t) : Q := scan_metadata.tsamp (_meta cc).
Definition tstart (cc : t) : Q := scan_metadata.tstart (_meta cc).

Definition noise_estimate (cc : t) : outcome noise_stats :=
  match _noise_stats cc with
  | Some stats => Returns stats
  | None => Throws logic_error
  end.

Definition has_hits (cc : t) : bool :=
  match _hits cc with
  | None => false
  | Some _ => true
  end.

Definition hits (cc : t) : outcome (list hit) :=
  match _hits cc with
  | None => Throws logic_error
  | Some h => Returns (force h)
  end.

Definition set_hits (new_hits : list hit) (cc : t) : t := {|
  _meta := _meta cc;
  _coarse_channel_number := _coarse_channel_number cc;
  _noise_stats := _noise_stats cc;
  _integrated_drift_plane := _integrated_drift_plane cc;
  _hits := Some (Ready new_hits)
|}.

Definition integrated_drift_plane (cc : t) : outcome frequency_drift_plane.t :=
  match _integrated_drift_plane cc with
  | None => Throws runtime_error
  | Some plane => Returns (force plane)
  end.

End coarse_channel.

(** ** drift_search/hit_search.cpp *)

Module HitSearch.

Local Open Scope Q_scope.

Inductive hit_search_methods : Set :=
  | CONNECTED_COMPONENTS
  | LOCAL_MAXIMA.

Record hit_search_options : Type := {
  method : hit_search_methods;
  snr_threshold : Q;
  neighbor_l1_dist : Z
}.

(** Assignments to the fields of the local [this_hit]. *)

Definition set_rate_index (v : Z) (h : hit) : hit :=
  {| start_freq_index := start_freq_index h; start_freq_MHz := start_freq_MHz h;
     start_time_sec := start_time_sec h; duration_sec := duration_sec h;
     rate_index := v; drift_rate_Hz_per_sec := drift_rate_Hz_per_sec h;
     power := power h; time_span_steps := time_span_steps h;
     integrated_channels := integrated_channels h; snr := snr h;
     bandwidth := bandwidth h; binwidth := binwidth h;
     rfi_counts := rfi_counts h; coarse_channel_number := coarse_channel_number h |}.

Definition set_start_freq_index (v : Z) (h : hit) : hit :=
  {| start_freq_index := v; start_freq_MHz := start_freq_MHz h;
     start_time_sec := start_time_sec h; duration_sec := duration_sec h;
     rate_index := rate_index h; drift_rate_Hz_per_sec := drift_rate_Hz_per_sec h;
     power := power h; time_span_steps := time_span_steps h;
     integrated_channels := integrated_channels h; snr := snr h;
     bandwidth := bandwidth h; binwidth := binwidth h;
     rfi_counts := rfi_counts h; coarse_channel_number := coarse_channel_number h |}.

Definition set_start_freq_MHz (v : Q) (h : hit) : hit :=
  {| start_freq_index := start_freq_index h; start_freq_MHz := v;
     start_time_sec := start_time_sec h; duration_sec := duration_sec h;
     rate_index := rate_index h; drift_rate_Hz_per_sec := drift_rate_Hz_per_sec h;
     power := power h; time_span_steps := time_span_steps h;
     integrated_channels := integrated_channels h; snr := snr h;
     bandwidth := bandwidth h; binwidth := binwidth h;
     rfi_counts := rfi_counts h; coarse_channel_number := coarse_channel_number h |}.

Definition set_start_time_sec (v : Q) (h : hit) : hit :=
  {| start_freq_index := start_freq_index h; start_freq_MHz := start_freq_MHz h;
     start_time_sec := v; duration_sec := duration_sec h;
     rate_index := rate_index h; drift_rate_Hz_per_sec := drift_rate_Hz_per_sec h;
     power := power h; time_span_steps := time_span_steps h;
     integrated_channels := integrated_channels h; snr := snr h;
     bandwidth := bandwidth h; binwidth := binwidth h;
     rfi_counts := rfi_counts h; coarse_channel_number := coarse_channel_number h |}.

Definition set_duration_sec (v : Q) (h : hit) : hit :=
  {| start_freq_index := start_freq_index h; start_freq_MHz := start_freq_MHz h;
     start_time_sec := start_time_sec h; duration_sec := v;
     rate_index := rate_index h; drift_rate_Hz_per_sec := drift_rate_Hz_per_sec h;
     power := power h; time_span_steps := time_span_steps h;
     integrated_channels := integrated_channels h; snr := snr h;
     bandwidth := bandwidth h; binwidth := binwidth h;
     rfi_counts := rfi_counts h; coarse_channel_number := coarse_channel_number h |}.

Definition set_drift_rate_Hz_per_sec (v : Q) (h : hit) : hit :=
  {| start_freq_index := start_freq_index h; start_freq_MHz := start_freq_MHz h;
     start_time_sec := start_time_sec h; duration_sec := duration_sec h;
     rate_index := rate_index h; drift_rate_Hz_per_sec := v;
     power := power h; time_span_steps := time_span_steps h;
     integrated_channels := integrated_channels h; snr := snr h;
     bandwidth := bandwidth h; binwidth := binwidth h;
     rfi_counts := rfi_counts h; coarse_channel_number := coarse_channel_number h |}.

Definition set_power (v : Q) (h : hit) : hit :=
  {| start_freq_index := start_freq_index h; start_freq_MHz := start_freq_MHz h;
     start_time_sec := start_time_sec h; duration_sec := duration_sec h;
     rate_index := rate_index h; drift_rate_Hz_per_sec := drift_rate_Hz_per_sec h;
     power := v; time_span_steps := time_span_steps h;
     integrated_channels := integrated_channels h; snr := snr h;
     bandwidth := bandwidth h; binwidth := binwidth h;
     rfi_counts := rfi_counts h; coarse_channel_number := coarse_channel_number h |}.

Definition set_integrated_channels (v : Z) (h : hit) : hit :=
  {| start_freq_index := start_freq_index h; start_freq_MHz := start_freq_MHz h;
     start_time_sec := start_time_sec h; duration_sec := duration_sec h;
     rate_index := rate_index h; drift_rate_Hz_per_sec := drift_rate_Hz_per_sec h;
     power := power h; time_span_steps := time_span_steps h;
     integrated_channels := v; snr := snr h;
     bandwidth := bandwidth h; binwidth := binwidth h;
     rfi_counts := rfi_counts h; coarse_channel_number := coarse_channel_number h |}.

Definition set_snr (v : Q) (h : hit) : hit :=
  {| start_freq_index := start_freq_index h; start_freq_MHz := start_freq_MHz h;
     start_time_sec := start_time_sec h; duration_sec := duration_sec h;
     rate_index := rate_index h; drift_rate_Hz_per_sec := drift_rate_Hz_per_sec h;
     power := power h; time_span_steps := time_span_steps h;
     integrated_channels := integrated_channels h; snr := v;
     bandwidth := bandwidth h; binwidth := binwidth h;
     rfi_counts := rfi_counts h; coarse_channel_number := coarse_channel_number h |}.

Definition set_bandwidth (v : Q) (h : hit) : hit :=
  {| start_freq_index := start_freq_index h; start_freq_MHz := start_freq_MHz h;
     start_time_sec := start_time_sec h; duration_sec := duration_sec h;
     rate_index := rate_index h; drift_rate_Hz_per_sec := drift_rate_Hz_per_sec h;
     power := power h; time_span_steps := time_span_steps h;
     integrated_channels := integrated_channels h; snr := snr h;
     bandwidth := v; binwidth := binwidth h;
     rfi_counts := rfi_counts h; coarse_channel_number := coarse_channel_number h |}.

Definition set_binwidth (v : Z) (h : hit) : hit :=
  {| start_freq_index := start_freq_index h; start_freq_MHz := start_freq_MHz h;
     start_time_sec := start_time_sec h; duration_sec := duration_sec h;
     rate_index := rate_index h; drift_rate_Hz_per_sec := drift_rate_Hz_per_sec h;
     power := power h; time_span_steps := time_span_steps h;
     integrated_channels := integrated_channels h; snr := snr h;
     bandwidth := bandwidth h; binwidth := v;
     rfi_counts := rfi_counts h; coarse_channel_number := coarse_channel_number h |}.

Definition set_coarse_channel_number (v : Z) (h : hit) : hit :=
  {| start_freq_index := start_freq_index h; start_freq_MHz := start_freq_MHz h;
     start_time_sec := start_time_sec h; duration_sec := duration_sec h;
     rate_index := rate_index h; drift_rate_Hz_per_sec := drift_rate_Hz_per_sec h;
     power := power h; time_span_steps := time_span_steps h;
     integrated_channels := integrated_channels h; snr := snr h;
     bandwidth := bandwidth h; binwidth := binwidth h;
     rfi_counts := rfi_counts h; coarse_channel_number := v |}.

(** [this_hit.rfi_counts[k] = c.rfi_counts.at(k)], done when [c.rfi_counts]
    has the key. *)
Definition copy_flag (k : flag_values) (c : protohit) (h : hit) : hit :=
  match protohit_rfi_counts c !! k with
  | Some count => with_rfi_counts (<[k := count]> (rfi_counts h)) h
  | None => h
  end.

Section hit_search.

(** [protohit_search] is declared in drift_search/protohit_search.hpp; its
    body is not among the sources, and the hits are characterised whatever it
    returns. *)
Variable protohit_search :
  frequency_drift_plane.t -> noise_stats -> hit_search_options -> list protohit.

(** The storage of a local [hit] before any assignment: every field without a
    default member initialiser is indeterminate. *)
Variable indeterminate : hit.

(** [hit this_hit;]: the map is default-constructed, the channel number has
    its default member initialiser. *)
Definition declared_hit : hit :=
  set_coarse_channel_number 0 (with_rfi_counts ∅ indeterminate).

(** The body of the loop over the protohits. *)
Definition characterise (foff fch1 tstart_seconds tsamp : Q) (cc_number : Z)
    (channel_bandwidth_MHz : Q) (noise_estimate : noise_stats)
    (integration_length : Z) (drift_rate_info : list frequency_drift_plane.drift_rate)
    (c : protohit) : outcome hit :=
  let this_hit := declared_hit in
  let this_hit := set_rate_index (drift_index (index_max c)) this_hit in
  let this_hit := with_rfi_counts (protohit_rfi_counts c) this_hit in
  let this_hit := set_start_freq_index (frequency_channel (index_max c)) this_hit in
  let freq_offset := foff * inject_Z (start_freq_index this_hit) in
  let this_hit := set_start_freq_MHz (fch1 + freq_offset) this_hit in
  rate ← vector_subscript drift_rate_info (rate_index this_hit);
  let this_hit :=
    set_drift_rate_Hz_per_sec (frequency_drift_plane.drift_rate_Hz_per_sec rate) this_hit in
  let signal_power := max_integration c - noise_floor noise_estimate in
  let this_hit := set_power signal_power this_hit in
  let this_hit := set_snr (signal_power / desmeared_noise c) this_hit in
  let this_hit := set_binwidth (protohit_binwidth c) this_hit in
  let this_hit :=
    set_bandwidth (inject_Z (binwidth this_hit) * channel_bandwidth_MHz) this_hit in
  let freq_offset := foff * inject_Z (frequency_channel (index_center c)) in
  let this_hit := set_start_freq_MHz (fch1 + freq_offset) this_hit in
  let this_hit := set_start_time_sec tstart_seconds this_hit in
  let this_hit := set_duration_sec (tsamp * inject_Z integration_length) this_hit in
  rate ← vector_subscript drift_rate_info (rate_index this_hit);
  let this_hit :=
    set_integrated_channels (frequency_drift_plane.desmeared_bins rate * integration_length)%Z this_hit in
  let this_hit := set_coarse_channel_number cc_number this_hit in
  let this_hit := copy_flag sigma_clip c this_hit in
  let this_hit := copy_flag low_spectral_kurtosis c this_hit in
  let this_hit := copy_flag high_spectral_kurtosis c this_hit in
  mret this_hit.

(** The loop: one hit pushed per protohit, in order. *)
Fixpoint characterise_all (body : protohit -> outcome hit)
    (protohits : list protohit) (hits : list hit) : outcome (list hit) :=
  match protohits with
  | [] => mret hits
  | c :: rest =>
      this_hit ← body c;
      characterise_all body rest (hits ++ [this_hit])
  end.

Definition hit_search (dedrifted_scan : coarse_channel.t)
    (options : hit_search_options) : outcome (list hit) :=
  noise_estimate ← coarse_channel.noise_estimate dedrifted_scan;
  dedrifted_plane ← coarse_channel.integrated_drift_plane dedrifted_scan;
  let protohits := protohit_search dedrifted_plane noise_estimate options in
  let integration_length := frequency_drift_plane.integration_steps dedrifted_plane in
  let drift_rate_info := frequency_drift_plane.drift_rate_info dedrifted_plane in
  let foff := coarse_channel.foff dedrifted_scan in
  let fch1 := coarse_channel.fch1 dedrifted_scan in
  let tstart_seconds := coarse_channel.tstart dedrifted_scan * 24 * 60 * 60 in
  let tsamp := coarse_channel.tsamp dedrifted_scan in
  let cc_number := coarse_channel._coarse_channel_number dedrifted_scan in
  let channel_bandwidth_MHz := Qabs (inject_Z (10 ^ 6) * foff) in
  characterise_all
    (characterise foff fch1 tstart_seconds tsamp cc_number channel_bandwidth_MHz
       noise_estimate integration_length drift_rate_info)
    protohits [].

End hit_search.

(** What [hit_search] makes of one protohit: the fields of C5. *)
Definition characterised (cc : coarse_channel.t) (noise : noise_stats)
    (plane : frequency_drift_plane.t) (c : protohit) (h : hit) : Prop :=
  start_freq_index h = frequency_channel (index_max c)
  /\ start_freq_MHz h
     = coarse_channel.fch1 cc
       + coarse_channel.foff cc * inject_Z (frequency_channel (index_center c))
  /\ power h = max_integration c - noise_floor noise
  /\ snr h = power h / desmeared_noise c
  /\ duration_sec h
     = coarse_channel.tsamp cc
       * inject_Z (frequency_drift_plane.integration_steps plane)
  /\ binwidth h = protohit_binwidth c
  /\ bandwidth h
     == inject_Z (binwidth h) * Qabs (coarse_channel.foff cc * inject_Z (10 ^ 6))
  /\ rate_index h = drift_index (index_max c)
  /\ exists rate,
       frequency_drift_plane.drift_rate_info plane !! Z.to_nat (rate_index h)
       = Some rate
       /\ integrated_channels h
          = (frequency_drift_plane.desmeared_bins rate
             * frequency_drift_plane.integration_steps plane)%Z.

End HitSearch.

(** ** core/scan_datasource.hpp, core/scan.cpp *)

(** [IScanDataSource]: the shape of the data, and the reads of a hyperslab of
    the data and of the mask.  A read succeeds or raises; the arrays it
    returns are not modelled. *)
Record data_source : Type := {
  get_data_shape : list Z;
  read_data : list Z -> list Z -> outcome unit;
  read_mask : list Z -> list Z -> outcome unit
}.

Module Channelization.

Local Open Scope Q_scope.

(** [known_channelizations], without the names of the revisions: the fine
    channels per coarse channel, the frequency resolution and the time
    resolution. *)
Definition known_channelizations : list (Z * Q * Q) :=
  [ (1033216%Z, 284 # 100, 1798 # 100);
    (8%Z, 366210, 34953 # 100000000);
    (1024%Z, 2860, 106 # 100);
    (999424%Z, 293 # 100, 174 # 10);
    (8%Z, 366210, 34953 # 100000000);
    (1024%Z, 2860, 102 # 100);
    (1048576%Z, 279 # 100, 1825 # 100);
    (8%Z, 366210, 34953 # 100000000);
    (1024%Z, 2860, 107 # 100) ].

(** The loop of [infer_number_coarse_channels] over the table; [/] on [int]
    truncates. *)
Fixpoint match_known (table : list (Z * Q * Q)) (number_fine_channels : Z)
    (foff tsamp : Q) : option (Z * Z) :=
  match table with
  | [] => None
  | (fine_channels_per_coarse, freq_res, time_res) :: rest =>
      let num_coarse_channels := Z.quot number_fine_channels fine_channels_per_coarse in
      if (num_coarse_channels * fine_channels_per_coarse =? number_fine_channels)%Z
         && Qltb (Qabs (Qabs foff - freq_res)) (1 # 10)
         && Qltb (Qabs (Qabs tsamp - time_res)) (1 # 10)
      then Some (num_coarse_channels, fine_channels_per_coarse)
      else match_known rest number_fine_channels foff tsamp
  end.

(** One of the two fallback blocks: rounding from [common_channelization]
    fine channels per coarse channel.  The division by [number_coarse] is
    undefined when [number_coarse] is zero. *)
Definition round_from (common_channelization number_fine_channels : Z)
  : outcome (option (Z * Z)) :=
  let number_coarse := Z.quot number_fine_channels common_channelization in
  if (number_coarse =? 0)%Z then Undefined
  else
    let remainder_per_coarse :=
      Z.quot (Z.rem number_fine_channels common_channelization) number_coarse in
    let fine_per_coarse := (common_channelization + remainder_per_coarse)%Z in
    if (fine_per_coarse * number_coarse =? number_fine_channels)%Z
    then mret (Some (number_coarse, fine_per_coarse))
    else mret None.

(** [infer_number_coarse_channels]: the number of coarse channels and the
    number of fine channels in each. *)
Definition infer_number_coarse_channels (number_fine_channels : Z) (foff tsamp : Q)
  : outcome (Z * Z) :=
  match match_known known_channelizations number_fine_channels foff tsamp with
  | Some found => mret found
  | None =>
      rounded ← round_from (Z.shiftl 1 18) number_fine_channels;
      match rounded with
      | Some found => mret found
      | None =>
          rounded ← round_from 1000000 number_fine_channels;
          match rounded with
          | Some found => mret found
          | None => mret (1%Z, number_fine_channels)
          end
      end
  end.

End Channelization.

Module scan.

Local Open Scope Q_scope.

(** [scan::transform_stage], without its description. *)
Definition transform_stage : Type := coarse_channel.t -> outcome coarse_channel.t.

Record t : Type := {
  _coarse_channels : gmap Z coarse_channel.t;
  _data_source : option data_source;
  _coarse_channel_pipeline : list transform_stage;
  _meta : scan_metadata.t;
  _fine_channels_per_coarse : Z;
  _num_coarse_channels : Z;
  _coarse_channel_offset : Z;
  _tduration_secs : Q
}.

Definition fch1 (s : t) : Q := scan_metadata.fch1 (_meta s).
Definition foff (s : t) : Q := scan_metadata.foff (_meta s).
Definition nchans (s : t) : Z := scan_metadata.nchans (_meta s).
Definition tsamp (s : t) : Q := scan_metadata.tsamp (_meta s).
Definition tstart (s : t) : Q := scan_metadata.tstart (_meta s).
Definition ntsteps (s : t) : Z := scan_metadata.ntsteps (_meta s).
Definition tduration_secs (s : t) : Q := _tduration_secs s.

Definition with_coarse_channels (m : gmap Z coarse_channel.t) (s : t) : t := {|
  _coarse_channels := m;
  _data_source := _data_source s;
  _coarse_channel_pipeline := _coarse_channel_pipeline s;
  _meta := _meta s;
  _fine_channels_per_coarse := _fine_channels_per_coarse s;
  _num_coarse_channels := _num_coarse_channels s;
  _coarse_channel_offset := _coarse_channel_offset s;
  _tduration_secs := _tduration_secs s
|}.

(** The guard both [read_coarse_channel] and [peak_coarse_channel] open with. *)
Definition invalid_coarse_channel (s : t) (coarse_channel_index : Z) : bool :=
  (coarse_channel_index <? 0)%Z || (coarse_channel_index >? _num_coarse_channels s)%Z.

(** The loop applying the pipeline's transforms in order. *)
Fixpoint apply_pipeline (pipeline : list transform_stage)
    (transformed_cc : coarse_channel.t) : outcome coarse_channel.t :=
  match pipeline with
  | [] => mret transformed_cc
  | transform :: rest =>
      transformed_cc ← transform transformed_cc;
      apply_pipeline rest transformed_cc
  end.

(** The then-branch of the cache test in [read_coarse_channel]: the channel
    is built from the data source and inserted.  A null data source, or a
    shape of fewer than three dimensions, is undefined behaviour. *)
Definition load_coarse_channel (s : t) (coarse_channel_index : Z)
    (global_offset_in_file : Z) : outcome t :=
  match _data_source s with
  | None => Undefined
  | Some ds =>
      let data_count := get_data_shape ds in
      if (length data_count <? 3)%nat then Undefined
      else
        let data_offset := [0; 0; 0]%Z in
        let data_count := <[2%nat := _fine_channels_per_coarse s]> data_count in
        let global_start_fine_channel :=
          (_fine_channels_per_coarse s * global_offset_in_file)%Z in
        let data_offset := <[2%nat := global_start_fine_channel]> data_offset in
        let relative_start_fine_channel :=
          (_fine_channels_per_coarse s * coarse_channel_index)%Z in
        ntsteps0 ← vector_subscript data_count 0;
        let channel_meta := {|
          scan_metadata.fch1 := fch1 s + foff s * inject_Z relative_start_fine_channel;
          scan_metadata.foff := foff s;
          scan_metadata.tsamp := tsamp s;
          scan_metadata.tstart := tstart s;
          scan_metadata.nchans := _fine_channels_per_coarse s;
          scan_metadata.ntsteps := ntsteps0
        |} in
        _ ← read_data ds data_offset data_count;
        _ ← read_mask ds data_offset data_count;
        let new_coarse := {|
          coarse_channel._meta := channel_meta;
          coarse_channel._coarse_channel_number := global_offset_in_file;
          coarse_channel._noise_stats := None;
          coarse_channel._integrated_drift_plane := None;
          coarse_channel._hits := None
        |} in
        mret (with_coarse_channels
                (<[global_offset_in_file := new_coarse]> (_coarse_channels s)) s)
  end.

(** [scan::read_coarse_channel]: the channel returned and the scan with its
    cache as the call leaves it. *)
Definition read_coarse_channel (s : t) (coarse_channel_index : Z)
  : outcome (coarse_channel.t * t) :=
  if invalid_coarse_channel s coarse_channel_index then Throws out_of_range
  else
    let global_offset_in_file := (coarse_channel_index + _coarse_channel_offset s)%Z in
    s ← match _coarse_channels s !! global_offset_in_file with
        | None => load_coarse_channel s coarse_channel_index global_offset_in_file
        | Some _ => mret s
        end;
    match _coarse_channels s !! global_offset_in_file with
    | None => Throws out_of_range
    | Some cc =>
        transformed_cc ← apply_pipeline (_coarse_channel_pipeline s) cc;
        mret (transformed_cc, s)
    end.

(** [scan::peak_coarse_channel]: [None] is the null pointer. *)
Definition peak_coarse_channel (s : t) (coarse_channel_index : Z)
  : outcome (option coarse_channel.t) :=
  if invalid_coarse_channel s coarse_channel_index then Throws out_of_range
  else
    let global_offset_in_file := (coarse_channel_index + _coarse_channel_offset s)%Z in
    match _coarse_channels s !! global_offset_in_file with
    | Some cc =>
        transformed_cc ← apply_pipeline (_coarse_channel_pipeline s) cc;
        mret (Some transformed_cc)
    | None => mret None
    end.

Definition get_coarse_channel_with_frequency (s : t) (frequency : Q) : Z :=
  let band_fraction := (frequency - fch1 s) / foff s / inject_Z (nchans s) in
  let fractional_channel := band_fraction * inject_Z (_num_coarse_channels s) in
  Qfloor fractional_channel.

Definition get_number_coarse_channels (s : t) : Z := _num_coarse_channels s.

(** The loop of [scan::hits]: a [std::logic_error] raised by the channel's
    [hits()] is caught and the channel skipped. *)
Fixpoint collect_hits (indices : list Z) (s : t) (all_hits : list hit)
  : outcome (list hit * t) :=
  match indices with
  | [] => mret (all_hits, s)
  | cc_index :: rest =>
      '(cc, s) ← read_coarse_channel s cc_index;
      match coarse_channel.hits cc with
      | Returns this_channel_hits => collect_hits rest s (all_hits ++ this_channel_hits)
      | Throws e =>
          if is_logic_error e then collect_hits rest s all_hits else Throws e
      | Undefined => Undefined
      end
  end.

Definition hits (s : t) : outcome (list hit * t) :=
  let number_coarse_channels := get_number_coarse_channels s in
  collect_hits (seqZ 0 number_coarse_channels) s [].

Definition slice_scan_channels (s : t) (start_channel count : Z) : t :=
  let count :=
    if (count =? -1)%Z then (get_number_coarse_channels s - start_channel)%Z
    else count in
  {| _coarse_channels := _coarse_channels s;
     _data_source := _data_source s;
     _coarse_channel_pipeline := _coarse_channel_pipeline s;
     _meta := {|
       scan_metadata.fch1 := fch1 s + foff s * inject_Z (_fine_channels_per_coarse s)
                                   * inject_Z start_channel;
       scan_metadata.foff := foff s;
       scan_metadata.tsamp := tsamp s;
       scan_metadata.tstart := tstart s;
       scan_metadata.nchans := (count * _fine_channels_per_coarse s)%Z;
       scan_metadata.ntsteps := ntsteps s
     |};
     _fine_channels_per_coarse := _fine_channels_per_coarse s;
     _num_coarse_channels := count;
     _coarse_channel_offset := (_coarse_channel_offset s + start_channel)%Z;
     _tduration_secs := _tduration_secs s |}.

(** [scan::add_coarse_channel_transform], without the description. *)
Definition add_coarse_channel_transform (transform : transform_stage) (s : t) : t := {|
  _coarse_channels := _coarse_channels s;
  _data_source := _data_source s;
  _coarse_channel_pipeline := _coarse_channel_pipeline s ++ [transform];
  _meta := _meta s;
  _fine_channels_per_coarse := _fine_channels_per_coarse s;
  _num_coarse_channels := _num_coarse_channels s;
  _coarse_channel_offset := _coarse_channel_offset s;
  _tduration_secs := _tduration_secs s
|}.

(** The inner loop of [scan::get_drift_range]: the least and the greatest
    rate, from [low] and [high] on. *)
Fixpoint rate_bounds (drift_rates : list frequency_drift_plane.drift_rate)
    (low high : Q) : Q * Q :=
  match drift_rates with
  | [] => (low, high)
  | drift_rate :: rest =>
      let rate := frequency_drift_plane.drift_rate_Hz_per_sec drift_rate in
      let low := if Qltb rate low then rate else low in
      let high := if Qltb high rate then rate else high in
      rate_bounds rest low high
  end.

(** Its outer loop.  A [std::logic_error] raised by the channel's
    [integrated_drift_plane()] is caught and the channel skipped; [front()]
    and [back()] of an empty list of rates are undefined. *)
Fixpoint collect_drift_range (indices : list Z) (s : t) (drift_range : Q * Q)
  : outcome (Q * Q * t) :=
  match indices with
  | [] => mret (drift_range, s)
  | cc_index :: rest =>
      '(cc, s) ← read_coarse_channel s cc_index;
      match coarse_channel.integrated_drift_plane cc with
      | Returns plane =>
          let drift_rates := frequency_drift_plane.drift_rate_info plane in
          match drift_rates, last drift_rates with
          | front :: _, Some back =>
              let '(low, high) :=
                rate_bounds drift_rates
                  (frequency_drift_plane.drift_rate_Hz_per_sec front)
                  (frequency_drift_plane.drift_rate_Hz_per_sec back) in
              let drift_range :=
                (if Qltb low drift_range.1 then low else drift_range.1,
                 if Qltb drift_range.2 high then high else drift_range.2) in
              collect_drift_range rest s drift_range
          | _, _ => Undefined
          end
      | Throws e =>
          if is_logic_error e then collect_drift_range rest s drift_range else Throws e
      | Undefined => Undefined
      end
  end.

Definition get_drift_range (s : t) : outcome (Q * Q * t) :=
  let number_coarse_channels := get_number_coarse_channels s in
  collect_drift_range (seqZ 0 number_coarse_channels) s (0, 0).

(** A scan all of whose channels are in the cache: [transformed] lists, in
    order, the channels its reads return. *)
Definition reads_as (s : t) (transformed : list coarse_channel.t) : Prop :=
  _num_coarse_channels s = Z.of_nat (length transformed)
  /\ forall (i : nat) (cc : coarse_channel.t),
       transformed !! i = Some cc ->
       exists raw,
         _coarse_channels s !! (Z.of_nat i + _coarse_channel_offset s)%Z = Some raw
         /\ apply_pipeline (_coarse_channel_pipeline s) raw = Returns cc.

End scan.

(** ** core/cadence.cpp *)

(** [extract_source_name_from_scans]; the scans enter through their
    [source_name()], so the function is given the names, in the order of the
    scans. *)
Fixpoint source_name_loop (names : list String.string) (source_name : String.string)
  : String.string :=
  match names with
  | [] => source_name
  | name :: rest =>
      let source_name :=
        if String.eqb name String.EmptyString then source_name
        else if String.eqb source_name String.EmptyString then name
        else if negb (String.eqb source_name name)
             then String.append source_name (String.append "::"%string name)
             else source_name in
      source_name_loop rest source_name
  end.

Definition extract_source_name_from_scans (names : list String.string) : String.string :=
  let source_name := source_name_loop names String.EmptyString in
  if String.eqb source_name String.EmptyString then "unknown"%string else source_name.

Module observation_target.

Local Open Scope Q_scope.

Record t : Type := {
  _scans : list scan.t
}.

(** The test inside the loop of [validate_scan_consistency]. *)
Definition mismatch (fch1 foff : Q) (nchans : Z) (sc : scan.t) : bool :=
  Qltb (Qabs (scan.fch1 sc - fch1)) (1 / inject_Z (10 ^ 6))
  || Qltb (Qabs (scan.foff sc - foff)) (1 / inject_Z (10 ^ 6))
  || negb (scan.nchans sc =? nchans)%Z.

Fixpoint consistency_loop (fch1 foff : Q) (nchans : Z) (scans : list scan.t) : bool :=
  match scans with
  | [] => true
  | sc :: rest =>
      if mismatch fch1 foff nchans sc then false
      else consistency_loop fch1 foff nchans rest
  end.

(** [observation_target::validate_scan_consistency].  With no scan the
    reference values stay unset and the loop does not run. *)
Definition validate_scan_consistency (target : t) : bool :=
  match _scans target with
  | [] => true
  | first :: _ =>
      consistency_loop (scan.fch1 first) (scan.foff first) (scan.nchans first)
        (_scans target)
  end.

Definition get_coarse_channel_with_frequency (target : t) (frequency : Q) : outcome Z :=
  if validate_scan_consistency target then
    first ← vector_subscript (_scans target) 0;
    mret (scan.get_coarse_channel_with_frequency first frequency)
  else Throws runtime_error.

Definition get_number_coarse_channels (target : t) : outcome Z :=
  if validate_scan_consistency target then
    first ← vector_subscript (_scans target) 0;
    mret (scan.get_number_coarse_channels first)
  else Throws runtime_error.

(** The reading of consistency the function documents: every scan has the
    first scan's [fch1], [foff] and [nchans]. *)
Definition consistent (target : t) : Prop :=
  forall first sc, _scans target !! 0%nat = Some first -> sc ∈ _scans target ->
    scan.fch1 sc == scan.fch1 first
    /\ scan.foff sc == scan.foff first
    /\ scan.nchans sc = scan.nchans first.

(** [observation_target::slice_observation_channels]: the target returned
    is built from the sliced scans alone. *)
Definition slice_observation_channels (target : t) (start_channel count : Z) : t := {|
  _scans := map (fun sc => scan.slice_scan_channels sc start_channel count) (_scans target)
|}.

End observation_target.

Module cadence.

Record t : Type := {
  _observations : list observation_target.t
}.

(** The first loop of [cadence::validate_scan_consistency], which is also
    the loop of the two getters: the first scan of the first target that has
    one. *)
Fixpoint first_valid_scan (observations : list observation_target.t) : option scan.t :=
  match observations with
  | [] => None
  | obs :: rest =>
      match observation_target._scans obs with
      | [] => first_valid_scan rest
      | sc :: _ => Some sc
      end
  end.

(** Its second loop, over the targets; the loop over the scans of a target
    runs the test of [observation_target::validate_scan_consistency]. *)
Fixpoint consistency_loop (fch1 foff : Q) (nchans : Z)
    (observations : list observation_target.t) : bool :=
  match observations with
  | [] => true
  | obs :: rest =>
      if observation_target.consistency_loop fch1 foff nchans
           (observation_target._scans obs)
      then consistency_loop fch1 foff nchans rest
      else false
  end.

(** [cadence::validate_scan_consistency].  When no target has a scan the
    reference values stay unset and no test is run. *)
Definition validate_scan_consistency (c : t) : bool :=
  match first_valid_scan (_observations c) with
  | None => true
  | Some reference =>
      consistency_loop (scan.fch1 reference) (scan.foff reference)
        (scan.nchans reference) (_observations c)
  end.

Definition get_coarse_channel_with_frequency (c : t) (frequency : Q) : outcome Z :=
  if validate_scan_consistency c then
    match first_valid_scan (_observations c) with
    | Some sc => mret (scan.get_coarse_channel_with_frequency sc frequency)
    | None => Throws runtime_error
    end
  else Throws runtime_error.

Definition get_number_coarse_channels (c : t) : outcome Z :=
  if validate_scan_consistency c then
    match first_valid_scan (_observations c) with
    | Some sc => mret (scan.get_number_coarse_channels sc)
    | None => Throws runtime_error
    end
  else Throws runtime_error.

Definition slice_cadence_channels (c : t) (start_channel count : Z) : t := {|
  _observations :=
    map (fun obs => observation_target.slice_observation_channels obs start_channel count)
      (_observations c)
|}.

End cadence.

(** ** drift_search/filter_hits.cpp: the overloads on channels and above *)

Module HitFilterStages.

(** [filter_hits(coarse_channel, filter_options)]. *)
Definition filter_hits_coarse_channel (cc_with_hits : coarse_channel.t)
    (options : HitFilter.filter_options) : outcome coarse_channel.t :=
  if coarse_channel.has_hits cc_with_hits then
    original_hits ← coarse_channel.hits cc_with_hits;
    let filtered_hits := HitFilter.filter_hits original_hits options in
    mret (coarse_channel.set_hits filtered_hits cc_with_hits)
  else Throws invalid_argument.

(** [filter_hits(scan, filter_options)]. *)
Definition filter_hits_scan (scan_with_hits : scan.t)
    (options : HitFilter.filter_options) : scan.t :=
  scan.add_coarse_channel_transform
    (fun cc => filter_hits_coarse_channel cc options) scan_with_hits.

(** [filter_hits(observation_target, filter_options)]. *)
Definition filter_hits_observation_target (observation_with_hits : observation_target.t)
    (options : HitFilter.filter_options) : observation_target.t := {|
  observation_target._scans :=
    map (fun sc => filter_hits_scan sc options)
      (observation_target._scans observation_with_hits)
|}.

(** [filter_hits(cadence, filter_options)]. *)
Definition filter_hits_cadence (cadence_with_hits : cadence.t)
    (options : HitFilter.filter_options) : cadence.t := {|
  cadence._observations :=
    map (fun obs_target => filter_hits_observation_target obs_target options)
      (cadence._observations cadence_with_hits)
|}.

End HitFilterStages.

(** ** file_types/hits_file.cpp: the choice of a format *)

Module HitsFile.

(** [ends_with]. *)
Definition ends_with (str suffix : String.string) : bool :=
  (String.length suffix <=? String.length str)%nat
  && String.eqb
       (String.substring (String.length str - String.length suffix)
          (String.length suffix) str)
       suffix.









End HitsFile.

(** ** drift_search/hit_search.cpp: the overloads on scans and above *)

Module HitSearchStages.

Section hit_search.

Variable protohit_search :
  frequency_drift_plane.t -> noise_stats -> HitSearch.hit_search_options -> list protohit.

Variable indeterminate : hit.

(** The transform [hit_search(scan, hit_search_options)] registers. *)
Definition attach_hits (options : HitSearch.hit_search_options)
    (cc : coarse_channel.t) : outcome coarse_channel.t :=
  hits ← HitSearch.hit_search protohit_search indeterminate cc options;
  mret (coarse_channel.set_hits hits cc).

Definition hit_search_scan (dedrifted_scan : scan.t)
    (options : HitSearch.hit_search_options) : scan.t :=
  scan.add_coarse_channel_transform (attach_hits options) dedrifted_scan.

Definition hit_search_observation_target (dedrifted_target : observation_target.t)
    (options : HitSearch.hit_search_options) : observation_target.t := {|
  observation_target._scans :=
    map (fun dedrifted_scan => hit_search_scan dedrifted_scan options)
      (observation_target._scans dedrifted_target)
|}.

Definition hit_search_cadence (dedrifted_cadence : cadence.t)
    (options : HitSearch.hit_search_options) : cadence.t := {|
  cadence._observations :=
    map (fun obs_target => hit_search_observation_target obs_target options)
      (cadence._observations dedrifted_cadence)
|}.

End hit_search.

End HitSearchStages.

(** ** core/event.hpp, drift_search/event_search.cpp *)

Module event.

Record t : Type := {
  hits : list hit;
  starting_frequency_Hz : Q;
  average_power : Q;
  average_bandwidth : Q;
  average_snr : Q;
  average_drift_rate_Hz_per_sec : Q;
  event_start_seconds : Q;
  event_end_seconds : Q
}.

End event.

Module EventSearch.
Import EventDistance.

Local Open Scope Q_scope.

(** [match_result]; the iterator is the position in the list searched, and
    [None] its [end()]. *)
Record match_result : Type := {
  distance : Q;
  hit_it : option nat
}.

(** The inner loop of [find_best_matching_hit]: the least distance from the
    hits of the event to [it]. *)
Fixpoint lowest_dist_to_event (event_hits : list hit) (it : hit)
    (lowest : Q) (distance_calc : distance_cache) : Q * distance_cache :=
  match event_hits with
  | [] => (lowest, distance_calc)
  | hit_in_event :: rest =>
      let '(d, distance_calc) := hit_distance hit_in_event it distance_calc in
      lowest_dist_to_event rest it (if Qltb d lowest then d else lowest) distance_calc
  end.

(** The outer loop, over the hits to check from position [pos] on. *)
Fixpoint best_match_loop (event_hits : list hit) (hits_to_check : list hit)
    (pos : nat) (best : match_result) (distance_calc : distance_cache)
  : match_result * distance_cache :=
  match hits_to_check with
  | [] => (best, distance_calc)
  | it :: rest =>
      let '(lowest, distance_calc) :=
        lowest_dist_to_event event_hits it FLT_MAX distance_calc in
      let best :=
        if Qltb lowest (distance best)
        then {| distance := lowest; hit_it := Some pos |}
        else best in
      best_match_loop event_hits rest (S pos) best distance_calc
  end.

Definition find_best_matching_hit (candidate_event : event.t)
    (hits_to_check : list hit) (distance_calc : distance_cache)
  : match_result * distance_cache :=
  best_match_loop (event.hits candidate_event) hits_to_check 0
    {| distance := FLT_MAX; hit_it := None |} distance_calc.

(** The innermost loop of [count_event_in_off_scans]. *)
Fixpoint dist_to_event_hits (off_hit : hit) (event_hits : list hit)
    (sum : Q) (distance_calc : distance_cache) : Q * distance_cache :=
  match event_hits with
  | [] => (sum, distance_calc)
  | event_hit :: rest =>
      let '(d, distance_calc) := hit_distance off_hit event_hit distance_calc in
      dist_to_event_hits off_hit rest (sum + d) distance_calc
  end.

(** The loop over the hits of one OFF scan. *)
Fixpoint count_in_off_hits (candidate_event : event.t) (off_hits : list hit)
    (times_in_off : Z) (distance_calc : distance_cache) : Z * distance_cache :=
  match off_hits with
  | [] => (times_in_off, distance_calc)
  | off_hit :: rest =>
      let '(sum, distance_calc) :=
        dist_to_event_hits off_hit (event.hits candidate_event) 0 distance_calc in
      let times_in_off :=
        if Qltb (sum / inject_Z (Z.of_nat (length (event.hits candidate_event)))) 50
        then (times_in_off + 1)%Z
        else times_in_off in
      count_in_off_hits candidate_event rest times_in_off distance_calc
  end.

(** The loop over the OFF scans; each scan's hits are read anew. *)
Fixpoint count_in_off_scans (candidate_event : event.t) (off_scans : list scan.t)
    (times_in_off : Z) (distance_calc : distance_cache)
  : outcome (Z * distance_cache) :=
  match off_scans with
  | [] => mret (times_in_off, distance_calc)
  | off_scan :: rest =>
      '(off_hits, _) ← scan.hits off_scan;
      let '(times_in_off, distance_calc) :=
        count_in_off_hits candidate_event off_hits times_in_off distance_calc in
      count_in_off_scans candidate_event rest times_in_off distance_calc
  end.

Definition count_event_in_off_scans (candidate_event : event.t)
    (off_scans : list scan.t) (distance_calc : distance_cache)
  : outcome (Z * distance_cache) :=
  count_in_off_scans candidate_event off_scans 0 distance_calc.

Definition with_hits (new_hits : list hit) (e : event.t) : event.t := {|
  event.hits := new_hits;
  event.starting_frequency_Hz := event.starting_frequency_Hz e;
  event.average_power := event.average_power e;
  event.average_bandwidth := event.average_bandwidth e;
  event.average_snr := event.average_snr e;
  event.average_drift_rate_Hz_per_sec := event.average_drift_rate_Hz_per_sec e;
  event.event_start_seconds := event.event_start_seconds e;
  event.event_end_seconds := event.event_end_seconds e
|}.

(** The sum of a field over the hits, as the loop of
    [finalize_event_averages] accumulates it from zero. *)
Definition sum_over (field : hit -> Q) (event_hits : list hit) : Q :=
  fold_left (fun acc hit_in_event => acc + field hit_in_event) event_hits 0.

Definition finalize_event_averages (candidate_event : event.t) : event.t :=
  let num_hits := inject_Z (Z.of_nat (length (event.hits candidate_event))) in
  {| event.hits := event.hits candidate_event;
     event.starting_frequency_Hz := event.starting_frequency_Hz candidate_event;
     event.average_power := sum_over power (event.hits candidate_event) / num_hits;
     event.average_bandwidth :=
       sum_over bandwidth (event.hits candidate_event) / num_hits;
     event.average_snr := sum_over snr (event.hits candidate_event) / num_hits;
     event.average_drift_rate_Hz_per_sec :=
       sum_over drift_rate_Hz_per_sec (event.hits candidate_event) / num_hits;
     event.event_start_seconds := event.event_start_seconds candidate_event;
     event.event_end_seconds := event.event_end_seconds candidate_event |}.

(** The loop of [extract_off_scans], from position [ii] on. *)
Fixpoint off_scans_from (observations : list observation_target.t) (ii : Z)
    (on_target_index : Z) : list scan.t :=
  match observations with
  | [] => []
  | obs :: rest =>
      (if (ii =? on_target_index)%Z then [] else observation_target._scans obs)
      ++ off_scans_from rest (ii + 1) on_target_index
  end.

Definition extract_off_scans (cadence_with_hits : cadence.t) (on_target_index : Z)
  : list scan.t :=
  off_scans_from (cadence._observations cadence_with_hits) 0 on_target_index.

(** The loop of [evaluate_candidate_event] over the later ON scans.  Its
    body also computes a rendezvous time and frequency from the scan's start
    and sampling time; nothing reads them, and they are left out. *)
Fixpoint match_later_scans (indices : list nat) (candidate_event : event.t)
    (on_scan_hits : list (list hit)) (distance_calc : distance_cache)
  : outcome (event.t * list (list hit) * distance_cache) :=
  match indices with
  | [] => mret (candidate_event, on_scan_hits, distance_calc)
  | matching_scan_index :: rest =>
      hits_to_check ← vector_subscript on_scan_hits (Z.of_nat matching_scan_index);
      let '(best, distance_calc) :=
        find_best_matching_hit candidate_event hits_to_check distance_calc in
      if Qltb (distance best) 50 then
        match hit_it best with
        | None => Undefined
        | Some pos =>
            match hits_to_check !! pos with
            | None => Undefined
            | Some matched =>
                match_later_scans rest
                  (with_hits (event.hits candidate_event ++ [matched]) candidate_event)
                  (<[matching_scan_index := delete pos hits_to_check]> on_scan_hits)
                  distance_calc
            end
        end
      else match_later_scans rest candidate_event on_scan_hits distance_calc
  end.

(** [evaluate_candidate_event]: the event if it is kept, with the available
    hits and the cache as the call leaves them. *)
Definition evaluate_candidate_event (starting_hit : hit) (starting_scan : scan.t)
    (on_scan_index : nat) (on_target_obs : observation_target.t)
    (on_scan_hits : list (list hit)) (off_scans : list scan.t)
    (distance_calc : distance_cache)
  : outcome (option event.t * list (list hit) * distance_cache) :=
  let candidate_event := {|
    event.hits := [starting_hit];
    event.starting_frequency_Hz := start_freq_MHz starting_hit * inject_Z (10 ^ 6);
    event.average_power := power starting_hit;
    event.average_bandwidth := 0;
    event.average_snr := snr starting_hit;
    event.average_drift_rate_Hz_per_sec := drift_rate_Hz_per_sec starting_hit;
    event.event_start_seconds := scan.tstart starting_scan * seconds_per_day;
    event.event_end_seconds :=
      scan.tstart starting_scan * seconds_per_day + scan.tduration_secs starting_scan
  |} in
  let number_scans := length (observation_target._scans on_target_obs) in
  '(candidate_event, on_scan_hits, distance_calc) ←
    match_later_scans (seq (S on_scan_index) (number_scans - S on_scan_index))
      candidate_event on_scan_hits distance_calc;
  '(times_event_in_off, distance_calc) ←
    count_event_in_off_scans candidate_event off_scans distance_calc;
  if (1 <? length (event.hits candidate_event))%nat && (times_event_in_off =? 0)%Z
  then mret (Some (finalize_event_averages candidate_event), on_scan_hits, distance_calc)
  else mret (None, on_scan_hits, distance_calc).

(** The loop of [event_search] over the seeds of one ON scan. *)
Fixpoint search_seeds (seeds : list hit) (starting_scan : scan.t)
    (on_scan_index : nat) (on_target_obs : observation_target.t)
    (on_scan_hits : list (list hit)) (off_scans : list scan.t)
    (distance_calc : distance_cache) (detected_events : list event.t)
  : outcome (list (list hit) * distance_cache * list event.t) :=
  match seeds with
  | [] => mret (on_scan_hits, distance_calc, detected_events)
  | starting_hit :: rest =>
      '(candidate, on_scan_hits, distance_calc) ←
        evaluate_candidate_event starting_hit starting_scan on_scan_index
          on_target_obs on_scan_hits off_scans distance_calc;
      let detected_events :=
        match candidate with
        | Some found => detected_events ++ [found]
        | None => detected_events
        end in
      search_seeds rest starting_scan on_scan_index on_target_obs on_scan_hits
        off_scans distance_calc detected_events
  end.

(** The loop of [event_search] over the ON scans.  The seeds of a scan are
    its available hits when the loop reaches it: the calls made for that scan
    erase hits of later scans only. *)
Fixpoint search_scans (indices : list nat) (on_target_obs : observation_target.t)
    (on_scan_hits : list (list hit)) (off_scans : list scan.t)
    (distance_calc : distance_cache) (detected_events : list event.t)
  : outcome (list (list hit) * distance_cache * list event.t) :=
  match indices with
  | [] => mret (on_scan_hits, distance_calc, detected_events)
  | on_scan_index :: rest =>
      starting_scan ←
        vector_subscript (observation_target._scans on_target_obs) (Z.of_nat on_scan_index);
      seeds ← vector_subscript on_scan_hits (Z.of_nat on_scan_index);
      '(on_scan_hits, distance_calc, detected_events) ←
        search_seeds seeds starting_scan on_scan_index on_target_obs on_scan_hits
          off_scans distance_calc detected_events;
      search_scans rest on_target_obs on_scan_hits off_scans distance_calc
        detected_events
  end.

(** The loop that preloads the hits of the ON scans. *)
Fixpoint preload_hits (scans : list scan.t) : outcome (list (list hit)) :=
  match scans with
  | [] => mret []
  | s :: rest =>
      '(scan_hits, _) ← scan.hits s;
      later ← preload_hits rest;
      mret (scan_hits :: later)
  end.

Definition event_search (cadence_with_hits : cadence.t) : outcome (list event.t) :=
  let on_target_index := 0%Z in
  on_target_obs ←
    vector_subscript (cadence._observations cadence_with_hits) on_target_index;
  on_scan_hits ← preload_hits (observation_target._scans on_target_obs);
  let off_scans := extract_off_scans cadence_with_hits on_target_index in
  '(_, _, detected_events) ←
    search_scans (seq 0 (length (observation_target._scans on_target_obs)))
      on_target_obs on_scan_hits off_scans [] [];
  mret detected_events.

(** The hits of a list of events, taken together. *)
Abbreviation hits_of events := (concat (map event.hits events)).

(** The average, over the hits of an event, of the distance from an OFF hit:
    the quantity [count_event_in_off_scans] means to compare with 50. *)
Definition average_distance (off_hit : hit) (event_hits : list hit) : Q :=
  fold_left (fun acc event_hit => acc + distance_func off_hit event_hit) event_hits 0
  / inject_Z (Z.of_nat (length event_hits)).

(** An event at an average distance of at least 50 from every hit of every
    OFF scan. *)
Definition not_seen_in (off_scans : list scan.t) (e : event.t) : Prop :=
  forall off_scan off_hits s',
    off_scan ∈ off_scans -> scan.hits off_scan = Returns (off_hits, s') ->
    Forall (fun off_hit => 50 <= average_distance off_hit (event.hits e)) off_hits.

(** A cadence all of whose hits last [D] seconds. *)
Definition hits_lasting (D : Q) (cadence_with_hits : cadence.t) : Prop :=
  forall target sc scan_hits s',
    target ∈ cadence._observations cadence_with_hits ->
    sc ∈ observation_target._scans target ->
    scan.hits sc = Returns (scan_hits, s') ->
    Forall (lasting D) scan_hits.

End EventSearch.

(** ** Concrete inputs *)

Module Scenarios.

Local Open Scope Q_scope.

(** A hit of channel [index] at [freq] MHz, starting at [start] s, lasting
    [duration] s and drifting at [drift] Hz/s. *)
Definition a_hit (index : Z) (freq start duration drift : Q) : hit := {|
  start_freq_index := index;
  start_freq_MHz := freq;
  start_time_sec := start;
  duration_sec := duration;
  rate_index := 0;
  drift_rate_Hz_per_sec := drift;
  power := 100;
  time_span_steps := 16;
  integrated_channels := 16;
  snr := 20;
  bandwidth := 1;
  binwidth := 1;
  rfi_counts := ∅;
  coarse_channel_number := 0
|}.

(** Two hits at the same frequency and start, of drifts 3 and 1 Hz/s. *)
Definition drift3 : hit := a_hit 0 1000 0 16 3.
Definition drift1 : hit := a_hit 0 1000 0 16 1.

(** A hit lasting 10 s from t = 100 s and one lasting 2 s from t = 0. *)
Definition long_late : hit := a_hit 0 1000 100 10 1.
Definition short_early : hit := a_hit 0 1000 0 2 1.

(** Two hits with the same start and frequency, of different durations and
    drifts. *)
Definition ten_seconds : hit := a_hit 0 1000 0 10 1.
Definition twenty_seconds : hit := a_hit 0 1000 0 20 2.

(** A grid of unit drift 1 Hz/s: two time steps of 1 s, channels of 1 Hz. *)
Definition one_hertz : Q := 1 / inject_Z (10 ^ 6).

(** A coarse channel of 64 channels of 100 Hz from 1000 MHz, 16 spectra of
    1 s, starting at [tstart] (MJD), with the hits given. *)
Definition metadata (tstart : Q) : scan_metadata.t := {|
  scan_metadata.fch1 := 1000;
  scan_metadata.foff := 100 / inject_Z (10 ^ 6);
  scan_metadata.tsamp := 1;
  scan_metadata.tstart := tstart;
  scan_metadata.nchans := 64;
  scan_metadata.ntsteps := 16
|}.

Definition channel_with_hits (number : Z) (tstart : Q) (hits : list hit)
  : coarse_channel.t := {|
  coarse_channel._meta := metadata tstart;
  coarse_channel._coarse_channel_number := number;
  coarse_channel._noise_stats := None;
  coarse_channel._integrated_drift_plane := None;
  coarse_channel._hits := Some (Ready hits)
|}.

(** A scan of one coarse channel, already read, with the hits given. *)
Definition scan_with_hits (tstart duration : Q) (hits : list hit) : scan.t := {|
  scan._coarse_channels := {[ 0%Z := channel_with_hits 0 tstart hits ]};
  scan._data_source := None;
  scan._coarse_channel_pipeline := [];
  scan._meta := metadata tstart;
  scan._fine_channels_per_coarse := 64;
  scan._num_coarse_channels := 1;
  scan._coarse_channel_offset := 0;
  scan._tduration_secs := duration
|}.

(** A target of two scans with the same [fch1], [foff] and [nchans]. *)
Definition identical_scans : observation_target.t := {|
  observation_target._scans := [scan_with_hits 0 16 []; scan_with_hits 1 16 []]
|}.

(** A scan of two coarse channels, both read, and its slice to the first. *)
Definition two_channels : scan.t := {|
  scan._coarse_channels :=
    {[ 0%Z := channel_with_hits 0 0 []; 1%Z := channel_with_hits 1 0 [] ]};
  scan._data_source := None;
  scan._coarse_channel_pipeline := [];
  scan._meta := {|
    scan_metadata.fch1 := 1000;
    scan_metadata.foff := 100 / inject_Z (10 ^ 6);
    scan_metadata.tsamp := 1;
    scan_metadata.tstart := 0;
    scan_metadata.nchans := 128;
    scan_metadata.ntsteps := 16
  |};
  scan._fine_channels_per_coarse := 64;
  scan._num_coarse_channels := 2;
  scan._coarse_channel_offset := 0;
  scan._tduration_secs := 16
|}.

Definition first_channel_only : scan.t := scan.slice_scan_channels two_channels 0 1.

(** A source of 16 spectra of 128 channels on one feed, whose reads succeed,
    and the scan of two coarse channels over it with nothing read yet. *)
Definition a_data_source : data_source := {|
  get_data_shape := [16; 1; 128]%Z;
  read_data := fun _ _ => Returns tt;
  read_mask := fun _ _ => Returns tt
|}.

Definition unread_scan : scan.t := {|
  scan._coarse_channels := ∅;
  scan._data_source := Some a_data_source;
  scan._coarse_channel_pipeline := [];
  scan._meta := scan._meta two_channels;
  scan._fine_channels_per_coarse := 64;
  scan._num_coarse_channels := 2;
  scan._coarse_channel_offset := 0;
  scan._tduration_secs := 16
|}.

(** A channel that was not searched for hits, and a scan of it and of a
    channel with one hit. *)
Definition channel_without_hits (number : Z) : coarse_channel.t := {|
  coarse_channel._meta := metadata 0;
  coarse_channel._coarse_channel_number := number;
  coarse_channel._noise_stats := None;
  coarse_channel._integrated_drift_plane := None;
  coarse_channel._hits := None
|}.

Definition half_searched : scan.t := {|
  scan._coarse_channels :=
    {[ 0%Z := channel_with_hits 0 0 [drift1]; 1%Z := channel_without_hits 1 ]};
  scan._data_source := None;
  scan._coarse_channel_pipeline := [];
  scan._meta := scan._meta two_channels;
  scan._fine_channels_per_coarse := 64;
  scan._num_coarse_channels := 2;
  scan._coarse_channel_offset := 0;
  scan._tduration_secs := 16
|}.

(** A dedrifted channel with one protohit: peak at channel 12 of the rate
    of index 1, centroid at channel 13, two bins wide. *)
Definition a_plane : frequency_drift_plane.t := {|
  frequency_drift_plane.integrated_drifts := [];
  frequency_drift_plane.low_sk_counts := [];
  frequency_drift_plane.high_sk_counts := [];
  frequency_drift_plane.sigma_clip_counts := [];
  frequency_drift_plane.integration_steps := 16;
  frequency_drift_plane.drift_rate_info := [
    {| frequency_drift_plane.index_in_plane := 0;
       frequency_drift_plane.drift_rate_slope := 0;
       frequency_drift_plane.drift_rate_Hz_per_sec := 0;
       frequency_drift_plane.drift_channels_span := 0;
       frequency_drift_plane.desmeared_bins := 1 |};
    {| frequency_drift_plane.index_in_plane := 1;
       frequency_drift_plane.drift_rate_slope := 2;
       frequency_drift_plane.drift_rate_Hz_per_sec := 200;
       frequency_drift_plane.drift_channels_span := 30;
       frequency_drift_plane.desmeared_bins := 2 |} ]
|}.

Definition a_protohit : protohit := {|
  index_max := {| drift_index := 1; frequency_channel := 12 |};
  index_center := {| drift_index := 1; frequency_channel := 13 |};
  protohit_snr := 30;
  max_integration := 170;
  desmeared_noise := 5;
  protohit_binwidth := 2;
  locations := [];
  protohit_rfi_counts := {[ sigma_clip := 3%Z ]}
|}.

Definition a_dedrifted_channel : coarse_channel.t := {|
  coarse_channel._meta := metadata 0;
  coarse_channel._coarse_channel_number := 7;
  coarse_channel._noise_stats := Some {| noise_floor := 20; noise_power := 25 |};
  coarse_channel._integrated_drift_plane := Some (Ready a_plane);
  coarse_channel._hits := None
|}.

(** A scan of that channel alone, already read. *)
Definition dedrifted_scan : scan.t := {|
  scan._coarse_channels := {[ 0%Z := a_dedrifted_channel ]};
  scan._data_source := None;
  scan._coarse_channel_pipeline := [];
  scan._meta := metadata 0;
  scan._fine_channels_per_coarse := 64;
  scan._num_coarse_channels := 1;
  scan._coarse_channel_offset := 0;
  scan._tduration_secs := 16
|}.

Definition some_options : HitSearch.hit_search_options := {|
  HitSearch.method := HitSearch.CONNECTED_COMPONENTS;
  HitSearch.snr_threshold := 10;
  HitSearch.neighbor_l1_dist := 7
|}.

(** A cadence of one ON target and one OFF target.  The ON target has two
    scans: a seed in the first, and in the second a hit 40 away from the
    seed and a fast-drifting hit; the OFF scan has the fast-drifting hit. *)
Definition seed : hit := a_hit 0 1000 0 10 1.
Definition follower : hit := a_hit 41 (1000 + 4100 / inject_Z (10 ^ 6)) 100 110 1.
Definition fast : hit := a_hit 46 (1000 + 4600 / inject_Z (10 ^ 6)) 100 110 101.

Definition a_cadence : cadence.t := {|
  cadence._observations := [
    {| observation_target._scans :=
         [scan_with_hits 0 10 [seed];
          scan_with_hits (100 / seconds_per_day) 110 [follower; fast]] |};
    {| observation_target._scans :=
         [scan_with_hits (100 / seconds_per_day) 110 [fast]] |} ]
|}.

(** Three ON scans 100 s apart with one hit each, on one track drifting at
    1 Hz/s; and the same with an OFF scan holding a hit on that track. *)
Definition track (k : Z) : hit :=
  a_hit k (1000 + inject_Z (100 * k) / inject_Z (10 ^ 6)) (inject_Z (100 * k)) 16 1.

Definition on_only : cadence.t := {|
  cadence._observations := [
    {| observation_target._scans :=
         [scan_with_hits 0 16 [track 0];
          scan_with_hits (100 / seconds_per_day) 16 [track 1];
          scan_with_hits (200 / seconds_per_day) 16 [track 2]] |} ]
|}.

Definition on_and_off : cadence.t := {|
  cadence._observations := [
    {| observation_target._scans :=
         [scan_with_hits 0 16 [track 0];
          scan_with_hits (100 / seconds_per_day) 16 [track 1];
          scan_with_hits (200 / seconds_per_day) 16 [track 2]] |};
    {| observation_target._scans :=
         [scan_with_hits (300 / seconds_per_day) 16 [track 3]] |} ]
|}.

(** The three ON scans again, with an OFF scan holding a hit 1 MHz away. *)
Definition far_away : hit := a_hit 10000 1001 (inject_Z 300) 16 1.

Definition on_and_far_off : cadence.t := {|
  cadence._observations := [
    {| observation_target._scans :=
         [scan_with_hits 0 16 [track 0];
          scan_with_hits (100 / seconds_per_day) 16 [track 1];
          scan_with_hits (200 / seconds_per_day) 16 [track 2]] |};
    {| observation_target._scans :=
         [scan_with_hits (300 / seconds_per_day) 16 [far_away]] |} ]
|}.

(** A hit without drift and a hit whose map stores no count. *)
Definition still : hit := a_hit 2000 1000 0 16 0.

Definition keep_all_counts : HitFilter.filter_options := {|
  HitFilter.filter_zero_drift := false;
  HitFilter.filter_sigmaclip := true;
  HitFilter.minimum_percent_sigmaclip := 0;
  HitFilter.filter_high_sk := false;
  HitFilter.minimum_percent_high_sk := 1 # 10;
  HitFilter.filter_low_sk := false;
  HitFilter.maximum_percent_low_sk := 1 # 10
|}.

Definition only_zero_drift : HitFilter.filter_options := {|
  HitFilter.filter_zero_drift := true;
  HitFilter.filter_sigmaclip := false;
  HitFilter.minimum_percent_sigmaclip := 1 # 10;
  HitFilter.filter_high_sk := false;
  HitFilter.minimum_percent_high_sk := 1 # 10;
  HitFilter.filter_low_sk := false;
  HitFilter.maximum_percent_low_sk := 1 # 10
|}.

End Scenarios.

(** * Properties *)

(** ** Outcomes *)

Lemma bind_returns {A B : Type} (m : outcome A) (k : A -> outcome B) (b : B) :
  (m ≫= k) = Returns b -> exists a, m = Returns a /\ k a = Returns b.
Proof. destruct m; simpl; try discriminate. eauto. Qed.

Lemma vector_subscript_nat {A : Type} (v : list A) (i : nat) (a : A) :
  vector_subscript v (Z.of_nat i) = Returns a -> v !! i = Some a.
Proof.
  unfold vector_subscript. destruct (Z.of_nat i <? 0)%Z; [discriminate|].
  rewrite Nat2Z.id. destruct (v !! i); [|discriminate]. intros [= ->]. reflexivity.
Qed.

(** ** Numbers *)

Lemma Qltb_lt (x y : Q) : Qltb x y = true <-> (x < y)%Q.
Proof.
  unfold Qltb. rewrite negb_true_iff, <- not_true_iff_false, Qle_bool_iff.
  split; [apply Qnot_le_lt | apply Qlt_not_le].
Qed.

Lemma Qltb_ge (x y : Q) : Qltb x y = false <-> (y <= x)%Q.
Proof.
  unfold Qltb. rewrite negb_false_iff. apply Qle_bool_iff.
Qed.

Lemma Qsquare (x : Q) : (x ^ 2 == x * x)%Q.
Proof. reflexivity. Qed.

(** ** Filtering hits *)

Module HitFilterProps.
Import HitFilter.
Local Open Scope Q_scope.

Lemma with_rfi_counts_same (h : hit) : with_rfi_counts (rfi_counts h) h = h.
Proof. destruct h; reflexivity. Qed.

Lemma rfi_count_subscript (m : rfi) (k k' : flag_values) :
  rfi_count (rfi_subscript m k).2 k' = rfi_count m k'.
Proof.
  unfold rfi_count, rfi_subscript.
  destruct (m !! k) eqn:Hk; simpl; [reflexivity|].
  destruct (decide (k = k')) as [<- | Hne].
  - rewrite lookup_insert_eq, Hk. reflexivity.
  - rewrite lookup_insert_ne by done. destruct (m !! k'); reflexivity.
Qed.

Lemma rfi_subscript_present (m : rfi) (k : flag_values) :
  is_Some (m !! k) -> rfi_subscript m k = (rfi_count m k, m).
Proof.
  intros [v Hv]. unfold rfi_count, rfi_subscript. rewrite Hv. reflexivity.
Qed.

Lemma rfi_subscript_keeps (m : rfi) (k k' : flag_values) :
  is_Some (m !! k') -> is_Some ((rfi_subscript m k).2 !! k').
Proof.
  intros Hk'. unfold rfi_subscript. destruct (m !! k) eqn:Hk; simpl; [done|].
  destruct (decide (k = k')) as [<- | Hne].
  - rewrite lookup_insert_eq. eauto.
  - rewrite lookup_insert_ne; done.
Qed.

Lemma rfi_subscript_inserts (m : rfi) (k : flag_values) :
  is_Some ((rfi_subscript m k).2 !! k).
Proof.
  unfold rfi_subscript. destruct (m !! k) eqn:Hk; simpl.
  - rewrite Hk. eauto.
  - rewrite lookup_insert_eq. eauto.
Qed.

Lemma same_hit_refl (h : hit) : same_hit h h.
Proof. unfold same_hit. repeat split; reflexivity. Qed.

Lemma same_hit_trans (h1 h2 h3 : hit) :
  same_hit h1 h2 -> same_hit h2 h3 -> same_hit h1 h3.
Proof.
  unfold same_hit. intros H12 H23.
  destruct H12 as (?&?&?&?&?&?&?&?&?&?&?&?&?&Hc12).
  destruct H23 as (?&?&?&?&?&?&?&?&?&?&?&?&?&Hc23).
  repeat split; congruence.
Qed.

(** What one guarded test returns, and what it leaves of the hit. *)
Lemma flag_test_spec (enabled : bool) (k : flag_values) (test : Q -> bool) (h : hit) :
  (flag_test enabled k test h).1
    = enabled && test (inject_Z (rfi_count (rfi_counts h) k))
  /\ same_hit h (flag_test enabled k test h).2
  /\ (enabled = true -> is_Some (rfi_counts (flag_test enabled k test h).2 !! k))
  /\ (forall k', is_Some (rfi_counts h !! k') ->
                 is_Some (rfi_counts (flag_test enabled k test h).2 !! k')).
Proof.
  unfold flag_test. destruct enabled; simpl.
  - pose proof (rfi_count_subscript (rfi_counts h) k) as Hcount.
    pose proof (rfi_subscript_inserts (rfi_counts h) k) as Hins.
    pose proof (rfi_subscript_keeps (rfi_counts h) k) as Hkeep.
    assert (Hread : rfi_count (rfi_counts h) k = (rfi_subscript (rfi_counts h) k).1)
      by reflexivity.
    destruct (rfi_subscript (rfi_counts h) k) as [count counts] eqn:Hsub.
    simpl in *. rewrite Hread. unfold same_hit. simpl. repeat split; auto.
  - unfold same_hit. repeat split; auto. discriminate.
Qed.

(** A guarded test whose key is already stored leaves the hit as it is. *)
Lemma flag_test_present (enabled : bool) (k : flag_values) (test : Q -> bool) (h : hit) :
  (enabled = true -> is_Some (rfi_counts h !! k)) ->
  flag_test enabled k test h
    = (enabled && test (inject_Z (rfi_count (rfi_counts h) k)), h).
Proof.
  intros Hk. unfold flag_test. destruct enabled; simpl; [|reflexivity].
  rewrite rfi_subscript_present by auto.
  rewrite with_rfi_counts_same. reflexivity.
Qed.

Lemma same_hit_count (h h' : hit) (k : flag_values) :
  same_hit h h' -> rfi_count (rfi_counts h') k = rfi_count (rfi_counts h) k.
Proof.
  unfold same_hit. intros (?&?&?&?&?&?&?&?&?&?&?&?&?&Hc). symmetry. apply Hc.
Qed.

Lemma guarded_true (enabled : bool) (x y : Q) :
  enabled && Qltb x y = true <-> enabled = true /\ x < y.
Proof. rewrite andb_true_iff, Qltb_lt. reflexivity. Qed.

(** The lambda rejects exactly the hits the rules reject; the hit it leaves
    agrees with the one it was given, and when it keeps the hit every key an
    enabled test reads is stored. *)
Lemma rejects_spec (options : filter_options) (h : hit) :
  ((rejects options h).1 = true <-> rejected options h)
  /\ same_hit h (rejects options h).2
  /\ ((rejects options h).1 = false -> covered options (rejects options h).2).
Proof.
  unfold rejects, rejected, N, eps.
  destruct (filter_zero_drift options
            && Qltb (Qabs (drift_rate_Hz_per_sec h)) (1 / inject_Z (10 ^ 6))) eqn:Hzero.
  { simpl. split; [|split].
    - split; [|reflexivity]. intros _. left. apply guarded_true, Hzero.
    - apply same_hit_refl.
    - discriminate. }
  pose proof (flag_test_spec (filter_sigmaclip options) sigma_clip
    (fun count => Qltb count
       (inject_Z (Z.abs (integrated_channels h)) * minimum_percent_sigmaclip options)) h)
    as (E1 & S1 & P1 & K1).
  destruct (flag_test (filter_sigmaclip options) sigma_clip _ h) as [r1 h1].
  simpl in E1, S1, P1, K1.
  destruct r1.
  { simpl. split; [|split]; [|exact S1|discriminate].
    split; [|reflexivity]. intros _. right. left.
    apply guarded_true. symmetry. exact E1. }
  pose proof (flag_test_spec (filter_high_sk options) high_spectral_kurtosis
    (fun count => Qltb count
       (inject_Z (Z.abs (integrated_channels h)) * minimum_percent_high_sk options)) h1)
    as (E2 & S2 & P2 & K2).
  destruct (flag_test (filter_high_sk options) high_spectral_kurtosis _ h1) as [r2 h2].
  simpl in E2, S2, P2, K2.
  rewrite (same_hit_count h h1 _ S1) in E2.
  destruct r2.
  { simpl. split; [|split]; [|exact (same_hit_trans _ _ _ S1 S2)|discriminate].
    split; [|reflexivity]. intros _. right. right. left.
    apply guarded_true. symmetry. exact E2. }
  pose proof (flag_test_spec (filter_low_sk options) low_spectral_kurtosis
    (fun count => Qltb
       (inject_Z (Z.abs (integrated_channels h)) * maximum_percent_low_sk options) count) h2)
    as (E3 & S3 & P3 & K3).
  destruct (flag_test (filter_low_sk options) low_spectral_kurtosis _ h2) as [r3 h3].
  simpl in E3, S3, P3, K3.
  rewrite (same_hit_count h h2 _ (same_hit_trans _ _ _ S1 S2)) in E3.
  assert (S : same_hit h h3)
    by exact (same_hit_trans _ _ _ (same_hit_trans _ _ _ S1 S2) S3).
  destruct r3.
  { simpl. split; [|split]; [|exact S|discriminate].
    split; [|reflexivity]. intros _. right. right. right.
    apply guarded_true. symmetry. exact E3. }
  simpl. split; [|split]; [|exact S|].
  - split; [discriminate|].
    intros [Hr | [Hr | [Hr | Hr]]]; apply guarded_true in Hr; congruence.
  - intros _. unfold covered. repeat split; auto.
Qed.

(** A hit that stores every key the enabled tests read comes back unchanged. *)
Lemma rejects_covered (options : filter_options) (h : hit) :
  covered options h -> (rejects options h).2 = h.
Proof.
  intros (C1 & C2 & C3). unfold rejects.
  destruct (filter_zero_drift options && _); [reflexivity|].
  rewrite (flag_test_present _ _ _ _ C1).
  destruct (filter_sigmaclip options && _); [reflexivity|].
  rewrite (flag_test_present _ _ _ _ C2).
  destruct (filter_high_sk options && _); [reflexivity|].
  rewrite (flag_test_present _ _ _ _ C3).
  destruct (filter_low_sk options && _); reflexivity.
Qed.

Lemma rejected_same_hit (options : filter_options) (h h' : hit) :
  same_hit h h' -> rejected options h -> rejected options h'.
Proof.
  intros S. pose proof (same_hit_count h h' sigma_clip S) as Hs.
  pose proof (same_hit_count h h' high_spectral_kurtosis S) as Hh.
  pose proof (same_hit_count h h' low_spectral_kurtosis S) as Hl.
  destruct S as (?&?&?&?&?&Hd&?&?&Hi&?&?&?&?&_).
  unfold rejected, N. rewrite Hs, Hh, Hl, <- Hd, <- Hi. tauto.
Qed.

(** Every hit [filter_hits] returns is one it would return unchanged. *)
Lemma filter_hits_settled (options : filter_options) (hits : list hit) :
  Forall (fun h => rejects options h = (false, h)) (filter_hits hits options).
Proof.
  unfold filter_hits. induction hits as [|h rest IH]; simpl; [constructor|].
  pose proof (rejects_spec options h) as (Hrej & Hsame & Hcov).
  destruct (rejects options h) as [r h'] eqn:Hr. simpl in *.
  destruct r; [exact IH|].
  constructor; [|exact IH].
  specialize (Hcov eq_refl).
  pose proof (rejects_spec options h') as (Hrej' & _ & _).
  pose proof (rejects_covered options h' Hcov) as Hfix.
  destruct (rejects options h') as [r' h''] eqn:Hr'. simpl in *. subst h''.
  destruct r'; [|reflexivity].
  exfalso. assert (Hno : ~ rejected options h) by (intros Hyes; apply Hrej in Hyes; discriminate).
  apply Hno. apply (rejected_same_hit options h' h).
  - clear -Hsame. unfold same_hit in *.
    destruct Hsame as (?&?&?&?&?&?&?&?&?&?&?&?&?&Hc). repeat split; auto.
  - apply Hrej'. reflexivity.
Qed.

Lemma remove_if_settled (options : filter_options) (hits : list hit) :
  Forall (fun h => rejects options h = (false, h)) hits ->
  remove_if (rejects options) hits = hits.
Proof.
  induction 1 as [|h rest Hh _ IH]; simpl; [reflexivity|].
  rewrite Hh, IH. reflexivity.
Qed.

(** A hit without drift is removed by the zero-drift rule and kept without
    it; a drifting hit is kept. *)
Example filter_zero_drift_hit :
  filter_hits [Scenarios.still; Scenarios.drift1] Scenarios.only_zero_drift
  = [Scenarios.drift1].
Proof. vm_compute. reflexivity. Qed.

(** A kept hit whose map stored no sigma-clip count comes back storing a
    zero count: it differs from the hit given in that entry only. *)
Example filter_stores_zero_count :
  filter_hits [Scenarios.drift1] Scenarios.keep_all_counts
  = [with_rfi_counts {[ sigma_clip := 0%Z ]} Scenarios.drift1].
Proof. vm_compute. reflexivity. Qed.

(** C6.  [filter_hits] returns, in their order, exactly the hits none of the
    rejection rules rejects: with [N = |integrated_channels|], a hit is
    rejected iff zero-drift filtering is on and [|drift_rate| < 1e-6], or
    sigma-clip filtering is on and its sigma-clip count is below
    [N * minimum_percent_sigmaclip], or high-SK filtering is on and its
    high-SK count is below [N * minimum_percent_high_sk], or low-SK
    filtering is on and its low-SK count is above [N * maximum_percent_low_sk].
    Each hit returned carries the fields and the counts of the hit kept. *)
Theorem filter_hits_exact (hits : list hit) (options : filter_options) :
  Forall2 same_hit
    (filter (fun h => ~ rejected options h) hits)
    (filter_hits hits options).
Proof.
  unfold filter_hits. induction hits as [|h rest IH]; simpl; [constructor|].
  pose proof (rejects_spec options h) as (Hrej & Hsame & _).
  destruct (rejects options h) as [r h'] eqn:Hr. simpl in *.
  destruct r.
  - rewrite filter_cons_False; [exact IH|].
    intros Hno. apply Hno. apply Hrej. reflexivity.
  - rewrite filter_cons_True; [constructor; assumption|].
    intros Hyes. apply Hrej in Hyes. discriminate.
Qed.

(** When every hit stores the counts the enabled tests read, the list
    returned is that sublist itself. *)
Lemma filter_hits_covered (hits : list hit) (options : filter_options) :
  Forall (covered options) hits ->
  filter_hits hits options = filter (fun h => ~ rejected options h) hits.
Proof.
  unfold filter_hits. induction 1 as [|h rest Hh _ IH]; simpl; [reflexivity|].
  pose proof (rejects_spec options h) as (Hrej & _ & _).
  pose proof (rejects_covered options h Hh) as Hfix.
  destruct (rejects options h) as [r h'] eqn:Hr. simpl in *. subst h'.
  destruct r.
  - rewrite filter_cons_False; [exact IH|].
    intros Hno. apply Hno. apply Hrej. reflexivity.
  - rewrite filter_cons_True; [rewrite IH; reflexivity|].
    intros Hyes. apply Hrej in Hyes. discriminate.
Qed.

(** C7.  Filtering is idempotent: filtering a filtered list again with the
    same options returns it unchanged. *)
Theorem filter_hits_idempotent (hits : list hit) (options : filter_options) :
  filter_hits (filter_hits hits options) options = filter_hits hits options.
Proof.
  unfold filter_hits at 1. apply remove_if_settled. apply filter_hits_settled.
Qed.

End HitFilterProps.

(** ** The distance between two hits *)

Module EventDistanceProps.
Import EventDistance Scenarios.
Local Open Scope Q_scope.

(** C1, as the program computes it.  The distance of two hits is 0.01 times
    the absolute difference of the two frequencies projected to the
    rendezvous time, plus 10 times the square of
    [|drift_a - drift_b| / (eps + drift_a^2 + drift_b^2)] with [eps = 1e-8],
    plus 0 times the absolute difference of the SNRs: the numerator of the
    drift term is the absolute difference of the drift rates, not its
    square. *)
Theorem distance_func_formula (a b : hit) :
  distance_func a b
  == (1 # 100) * Qabs (a_rendezvous_frequency a b - b_rendezvous_frequency a b)
     + 10 * (Qabs (drift_rate_Hz_per_sec a - drift_rate_Hz_per_sec b)
             / (1 / inject_Z (10 ^ 8)
                + drift_rate_Hz_per_sec a ^ 2 + drift_rate_Hz_per_sec b ^ 2)) ^ 2
     + 0 * Qabs (snr a - snr b).
Proof.
  unfold distance_func, rendezvous_frequency_difference, drift_error,
    drift_difference, snr_difference, freq_localization_weight,
    drift_error_weight, snr_difference_weight, eps.
  rewrite !Qsquare. reflexivity.
Qed.

(** C1 as stated fails: for drifts of 3 and 1 Hz/s the program's drift term
    has numerator 2, the stated one 4. *)
Lemma distance_func_not_specified :
  ~ distance_func drift3 drift1 == specified_distance drift3 drift1.
Proof. vm_compute. discriminate. Qed.

(** The second half of C2 holds: a hit's predicted frequency at the
    rendezvous time is its start frequency, in Hz, plus its drift rate times
    the time from its start to the rendezvous time. *)
Lemma rendezvous_frequencies (a b : hit) :
  a_rendezvous_frequency a b
  == start_freq_MHz a * inject_Z (10 ^ 6)
     + drift_rate_Hz_per_sec a * (rendezvous_time a b - start_time_sec a)
  /\ b_rendezvous_frequency a b
     == start_freq_MHz b * inject_Z (10 ^ 6)
        + drift_rate_Hz_per_sec b * (rendezvous_time a b - start_time_sec b).
Proof. split; reflexivity. Qed.

(** The rendezvous time is the specified one when the first hit lasts as
    long as the second. *)
Lemma rendezvous_time_same_duration (a b : hit) :
  duration_sec a == duration_sec b ->
  rendezvous_time a b == specified_rendezvous_time a b.
Proof.
  intros Hd. unfold rendezvous_time, specified_rendezvous_time,
    last_sample_time, first_sample_time.
  destruct (Q.max_spec (start_time_sec a + duration_sec b)
                       (start_time_sec b + duration_sec b)) as [[H1 E1] | [H1 E1]];
  destruct (Q.max_spec (start_time_sec a + duration_sec a)
                       (start_time_sec b + duration_sec b)) as [[H2 E2] | [H2 E2]];
  rewrite E1, E2; unfold Qdiv; change (/ 2) with (1 # 2); lra.
Qed.

(** C2 at a failing input.  For a hit lasting 10 s from t = 100 s and a hit
    lasting 2 s from t = 0, the program ends the first hit at 100 + 2: its
    rendezvous time is 51 s, the specified one 55 s. *)
Theorem rendezvous_time_uses_second_duration :
  rendezvous_time long_late short_early == 51
  /\ specified_rendezvous_time long_late short_early == 55.
Proof. split; vm_compute; reflexivity. Qed.

Lemma hit_eqb_refl (h : hit) : hit_eqb h h = true.
Proof.
  unfold hit_eqb. rewrite !Z.eqb_refl, !Qeq_bool_refl, bool_decide_eq_true_2; reflexivity.
Qed.

Lemma hit_eqb_sym (a b : hit) : hit_eqb a b = hit_eqb b a.
Proof.
  unfold hit_eqb.
  rewrite (Z.eqb_sym (start_freq_index a)), (Z.eqb_sym (rate_index a)),
    (Z.eqb_sym (time_span_steps a)), (Z.eqb_sym (binwidth a)),
    (Qeq_bool_comm (start_freq_MHz a)), (Qeq_bool_comm (start_time_sec a)),
    (Qeq_bool_comm (duration_sec a)), (Qeq_bool_comm (drift_rate_Hz_per_sec a)),
    (Qeq_bool_comm (power a)), (Qeq_bool_comm (snr a)), (Qeq_bool_comm (bandwidth a)).
  do 2 f_equal. apply bool_decide_ext. split; congruence.
Qed.

Lemma hit_eqb_same_track (a a' : hit) : hit_eqb a a' = true -> same_track a a'.
Proof.
  unfold hit_eqb, same_track. rewrite !andb_true_iff, !Qeq_bool_iff. tauto.
Qed.

Lemma same_track_sym (a a' : hit) : same_track a a' -> same_track a' a.
Proof. unfold same_track. intros (?&?&?&?&?). repeat split; symmetry; assumption. Qed.

(** *** The order of hits is total up to [operator==] *)

Lemma lex_eq (c r : comparison) : lex c r = Eq <-> c = Eq /\ r = Eq.
Proof. destruct c; simpl; split; intuition congruence. Qed.

Lemma lex_opp (c r : comparison) : CompOpp (lex c r) = lex (CompOpp c) (CompOpp r).
Proof. destruct c; reflexivity. Qed.

Lemma items_compare_opp (l1 l2 : list (Z * Z)) :
  items_compare l2 l1 = CompOpp (items_compare l1 l2).
Proof.
  revert l2. induction l1 as [|p l1 IH]; intros [|q l2]; simpl; try reflexivity.
  rewrite lex_opp, <- IH. unfold pair_compare. rewrite lex_opp.
  rewrite <- !Z.compare_antisym. reflexivity.
Qed.

Lemma items_compare_eq (l1 l2 : list (Z * Z)) :
  items_compare l1 l2 = Eq -> l1 = l2.
Proof.
  revert l2. induction l1 as [|[k v] l1 IH]; intros [|[k' v'] l2]; simpl;
    try reflexivity; try discriminate.
  intros H. apply lex_eq in H as [Hp Hl]. apply lex_eq in Hp as [Hk Hv].
  simpl in Hk, Hv. apply Z.compare_eq in Hk, Hv. subst. f_equal. apply IH, Hl.
Qed.

Lemma flag_value_inj (k k' : flag_values) : flag_value k = flag_value k' -> k = k'.
Proof. destruct k, k'; simpl; intros H; try reflexivity; discriminate. Qed.

Lemma elem_of_rfi_items (m : rfi) (k : flag_values) (v : Z) :
  (flag_value k, v) ∈ rfi_items m <-> m !! k = Some v.
Proof.
  unfold rfi_items. rewrite list_elem_of_omap. split.
  - intros (k' & _ & Hk').
    destruct (m !! k') as [v'|] eqn:Hm; simpl in Hk'; [|discriminate].
    injection Hk' as Hkk ->. apply flag_value_inj in Hkk. subst. exact Hm.
  - intros Hm. exists k. split.
    + destruct k; unfold flag_values_ascending; set_solver.
    + rewrite Hm. reflexivity.
Qed.

Lemma rfi_items_inj (m1 m2 : rfi) : rfi_items m1 = rfi_items m2 -> m1 = m2.
Proof.
  intros Hitems. apply map_eq. intros k.
  destruct (m1 !! k) as [v|] eqn:H1.
  - symmetry. apply elem_of_rfi_items. rewrite <- Hitems. apply elem_of_rfi_items, H1.
  - destruct (m2 !! k) as [v|] eqn:H2; [|reflexivity].
    apply elem_of_rfi_items in H2. rewrite <- Hitems in H2.
    apply elem_of_rfi_items in H2. congruence.
Qed.

Lemma hit_compare_opp (a b : hit) : hit_compare b a = CompOpp (hit_compare a b).
Proof.
  unfold hit_compare. rewrite !lex_opp, !Qcompare_antisym, <- !Z.compare_antisym,
    <- items_compare_opp. reflexivity.
Qed.

Lemma hit_compare_eq (a b : hit) : hit_compare a b = Eq -> hit_eqb a b = true.
Proof.
  unfold hit_compare, hit_eqb. intros H.
  repeat (apply lex_eq in H as [?Hf H]).
  repeat match goal with
  | Hf : (_ ?= _)%Z = Eq |- _ =>
      apply Z.compare_eq in Hf; rewrite Hf, Z.eqb_refl; clear Hf
  | Hf : (_ ?= _)%Q = Eq |- _ =>
      apply Qeq_alt, Qeq_bool_iff in Hf; rewrite Hf; clear Hf
  end.
  apply items_compare_eq, rfi_items_inj in H.
  rewrite bool_decide_eq_true_2 by exact H. reflexivity.
Qed.

Lemma hit_ltb_total (a b : hit) :
  hit_ltb a b = false -> hit_ltb b a = false -> hit_eqb a b = true.
Proof.
  unfold hit_ltb. rewrite (hit_compare_opp a b). intros Hab Hba.
  apply hit_compare_eq. destruct (hit_compare a b); simpl in *; congruence.
Qed.

(** Two keys the cache takes for one are the same pair of hits, in the same
    order or swapped. *)
Lemma same_key_cases (p q : hit * hit) :
  same_key p q = true ->
  (hit_eqb p.1 q.1 = true /\ hit_eqb p.2 q.2 = true)
  \/ (hit_eqb p.1 q.2 = true /\ hit_eqb p.2 q.1 = true).
Proof.
  unfold same_key, hit_pair_comparator.
  destruct (hit_eqb p.1 q.1 && hit_eqb p.2 q.2) eqn:Hsame.
  { intros _. left. apply andb_true_iff, Hsame. }
  destruct (hit_eqb p.1 q.2 && hit_eqb p.2 q.1) eqn:Hswap.
  { intros _. right. apply andb_true_iff, Hswap. }
  rewrite (hit_eqb_sym q.1 p.1), (hit_eqb_sym q.2 p.2), Hsame.
  rewrite (hit_eqb_sym q.1 p.2), (hit_eqb_sym q.2 p.1), (andb_comm (hit_eqb p.2 q.1)), Hswap.
  unfold hit_pair_ltb. intros Hboth. left.
  apply andb_true_iff in Hboth as [Hpq Hqp].
  apply negb_true_iff, orb_false_iff in Hpq as [Hpq1 Hpq2].
  apply negb_true_iff, orb_false_iff in Hqp as [Hqp1 Hqp2].
  rewrite Hpq1 in Hqp2. rewrite Hqp1 in Hpq2. simpl in Hpq2, Hqp2.
  split; apply hit_ltb_total; assumption.
Qed.

(** [distance_func] reads its arguments through the fields of [same_track]. *)
Lemma distance_func_same_track (a a' b b' : hit) :
  same_track a a' -> same_track b b' -> distance_func a b == distance_func a' b'.
Proof.
  intros (Hf & Ht & Hd & Hr & Hs) (Hf' & Ht' & Hd' & Hr' & Hs').
  unfold distance_func, rendezvous_frequency_difference, a_rendezvous_frequency,
    b_rendezvous_frequency, a_time_to_rendezvous, b_time_to_rendezvous,
    rendezvous_time, last_sample_time, first_sample_time, drift_error,
    drift_difference, snr_difference.
  rewrite Hf, Ht, Hr, Hs, Hf', Ht', Hd', Hr', Hs'. reflexivity.
Qed.

(** Between hits of the same duration the distance is symmetric. *)
Lemma distance_func_symmetric (a b : hit) :
  duration_sec a == duration_sec b -> distance_func a b == distance_func b a.
Proof.
  intros Hd.
  assert (Ht : rendezvous_time a b == rendezvous_time b a).
  { unfold rendezvous_time, last_sample_time, first_sample_time.
    rewrite Hd, (Q.max_comm (start_time_sec a + _)), (Q.min_comm (start_time_sec a)).
    reflexivity. }
  unfold distance_func, rendezvous_frequency_difference, a_rendezvous_frequency,
    b_rendezvous_frequency, a_time_to_rendezvous, b_time_to_rendezvous,
    drift_error, drift_difference, snr_difference.
  rewrite Ht.
  rewrite (Qabs_Qminus (snr a)), (Qabs_Qminus (drift_rate_Hz_per_sec a)).
  rewrite (Qabs_Qminus (start_freq_MHz a * _ + _)).
  unfold freq_localization_weight, drift_error_weight, snr_difference_weight, eps.
  assert (Hden : 1 / inject_Z (10 ^ 8)
                 + drift_rate_Hz_per_sec a * drift_rate_Hz_per_sec a
                 + drift_rate_Hz_per_sec b * drift_rate_Hz_per_sec b
                 == 1 / inject_Z (10 ^ 8)
                    + drift_rate_Hz_per_sec b * drift_rate_Hz_per_sec b
                    + drift_rate_Hz_per_sec a * drift_rate_Hz_per_sec a) by ring.
  rewrite Hden. reflexivity.
Qed.

(** A call on a sound cache returns the distance of its arguments, and
    leaves the cache sound. *)
Lemma hit_distance_sound (D : Q) (p1 p2 : hit) (cache : distance_cache) :
  sound D cache -> lasting D p1 -> lasting D p2 ->
  (hit_distance p1 p2 cache).1 == distance_func p1 p2
  /\ sound D (hit_distance p1 p2 cache).2.
Proof.
  intros Hsound H1 H2. unfold hit_distance.
  destruct (cache_find (p1, p2) cache) as [[[k1 k2] d]|] eqn:Hfind; simpl.
  - split; [|exact Hsound].
    unfold cache_find in Hfind. apply find_some in Hfind as [Hin Hkey].
    apply list_elem_of_In in Hin.
    pose proof (proj1 (Forall_forall _ _) Hsound _ Hin) as (Hk1 & Hk2 & Hd).
    simpl in Hk1, Hk2, Hd, Hkey. rewrite Hd.
    apply same_key_cases in Hkey as [[Ha Hb] | [Ha Hb]]; simpl in Ha, Hb;
      apply hit_eqb_same_track, same_track_sym in Ha, Hb.
    + apply distance_func_same_track; assumption.
    + rewrite (distance_func_same_track k1 p2 k2 p1 Hb Ha).
      apply distance_func_symmetric. unfold lasting in H1, H2. rewrite H1, H2. reflexivity.
  - split; [reflexivity|]. constructor; [|exact Hsound]. simpl. auto using Qeq_refl.
Qed.

(** The cache takes [(a, b)] and [(b, a)] for the same key. *)
Lemma same_key_swapped (a b : hit) : same_key (a, b) (b, a) = true.
Proof.
  unfold same_key, hit_pair_comparator. simpl.
  rewrite !hit_eqb_refl. simpl.
  destruct (hit_eqb a b), (hit_eqb b a); reflexivity.
Qed.

(** After a call for [(a, b)] on an empty cache, a call for [(b, a)] returns
    the distance computed for [(a, b)]. *)
Lemma hit_distance_swapped (a b : hit) :
  (hit_distance b a (hit_distance a b []).2).1 = distance_func a b.
Proof.
  unfold hit_distance at 2. simpl.
  unfold hit_distance, cache_find. simpl.
  rewrite same_key_swapped. reflexivity.
Qed.

(** C10 at a failing input.  The distance is not symmetric: for two hits
    with the same start, lasting 10 s and 20 s and drifting at 1 and 2 Hz/s,
    the rendezvous time is 10 s one way round and 5 s the other. *)
Theorem distance_func_not_symmetric :
  ~ distance_func ten_seconds twenty_seconds
    == distance_func twenty_seconds ten_seconds.
Proof. vm_compute. discriminate. Qed.

End EventDistanceProps.

(** ** The drift grid *)

Module DriftGeometryProps.
Import frequency_drift_plane DriftGeometry Scenarios.
Local Open Scope Q_scope.

Lemma round_half_away_comp (x y : Q) :
  x == y -> round_half_away x = round_half_away y.
Proof.
  intros Hxy. unfold round_half_away.
  assert (Hle : Qle_bool 0 x = Qle_bool 0 y).
  { apply eq_true_iff_eq. rewrite !Qle_bool_iff, Hxy. reflexivity. }
  rewrite Hle. destruct (Qle_bool 0 y).
  - apply Qfloor_comp. rewrite Hxy. reflexivity.
  - f_equal. apply Qfloor_comp. rewrite Hxy. reflexivity.
Qed.

Section grid.

Variables (time_steps : Z) (foff tsamp : Q) (options : integrate_drifts_options).

(** An index that passes the loop test is reached, given fuel beyond it, and
    its entry is the one the loop body builds. *)
Lemma drift_loop_lookup (fuel : nat) (start : Z) (i : nat) :
  (i < fuel)%nat ->
  inject_Z (start + Z.of_nat i) < number_drifts time_steps foff tsamp options ->
  drift_loop fuel time_steps foff tsamp options start !! i
  = Some (drift_rate_entry time_steps foff tsamp options (start + Z.of_nat i)).
Proof.
  revert start i. induction fuel as [|fuel IH]; intros start i Hi Hlt; [lia|].
  simpl.
  assert (Hstart : Qltb (inject_Z start) (number_drifts time_steps foff tsamp options)
                   = true).
  { apply Qltb_lt. eapply Qle_lt_trans; [|exact Hlt].
    rewrite <- Zle_Qle. lia. }
  rewrite Hstart. destruct i as [|i]; simpl.
  - rewrite Z.add_0_r. reflexivity.
  - rewrite IH; [|lia|].
    + do 2 f_equal. lia.
    + replace (start + 1 + Z.of_nat i)%Z with (start + Z.of_nat (S i))%Z by lia.
      exact Hlt.
Qed.

(** An index that fails the loop test has no entry. *)
Lemma drift_loop_stops (fuel : nat) (start : Z) (i : nat) :
  number_drifts time_steps foff tsamp options <= inject_Z (start + Z.of_nat i) ->
  drift_loop fuel time_steps foff tsamp options start !! i = None.
Proof.
  revert start i. induction fuel as [|fuel IH]; intros start i Hge; [reflexivity|].
  simpl.
  destruct (Qltb (inject_Z start) (number_drifts time_steps foff tsamp options))
    eqn:Hstart; [|reflexivity].
  destruct i as [|i]; simpl.
  - apply Qltb_lt in Hstart. rewrite Z.add_0_r in Hge.
    exfalso. apply (Qlt_not_le _ _ Hstart Hge).
  - apply IH.
    replace (start + 1 + Z.of_nat i)%Z with (start + Z.of_nat (S i))%Z by lia.
    exact Hge.
Qed.

(** More fuel than the least integer not below [number_drifts] changes
    nothing: the loop has ended by then. *)
Lemma drift_loop_enough_fuel (fuel : nat) :
  (Z.to_nat (Qceiling (number_drifts time_steps foff tsamp options)) <= fuel)%nat ->
  drift_loop fuel time_steps foff tsamp options 0
  = drift_loop (Z.to_nat (Qceiling (number_drifts time_steps foff tsamp options)))
      time_steps foff tsamp options 0.
Proof.
  intros Hfuel. apply list_eq. intros i.
  destruct (Qlt_le_dec (inject_Z (0 + Z.of_nat i))
              (number_drifts time_steps foff tsamp options)) as [Hlt | Hge].
  - assert (Hceil : (Z.of_nat i
                     < Qceiling (number_drifts time_steps foff tsamp options))%Z).
    { rewrite Zlt_Qlt. eapply Qlt_le_trans; [exact Hlt | apply Qle_ceiling]. }
    rewrite !drift_loop_lookup by (try exact Hlt; lia). reflexivity.
  - rewrite !drift_loop_stops by exact Hge. reflexivity.
Qed.

Hypothesis time_steps_ge_2 : (2 <= time_steps)%Z.
Hypothesis foff_nonzero : ~ foff == 0.
Hypothesis tsamp_positive : 0 < tsamp.
Hypothesis resolution_nonzero : resolution options <> 0%Z.

Lemma unit_drift_resolution_nonzero :
  ~ unit_drift_resolution time_steps foff tsamp == 0.
Proof.
  unfold unit_drift_resolution, foff_Hz, Qdiv. intros H0.
  apply Qmult_integral in H0 as [H0 | H0].
  - apply Qmult_integral in H0 as [H0 | H0]; [auto|].
    revert H0. vm_compute. discriminate.
  - assert (Hpos : 0 < inject_Z (time_steps - 1) * tsamp).
    { apply Qmult_lt_0_compat; [|exact tsamp_positive].
      change 0 with (inject_Z 0). rewrite <- Zlt_Qlt. lia. }
    apply Qinv_lt_0_compat in Hpos. rewrite H0 in Hpos.
    exact (Qlt_irrefl _ Hpos).
Qed.

Lemma search_resolution_nonzero :
  ~ search_resolution_Hz_sec time_steps foff tsamp options == 0.
Proof.
  unfold search_resolution_Hz_sec. intros H0.
  apply Qmult_integral in H0 as [H0 | H0].
  - exact (unit_drift_resolution_nonzero H0).
  - apply resolution_nonzero. unfold Qeq in H0. simpl in H0. lia.
Qed.

Lemma search_step_positive :
  0 < Qabs (search_resolution_Hz_sec time_steps foff tsamp options).
Proof.
  destruct (Qle_lt_or_eq _ _ (Qabs_nonneg
    (search_resolution_Hz_sec time_steps foff tsamp options))) as [Hlt | Heq].
  - exact Hlt.
  - exfalso. apply search_resolution_nonzero.
    symmetry in Heq. destruct (Qabs_Qle_condition
      (search_resolution_Hz_sec time_steps foff tsamp options) 0) as [Hcond _].
    destruct Hcond as [Hlo Hhi]; [rewrite Heq; apply Qle_refl|].
    apply Qle_antisym; [exact Hhi | exact Hlo].
Qed.

(** The loop test in terms of the step: [index < number_drifts] iff
    [index * |step| < |high - low|]. *)
Lemma number_drifts_test (index : Z) :
  inject_Z index < number_drifts time_steps foff tsamp options <->
  inject_Z index * Qabs (search_resolution_Hz_sec time_steps foff tsamp options)
  < Qabs (rounded_high_drift_Hz_sec time_steps foff tsamp options
          - rounded_low_drift_Hz_sec time_steps foff tsamp options).
Proof.
  unfold number_drifts, Qdiv.
  rewrite Qabs_Qmult, Qabs_Qinv.
  pose proof search_step_positive as Hpos.
  set (S := Qabs (search_resolution_Hz_sec time_steps foff tsamp options)) in *.
  set (X := Qabs (rounded_high_drift_Hz_sec time_steps foff tsamp options
                  - rounded_low_drift_Hz_sec time_steps foff tsamp options)).
  split; intros H.
  - apply (Qmult_lt_r _ _ S Hpos) in H.
    rewrite <- Qmult_assoc, (Qmult_comm (/ S)), Qmult_inv_r, Qmult_1_r in H;
      [exact H|].
    intros H0. rewrite H0 in Hpos. exact (Qlt_irrefl _ Hpos).
  - apply (Qmult_lt_r _ _ S Hpos).
    rewrite <- Qmult_assoc, (Qmult_comm (/ S)), Qmult_inv_r, Qmult_1_r;
      [exact H|].
    intros H0. rewrite H0 in Hpos. exact (Qlt_irrefl _ Hpos).
Qed.

Lemma compute_drifts_returns :
  compute_drifts time_steps foff tsamp options
  = Returns (drift_loop (Z.to_nat (Qceiling (number_drifts time_steps foff tsamp options)))
               time_steps foff tsamp options 0).
Proof.
  unfold compute_drifts.
  destruct (Qeq_bool (search_resolution_Hz_sec time_steps foff tsamp options) 0)
    eqn:Hzero; [|reflexivity].
  apply Qeq_bool_iff in Hzero. destruct (search_resolution_nonzero Hzero).
Qed.

(** C4, as the program computes it.  For [ntsteps >= 2], [foff <> 0],
    [tsamp > 0] and options of non-zero resolution, [compute_drifts] returns
    a grid that has, for every index with index times the absolute step
    strictly below [|high - low|] (low and high snapped to multiples of the
    unit drift), an entry at that index with
    [rate_Hz_per_sec = low + index * |step|],
    [channel_span = round(rate * (ntsteps-1) * tsamp / (foff * 1e6))],
    [slope = channel_span / (ntsteps-1)], and
    [desmeared_bins = max(1, round(|slope|))] when desmear is enabled and 1
    otherwise. *)
Theorem compute_drifts_grid :
  exists grid,
    compute_drifts time_steps foff tsamp options = Returns grid
    /\ forall index : nat,
        inject_Z (Z.of_nat index)
        * Qabs (search_resolution_Hz_sec time_steps foff tsamp options)
        < Qabs (rounded_high_drift_Hz_sec time_steps foff tsamp options
                - rounded_low_drift_Hz_sec time_steps foff tsamp options) ->
        exists rate,
          grid !! index = Some rate
          /\ index_in_plane rate = Z.of_nat index
          /\ drift_rate_Hz_per_sec rate
             == rounded_low_drift_Hz_sec time_steps foff tsamp options
                + inject_Z (Z.of_nat index)
                  * Qabs (search_resolution_Hz_sec time_steps foff tsamp options)
          /\ drift_channels_span rate
             = round_half_away
                 (drift_rate_Hz_per_sec rate * inject_Z (time_steps - 1) * tsamp
                  / (foff * inject_Z (10 ^ 6)))
          /\ drift_rate_slope rate
             == inject_Z (drift_channels_span rate) / inject_Z (time_steps - 1)
          /\ desmeared_bins rate
             = if desmear options
               then Z.max 1 (round_half_away (Qabs (drift_rate_slope rate)))
               else 1%Z.
Proof.
  eexists. split; [apply compute_drifts_returns|].
  intros index Hindex. apply number_drifts_test in Hindex.
  eexists. split.
  - rewrite <- (Z.add_0_l (Z.of_nat index)) in Hindex.
    apply drift_loop_lookup; [|exact Hindex].
    rewrite Z.add_0_l in Hindex.
    assert (Hceil : (Z.of_nat index
                     < Qceiling (number_drifts time_steps foff tsamp options))%Z).
    { rewrite Zlt_Qlt. eapply Qlt_le_trans; [exact Hindex | apply Qle_ceiling]. }
    lia.
  - rewrite Z.add_0_l. simpl. repeat split; try reflexivity.
    apply round_half_away_comp.
    unfold foff_Hz, Qdiv. ring.
Qed.

(** The grid stops there: an index with index times the absolute step at
    least [|high - low|] has no entry. *)
Lemma compute_drifts_grid_end (index : nat) :
  Qabs (rounded_high_drift_Hz_sec time_steps foff tsamp options
        - rounded_low_drift_Hz_sec time_steps foff tsamp options)
  <= inject_Z (Z.of_nat index)
     * Qabs (search_resolution_Hz_sec time_steps foff tsamp options) ->
  exists grid,
    compute_drifts time_steps foff tsamp options = Returns grid
    /\ grid !! index = None.
Proof.
  intros Hindex. eexists. split; [apply compute_drifts_returns|].
  apply drift_loop_stops. rewrite Z.add_0_l.
  apply Qnot_lt_le. intros Hlt. apply number_drifts_test in Hlt.
  exact (Qlt_not_le _ _ Hlt Hindex).
Qed.

End grid.

(** C4 as stated fails at the high bound.  With a unit drift of 1 Hz/s and
    the default options (from -5 to 5 Hz/s, resolution 1) index 10 has
    [10 * step <= |high - low|], and the grid has the ten entries 0 to 9. *)
Lemma compute_drifts_excludes_high_bound :
  exists grid,
    compute_drifts 2 one_hertz 1 default_integrate_drifts_options = Returns grid
    /\ inject_Z 10
       * Qabs (search_resolution_Hz_sec 2 one_hertz 1 default_integrate_drifts_options)
       <= Qabs (rounded_high_drift_Hz_sec 2 one_hertz 1 default_integrate_drifts_options
                - rounded_low_drift_Hz_sec 2 one_hertz 1 default_integrate_drifts_options)
    /\ length grid = 10%nat
    /\ grid !! 10%nat = None.
Proof.
  eexists. split; [vm_compute; reflexivity|].
  split; [vm_compute; discriminate|].
  split; reflexivity.
Qed.

(** The grid theorem at that input: the entry of index 3 is the rate of
    -2 Hz/s. *)
Lemma compute_drifts_grid_witness :
  exists grid rate,
    compute_drifts 2 one_hertz 1 default_integrate_drifts_options = Returns grid
    /\ grid !! 3%nat = Some rate
    /\ drift_rate_Hz_per_sec rate == -2.
Proof.
  destruct (compute_drifts_grid 2 one_hertz 1 default_integrate_drifts_options)
    as (grid & Hgrid & Hentries).
  - lia.
  - vm_compute. discriminate.
  - reflexivity.
  - discriminate.
  - destruct (Hentries 3%nat) as (rate & Hrate & _ & Hhz & _).
    + vm_compute. reflexivity.
    + exists grid, rate. split; [exact Hgrid|]. split; [exact Hrate|].
      rewrite Hhz. vm_compute. reflexivity.
Defined.

End DriftGeometryProps.

(** ** Characterising hits *)

Module HitSearchProps.
Import HitSearch.
Local Open Scope Q_scope.

Lemma vector_subscript_returns {A : Type} (v : list A) (i : Z) (a : A) :
  vector_subscript v i = Returns a <-> (0 <= i)%Z /\ v !! Z.to_nat i = Some a.
Proof.
  unfold vector_subscript. destruct (Z.ltb_spec i 0) as [Hneg | Hpos].
  - split; [discriminate | lia].
  - destruct (v !! Z.to_nat i) as [a'|]; split.
    + intros [= ->]. auto.
    + intros [_ [= ->]]. reflexivity.
    + discriminate.
    + intros [_ [=]].
Qed.

Section hit_search.

Variable protohit_search :
  frequency_drift_plane.t -> noise_stats -> hit_search_options -> list protohit.
Variable indeterminate : hit.

Lemma copy_flag_fields (k : flag_values) (c : protohit) (h : hit) :
  start_freq_index (copy_flag k c h) = start_freq_index h
  /\ start_freq_MHz (copy_flag k c h) = start_freq_MHz h
  /\ power (copy_flag k c h) = power h
  /\ snr (copy_flag k c h) = snr h
  /\ duration_sec (copy_flag k c h) = duration_sec h
  /\ binwidth (copy_flag k c h) = binwidth h
  /\ bandwidth (copy_flag k c h) = bandwidth h
  /\ rate_index (copy_flag k c h) = rate_index h
  /\ integrated_channels (copy_flag k c h) = integrated_channels h.
Proof.
  unfold copy_flag. destruct (protohit_rfi_counts c !! k); repeat split; reflexivity.
Qed.

(** The body of the loop yields the fields of C5. *)
Lemma characterise_fields (cc : coarse_channel.t) (noise : noise_stats)
    (plane : frequency_drift_plane.t) (c : protohit) (h : hit) :
  characterise indeterminate
    (coarse_channel.foff cc) (coarse_channel.fch1 cc)
    (coarse_channel.tstart cc * 24 * 60 * 60) (coarse_channel.tsamp cc)
    (coarse_channel._coarse_channel_number cc)
    (Qabs (inject_Z (10 ^ 6) * coarse_channel.foff cc)) noise
    (frequency_drift_plane.integration_steps plane)
    (frequency_drift_plane.drift_rate_info plane) c = Returns h ->
  characterised cc noise plane c h.
Proof.
  unfold characterise. simpl.
  destruct (vector_subscript (frequency_drift_plane.drift_rate_info plane)
              (drift_index (index_max c))) as [rate| |] eqn:Hrate;
    simpl; try discriminate.
  intros [= <-].
  apply vector_subscript_returns in Hrate as [_ Hrate].
  unfold characterised.
  repeat match goal with
  | |- context [copy_flag ?k ?c ?h] =>
      let H := fresh "Hcopy" in
      pose proof (copy_flag_fields k c h) as H;
      destruct H as (-> & -> & -> & -> & -> & -> & -> & -> & ->)
  end.
  cbn -[Qabs Qmult Qplus Qminus Qdiv inject_Z Z.mul].
  repeat split; try reflexivity.
  - rewrite (Qmult_comm (coarse_channel.foff cc)). reflexivity.
  - exists rate. split; [exact Hrate | reflexivity].
Qed.

(** The loop pushes one hit per protohit, in order. *)
Lemma characterise_all_spec (body : protohit -> outcome hit)
    (protohits : list protohit) (acc hits : list hit) :
  characterise_all body protohits acc = Returns hits ->
  exists new, hits = acc ++ new
    /\ Forall2 (fun c h => body c = Returns h) protohits new.
Proof.
  revert acc. induction protohits as [|c rest IH]; intros acc; simpl.
  - intros [= <-]. exists []. rewrite app_nil_r. split; [reflexivity | constructor].
  - destruct (body c) as [h| |] eqn:Hbody; simpl; try discriminate.
    intros Hrest. apply IH in Hrest as (new & -> & Hnew).
    exists (h :: new). rewrite <- app_assoc. split; [reflexivity|].
    constructor; assumption.
Qed.

(** C5.  Every hit [hit_search] emits for a dedrifted coarse channel with a
    noise estimate comes from one protohit, in order, and has:
    [start_freq_index] the frequency channel of the protohit's peak, while
    [start_freq_MHz] is [fch1 + foff] times the frequency channel of its
    centroid; [power] the peak integration minus the noise floor and [snr]
    the power divided by the desmeared noise; [duration_sec = tsamp] times
    the integration steps; [bandwidth = binwidth * |foff * 1e6|]; and
    [integrated_channels] the [desmeared_bins] of its drift rate times the
    integration steps. *)
Theorem hit_search_characterises (cc : coarse_channel.t)
    (options : hit_search_options) (hits : list hit) :
  hit_search protohit_search indeterminate cc options = Returns hits ->
  exists noise plane,
    coarse_channel.noise_estimate cc = Returns noise
    /\ coarse_channel.integrated_drift_plane cc = Returns plane
    /\ Forall2 (characterised cc noise plane)
         (protohit_search plane noise options) hits.
Proof.
  unfold hit_search.
  destruct (coarse_channel.noise_estimate cc) as [noise| |]; simpl; try discriminate.
  destruct (coarse_channel.integrated_drift_plane cc) as [plane| |];
    simpl; try discriminate.
  intros Hloop. exists noise, plane. split; [reflexivity|]. split; [reflexivity|].
  apply characterise_all_spec in Hloop as (new & -> & Hnew). simpl.
  eapply Forall2_impl; [exact Hnew|].
  intros c h. apply characterise_fields.
Qed.

Lemma characterise_all_returns (body : protohit -> outcome hit)
    (protohits : list protohit) (acc : list hit) :
  Forall (fun c => exists h, body c = Returns h) protohits ->
  exists hits, characterise_all body protohits acc = Returns hits.
Proof.
  intros Hall. revert acc.
  induction Hall as [|c rest [h Hc] _ IH]; intros acc; simpl; [eauto|].
  rewrite Hc. simpl. apply IH.
Qed.

Lemma characterise_returns (foff fch1 tstart_seconds tsamp : Q) (cc_number : Z)
    (channel_bandwidth_MHz : Q) (noise : noise_stats) (integration_length : Z)
    (rates : list frequency_drift_plane.drift_rate) (c : protohit) :
  (0 <= drift_index (index_max c) < Z.of_nat (length rates))%Z ->
  exists h,
    characterise indeterminate foff fch1 tstart_seconds tsamp cc_number
      channel_bandwidth_MHz noise integration_length rates c = Returns h.
Proof.
  intros Hc.
  destruct (lookup_lt_is_Some_2 rates (Z.to_nat (drift_index (index_max c))))
    as [rate Hrate]; [lia|].
  assert (Hsub : vector_subscript rates (drift_index (index_max c)) = Returns rate)
    by (apply vector_subscript_returns; split; [lia | exact Hrate]).
  unfold characterise. cbn -[vector_subscript]. rewrite Hsub.
  cbn -[vector_subscript]. eauto.
Qed.

(** [hit_search] returns when the channel has a noise estimate and a drift
    plane and every protohit's drift index is one of the plane's rates. *)
Lemma hit_search_returns (cc : coarse_channel.t) (options : hit_search_options)
    (noise : noise_stats) (plane : frequency_drift_plane.t) :
  coarse_channel.noise_estimate cc = Returns noise ->
  coarse_channel.integrated_drift_plane cc = Returns plane ->
  Forall (fun c =>
            (0 <= drift_index (index_max c)
             < Z.of_nat (length (frequency_drift_plane.drift_rate_info plane)))%Z)
         (protohit_search plane noise options) ->
  exists hits, hit_search protohit_search indeterminate cc options = Returns hits.
Proof.
  intros Hnoise Hplane Hrange. unfold hit_search. rewrite Hnoise, Hplane.
  cbn [mbind outcome_bind]. apply characterise_all_returns.
  eapply Forall_impl; [exact Hrange|].
  intros c Hc. apply characterise_returns. exact Hc.
Qed.

End hit_search.

(** The theorem at a channel with one protohit. *)
Lemma hit_search_characterises_witness :
  exists hits,
    hit_search (fun _ _ _ => [Scenarios.a_protohit]) Scenarios.seed
      Scenarios.a_dedrifted_channel Scenarios.some_options = Returns hits
    /\ exists noise plane,
         coarse_channel.noise_estimate Scenarios.a_dedrifted_channel = Returns noise
         /\ coarse_channel.integrated_drift_plane Scenarios.a_dedrifted_channel
            = Returns plane
         /\ Forall2 (characterised Scenarios.a_dedrifted_channel noise plane)
              [Scenarios.a_protohit] hits.
Proof.
  eexists. split.
  - vm_compute. reflexivity.
  - apply (hit_search_characterises (fun _ _ _ => [Scenarios.a_protohit])
             Scenarios.seed Scenarios.a_dedrifted_channel Scenarios.some_options).
    vm_compute. reflexivity.
Defined.

End HitSearchProps.

(** ** Scans and observation targets *)

Module ScanProps.
Import Scenarios.
Local Open Scope Q_scope.

(** Below zero and above the number of coarse channels the guard raises. *)
Lemma read_coarse_channel_guard (s : scan.t) (index : Z) :
  (index < 0 \/ scan._num_coarse_channels s < index)%Z ->
  scan.read_coarse_channel s index = Throws out_of_range
  /\ scan.peak_coarse_channel s index = Throws out_of_range.
Proof.
  intros Hout. unfold scan.read_coarse_channel, scan.peak_coarse_channel.
  assert (Hguard : scan.invalid_coarse_channel s index = true).
  { unfold scan.invalid_coarse_channel. apply orb_true_iff.
    destruct Hout as [Hneg | Hbig]; [left | right]; lia. }
  rewrite Hguard. split; reflexivity.
Qed.

(** At the number of coarse channels itself the guard lets the index pass. *)
Lemma invalid_coarse_channel_at_count (s : scan.t) :
  (0 <= scan._num_coarse_channels s)%Z ->
  scan.invalid_coarse_channel s (scan.get_number_coarse_channels s) = false.
Proof.
  intros Hn. unfold scan.invalid_coarse_channel, scan.get_number_coarse_channels.
  apply orb_false_iff. split; lia.
Qed.

(** C9 at a failing input.  A scan sliced to its first coarse channel has
    one coarse channel; index 1 is out of its range, and it is read: the
    second channel of the scan it was sliced from comes back.  On the scan
    of two channels [peak_coarse_channel] answers index 2 with a null
    pointer. *)
Theorem read_coarse_channel_at_count :
  scan.get_number_coarse_channels first_channel_only = 1%Z
  /\ scan.read_coarse_channel first_channel_only 1
     = Returns (channel_with_hits 1 0 [], first_channel_only)
  /\ scan.peak_coarse_channel first_channel_only 1
     = Returns (Some (channel_with_hits 1 0 []))
  /\ scan.get_number_coarse_channels two_channels = 2%Z
  /\ scan.peak_coarse_channel two_channels 2 = Returns None.
Proof. repeat split; vm_compute; reflexivity. Qed.

Lemma mismatch_first (first : scan.t) :
  observation_target.mismatch (scan.fch1 first) (scan.foff first)
    (scan.nchans first) first = true.
Proof.
  unfold observation_target.mismatch.
  assert (Hzero : Qltb (Qabs (scan.fch1 first - scan.fch1 first))
                       (1 / inject_Z (10 ^ 6)) = true).
  { apply Qltb_lt.
    assert (H0 : Qabs (scan.fch1 first - scan.fch1 first) == 0).
    { rewrite (Qabs_wd _ 0); [reflexivity | ring]. }
    rewrite H0. reflexivity. }
  rewrite Hzero. reflexivity.
Qed.

(** With at least one scan the validation fails, whatever the scans: the
    first scan is within a hertz of itself. *)
Lemma validate_scan_consistency_fails (target : observation_target.t) :
  observation_target._scans target <> [] ->
  observation_target.validate_scan_consistency target = false
  /\ observation_target.get_number_coarse_channels target = Throws runtime_error
  /\ (forall frequency,
        observation_target.get_coarse_channel_with_frequency target frequency
        = Throws runtime_error).
Proof.
  intros Hscans.
  assert (Hfalse : observation_target.validate_scan_consistency target = false).
  { unfold observation_target.validate_scan_consistency.
    destruct (observation_target._scans target) as [|first rest]; [done|].
    simpl. rewrite mismatch_first. reflexivity. }
  unfold observation_target.get_number_coarse_channels,
    observation_target.get_coarse_channel_with_frequency.
  rewrite Hfalse. auto.
Qed.

(** C8 at a failing input.  For a target of two scans with the same [fch1],
    [foff] and [nchans] the validation returns false, and both operations
    raise. *)
Theorem identical_scans_rejected :
  observation_target.consistent identical_scans
  /\ observation_target.validate_scan_consistency identical_scans = false
  /\ observation_target.get_number_coarse_channels identical_scans
     = Throws runtime_error
  /\ observation_target.get_coarse_channel_with_frequency identical_scans 1000
     = Throws runtime_error.
Proof.
  split.
  - intros first sc [= <-] Hin.
    apply list_elem_of_In in Hin. simpl in Hin.
    destruct Hin as [<- | [<- | []]]; repeat split; reflexivity.
  - repeat split; vm_compute; reflexivity.
Qed.

End ScanProps.

(** ** Event search *)

Module EventSearchProps.
Import EventDistance EventSearch Scenarios EventDistanceProps.
Local Open Scope Q_scope.

(** The distances of the scenario: the follower is 40 from the seed; the
    fast hit is just over 50 from the seed when the seed comes first, and
    next to it when the fast hit comes first. *)
Lemma scenario_distances :
  distance_func seed follower == 40
  /\ 50 < distance_func seed fast
  /\ distance_func fast seed < 1
  /\ distance_func fast follower < 61.
Proof. repeat split; vm_compute; reflexivity. Qed.

(** *** What holds of every cadence *)

Lemma concat_insert_delete (A : list (list hit)) (m pos : nat) (l : list hit) (x : hit) :
  A !! m = Some l -> l !! pos = Some x ->
  concat A ≡ₚ x :: concat (<[m := delete pos l]> A).
Proof.
  revert m. induction A as [|l0 A IH]; intros m Hm Hx; [done|].
  destruct m as [|m]; simpl in *.
  - injection Hm as ->. rewrite (delete_Permutation l pos x Hx) at 1. reflexivity.
  - rewrite (IH m Hm Hx). symmetry. apply Permutation_middle.
Qed.

(** Matching against the scans after scan [i] moves hits from the
    available hits of those scans to the end of the event, and touches
    nothing else. *)
Lemma match_later_scans_perm (i : nat) (indices : list nat) :
  Forall (fun m => (i < m)%nat) indices ->
  forall e A cache e' A' cache',
  match_later_scans indices e A cache = Returns (e', A', cache') ->
  (exists matched,
     event.hits e' = event.hits e ++ matched
     /\ matched ++ concat (drop (S i) A') ≡ₚ concat (drop (S i) A))
  /\ take (S i) A' = take (S i) A
  /\ length A' = length A.
Proof.
  induction 1 as [|m rest Hm _ IH]; intros e A cache e' A' cache'; simpl.
  - intros [= <- <- <-]. split; [|auto]. exists []. rewrite app_nil_r. auto.
  - intros Hrun. apply bind_returns in Hrun as (l & Hl & Hrun).
    apply vector_subscript_nat in Hl.
    destruct (find_best_matching_hit e l cache) as [best cache1].
    destruct (Qltb (distance best) 50).
    + destruct (hit_it best) as [pos|]; [|discriminate].
      destruct (l !! pos) as [x|] eqn:Hx; [|discriminate].
      apply IH in Hrun as ((matched & Hhits & Hperm) & Htake & Hlen).
      simpl in Hhits. rewrite length_insert in Hlen.
      split; [|split]; [| |exact Hlen].
      * exists (x :: matched). split.
        { rewrite Hhits, <- app_assoc. reflexivity. }
        simpl. rewrite Hperm, drop_insert_ge by lia.
        symmetry. apply concat_insert_delete; [|exact Hx].
        rewrite lookup_drop, <- Hl. f_equal. lia.
      * rewrite Htake. apply take_insert_ge. lia.
    + apply IH in Hrun. exact Hrun.
Qed.

(** One seed: the event kept, if any, has more than one hit, and its hits
    are the seed and hits taken from the available hits of later scans. *)
Lemma evaluate_candidate_event_spec (seed_hit : hit) (starting_scan : scan.t)
    (i : nat) (target : observation_target.t) (A : list (list hit))
    (off_scans : list scan.t) (cache : distance_cache)
    (candidate : option event.t) (A' : list (list hit)) (cache' : distance_cache) :
  evaluate_candidate_event seed_hit starting_scan i target A off_scans cache
  = Returns (candidate, A', cache') ->
  (forall found, candidate = Some found -> (1 < length (event.hits found))%nat)
  /\ hits_of (option_list candidate) ++ concat (drop (S i) A')
     ⊆+ seed_hit :: concat (drop (S i) A)
  /\ take (S i) A' = take (S i) A
  /\ length A' = length A.
Proof.
  unfold evaluate_candidate_event. intros Hrun.
  apply bind_returns in Hrun as ([[e A1] cache1] & Hmatch & Hrun).
  apply bind_returns in Hrun as ([times cache2] & _ & Hrun).
  apply (match_later_scans_perm i) in Hmatch
    as ((matched & Hhits & Hperm) & Htake & Hlen);
    [|apply Forall_forall; intros m Hin; apply elem_of_seq in Hin; lia].
  simpl in Hhits.
  destruct ((1 <? length (event.hits e))%nat && (times =? 0)%Z) eqn:Hkeep;
    injection Hrun as <- <- <-.
  - split; [|split]; [| |auto].
    + intros found [= <-]. simpl.
      apply andb_true_iff in Hkeep as [Hlen1 _]. apply Nat.ltb_lt in Hlen1. exact Hlen1.
    + simpl. rewrite app_nil_r, Hhits. simpl. rewrite Hperm. reflexivity.
  - split; [|split]; [discriminate| |auto].
    simpl. apply submseteq_cons. rewrite <- Hperm. apply submseteq_inserts_l. reflexivity.
Qed.

(** The seeds of one scan. *)
Lemma search_seeds_spec (seeds : list hit) (starting_scan : scan.t) (i : nat)
    (target : observation_target.t) (off_scans : list scan.t) :
  forall (A : list (list hit)) (cache : distance_cache) (E : list event.t)
         (A' : list (list hit)) (cache' : distance_cache) (E' : list event.t),
  search_seeds seeds starting_scan i target A off_scans cache E
  = Returns (A', cache', E') ->
  (Forall (fun e => (1 < length (event.hits e))%nat) E ->
   Forall (fun e => (1 < length (event.hits e))%nat) E')
  /\ hits_of E' ++ concat (drop (S i) A')
     ⊆+ hits_of E ++ seeds ++ concat (drop (S i) A)
  /\ take (S i) A' = take (S i) A
  /\ length A' = length A.
Proof.
  induction seeds as [|seed_hit rest IH]; intros A cache E A' cache' E'; simpl.
  - intros [= <- <- <-]. auto.
  - intros Hrun. apply bind_returns in Hrun as ([[candidate A1] cache1] & Heval & Hrun).
    apply evaluate_candidate_event_spec in Heval as (Hmany & Hsub & Htake & Hlen).
    apply IH in Hrun as (Hall & Hsub' & Htake' & Hlen').
    split; [|split; [|split]]; [| |congruence|congruence].
    + intros HE. apply Hall. destruct candidate as [found|]; [|exact HE].
      apply Forall_app. split; [exact HE|]. constructor; [|constructor].
      apply Hmany. reflexivity.
    + rewrite Hsub'.
      assert (Hevents : hits_of (match candidate with
                                 | Some found => E ++ [found]
                                 | None => E
                                 end)
                        = hits_of E ++ hits_of (option_list candidate)).
      { destruct candidate; simpl; [|rewrite app_nil_r; reflexivity].
        rewrite map_app, concat_app. reflexivity. }
      rewrite Hevents, <- app_assoc.
      apply submseteq_app; [reflexivity|].
      rewrite Permutation_app_swap_app. simpl.
      rewrite (Permutation_middle rest).
      apply submseteq_app; [reflexivity | exact Hsub].
Qed.

(** The scans from scan [i] on. *)
Lemma search_scans_spec (k : nat) :
  forall (i : nat) (target : observation_target.t) (A : list (list hit))
         (off_scans : list scan.t) (cache : distance_cache) (E : list event.t)
         (A' : list (list hit)) (cache' : distance_cache) (E' : list event.t),
  search_scans (seq i k) target A off_scans cache E = Returns (A', cache', E') ->
  (Forall (fun e => (1 < length (event.hits e))%nat) E ->
   Forall (fun e => (1 < length (event.hits e))%nat) E')
  /\ hits_of E' ⊆+ hits_of E ++ concat (drop i A).
Proof.
  induction k as [|k IH]; intros i target A off_scans cache E A' cache' E'; simpl.
  - intros [= <- <- <-]. split; [auto|]. apply submseteq_inserts_r. reflexivity.
  - intros Hrun.
    apply bind_returns in Hrun as (starting_scan & _ & Hrun).
    apply bind_returns in Hrun as (seeds & Hseeds & Hrun).
    apply vector_subscript_nat in Hseeds.
    apply bind_returns in Hrun as ([[A1 cache1] E1] & Hscan & Hrun).
    apply search_seeds_spec in Hscan as (Hall & Hsub & _ & _).
    apply IH in Hrun as (Hall' & Hsub').
    split; [auto|].
    rewrite Hsub', Hsub, (drop_S A seeds i Hseeds). reflexivity.
Qed.

(** The first part of C3 holds: every event returned has more than one hit. *)
Lemma event_search_several_hits (cadence_with_hits : cadence.t)
    (events : list event.t) :
  event_search cadence_with_hits = Returns events ->
  Forall (fun e => (1 < length (event.hits e))%nat) events.
Proof.
  unfold event_search. intros Hrun.
  apply bind_returns in Hrun as (target & _ & Hrun).
  apply bind_returns in Hrun as (on_hits & _ & Hrun).
  apply bind_returns in Hrun as ([[A' cache'] E'] & Hscans & Hrun).
  injection Hrun as <-.
  apply search_scans_spec in Hscans as (Hall & _). apply Hall. constructor.
Qed.

(** The third part of C3 holds: the hits of the events returned, taken
    together, are hits of the ON scans, each occurrence used at most once. *)
Lemma event_search_hits_at_most_once (cadence_with_hits : cadence.t)
    (events : list event.t) :
  event_search cadence_with_hits = Returns events ->
  exists on_target on_scan_hits,
    cadence._observations cadence_with_hits !! 0%nat = Some on_target
    /\ preload_hits (observation_target._scans on_target) = Returns on_scan_hits
    /\ hits_of events ⊆+ concat on_scan_hits.
Proof.
  unfold event_search. intros Hrun.
  apply bind_returns in Hrun as (target & Htarget & Hrun).
  apply bind_returns in Hrun as (on_hits & Hpreload & Hrun).
  apply bind_returns in Hrun as ([[A' cache'] E'] & Hscans & Hrun).
  injection Hrun as <-.
  apply search_scans_spec in Hscans as (_ & Hsub).
  exists target, on_hits. split; [|split; [exact Hpreload | exact Hsub]].
  exact (vector_subscript_nat _ 0 _ Htarget).
Qed.

(** *** When all hits last as long: no event returned is seen in an OFF scan *)

Section same_duration.

Variable D : Q.

Lemma lowest_dist_to_event_sound (event_hits : list hit) (it : hit) :
  forall (lowest : Q) (cache : distance_cache),
  sound D cache -> Forall (lasting D) event_hits -> lasting D it ->
  sound D (lowest_dist_to_event event_hits it lowest cache).2.
Proof.
  induction event_hits as [|h rest IH]; intros lowest cache Hsound Hhits Hit; simpl.
  - exact Hsound.
  - apply Forall_cons in Hhits as [Hh Hrest].
    pose proof (hit_distance_sound D h it cache Hsound Hh Hit) as [_ Hcache].
    destruct (hit_distance h it cache) as [d cache1]. simpl in Hcache.
    apply IH; assumption.
Qed.

Lemma best_match_loop_sound (event_hits hits_to_check : list hit) :
  forall (pos : nat) (best : match_result) (cache : distance_cache),
  sound D cache -> Forall (lasting D) event_hits -> Forall (lasting D) hits_to_check ->
  sound D (best_match_loop event_hits hits_to_check pos best cache).2.
Proof.
  induction hits_to_check as [|it rest IH]; intros pos best cache Hsound Hevent Hcheck;
    simpl.
  - exact Hsound.
  - apply Forall_cons in Hcheck as [Hit Hrest].
    pose proof (lowest_dist_to_event_sound event_hits it FLT_MAX cache Hsound Hevent Hit)
      as Hcache.
    destruct (lowest_dist_to_event event_hits it FLT_MAX cache) as [lowest cache1].
    simpl in Hcache. apply IH; assumption.
Qed.

Lemma fold_left_distance_comp (off_hit : hit) (event_hits : list hit) (s s' : Q) :
  s == s' ->
  fold_left (fun acc event_hit => acc + distance_func off_hit event_hit) event_hits s
  == fold_left (fun acc event_hit => acc + distance_func off_hit event_hit) event_hits s'.
Proof.
  revert s s'. induction event_hits as [|h rest IH]; intros s s' Hs; simpl; [exact Hs|].
  apply IH. rewrite Hs. reflexivity.
Qed.

(** The sum the OFF check accumulates is the sum of the distances. *)
Lemma dist_to_event_hits_sound (off_hit : hit) (event_hits : list hit) :
  forall (sum : Q) (cache : distance_cache),
  sound D cache -> lasting D off_hit -> Forall (lasting D) event_hits ->
  (dist_to_event_hits off_hit event_hits sum cache).1
  == fold_left (fun acc event_hit => acc + distance_func off_hit event_hit) event_hits sum
  /\ sound D (dist_to_event_hits off_hit event_hits sum cache).2.
Proof.
  induction event_hits as [|h rest IH]; intros sum cache Hsound Hoff Hhits; simpl.
  - split; [reflexivity | exact Hsound].
  - apply Forall_cons in Hhits as [Hh Hrest].
    pose proof (hit_distance_sound D off_hit h cache Hsound Hoff Hh) as [Hd Hcache].
    destruct (hit_distance off_hit h cache) as [d cache1]. simpl in Hd, Hcache.
    destruct (IH (sum + d) cache1 Hcache Hoff Hrest) as [Hsum Hcache'].
    split; [|exact Hcache'].
    rewrite Hsum. apply fold_left_distance_comp. rewrite Hd. reflexivity.
Qed.

Lemma count_in_off_hits_sound (candidate_event : event.t) (off_hits : list hit) :
  forall (times : Z) (cache : distance_cache),
  sound D cache -> Forall (lasting D) off_hits ->
  Forall (lasting D) (event.hits candidate_event) ->
  (times <= (count_in_off_hits candidate_event off_hits times cache).1)%Z
  /\ ((count_in_off_hits candidate_event off_hits times cache).1 = times ->
      Forall (fun off_hit =>
                50 <= average_distance off_hit (event.hits candidate_event)) off_hits)
  /\ sound D (count_in_off_hits candidate_event off_hits times cache).2.
Proof.
  induction off_hits as [|off_hit rest IH]; intros times cache Hsound Hoff Hevent; simpl.
  - split; [lia|]. split; [constructor | exact Hsound].
  - apply Forall_cons in Hoff as [Ho Hrest].
    pose proof (dist_to_event_hits_sound off_hit (event.hits candidate_event) 0 cache
                  Hsound Ho Hevent) as [Hsum Hcache].
    destruct (dist_to_event_hits off_hit (event.hits candidate_event) 0 cache)
      as [sum cache1]. simpl in Hsum, Hcache.
    destruct (Qltb (sum / inject_Z (Z.of_nat (length (event.hits candidate_event)))) 50)
      eqn:Hseen.
    + destruct (IH (times + 1)%Z cache1 Hcache Hrest Hevent) as (Hle & _ & Hcache').
      split; [lia|]. split; [lia | exact Hcache'].
    + destruct (IH times cache1 Hcache Hrest Hevent) as (Hle & Hnone & Hcache').
      split; [exact Hle|]. split; [|exact Hcache'].
      intros Hsame. constructor; [|apply Hnone, Hsame].
      apply Qltb_ge in Hseen. unfold average_distance. rewrite <- Hsum. exact Hseen.
Qed.

Lemma count_in_off_scans_sound (candidate_event : event.t) (off_scans : list scan.t) :
  forall (times : Z) (cache : distance_cache) (times' : Z) (cache' : distance_cache),
  sound D cache ->
  (forall sc scan_hits s', sc ∈ off_scans -> scan.hits sc = Returns (scan_hits, s') ->
     Forall (lasting D) scan_hits) ->
  Forall (lasting D) (event.hits candidate_event) ->
  count_in_off_scans candidate_event off_scans times cache = Returns (times', cache') ->
  (times <= times')%Z
  /\ (times' = times -> not_seen_in off_scans candidate_event)
  /\ sound D cache'.
Proof.
  induction off_scans as [|off_scan rest IH];
    intros times cache times' cache' Hsound Hoff Hevent; simpl.
  - intros [= <- <-]. split; [lia|]. split; [|exact Hsound].
    intros _ sc scan_hits s' Hin. apply elem_of_nil in Hin. destruct Hin.
  - intros Hrun. apply bind_returns in Hrun as ([off_hits s0] & Hhits & Hrun).
    pose proof (count_in_off_hits_sound candidate_event off_hits times cache Hsound
                  (Hoff off_scan off_hits s0 ltac:(left) Hhits) Hevent)
      as (Hle & Hnone & Hcache).
    destruct (count_in_off_hits candidate_event off_hits times cache) as [times1 cache1].
    simpl in Hle, Hnone, Hcache.
    apply IH in Hrun as (Hle' & Hnone' & Hcache'); [|exact Hcache| |exact Hevent].
    + split; [lia|]. split; [|exact Hcache'].
      intros Hsame sc scan_hits s' Hin Hsc.
      apply elem_of_cons in Hin as [-> | Hin].
      * rewrite Hhits in Hsc. injection Hsc as <- <-. apply Hnone. lia.
      * apply (Hnone' ltac:(lia) sc scan_hits s' Hin Hsc).
    + intros sc scan_hits s' Hin. apply Hoff. right. exact Hin.
Qed.

Lemma match_later_scans_sound (indices : list nat) :
  forall e A cache e' A' cache',
  sound D cache -> Forall (Forall (lasting D)) A -> Forall (lasting D) (event.hits e) ->
  match_later_scans indices e A cache = Returns (e', A', cache') ->
  sound D cache' /\ Forall (Forall (lasting D)) A' /\ Forall (lasting D) (event.hits e').
Proof.
  induction indices as [|m rest IH]; intros e A cache e' A' cache' Hsound HA He; simpl.
  - intros [= <- <- <-]. auto.
  - intros Hrun. apply bind_returns in Hrun as (l & Hl & Hrun).
    apply vector_subscript_nat in Hl.
    assert (Hlast : Forall (lasting D) l)
      by exact (proj1 (Forall_lookup _ _) HA m l Hl).
    pose proof (best_match_loop_sound (event.hits e) l 0
                  {| distance := FLT_MAX; hit_it := None |} cache Hsound He Hlast)
      as Hcache.
    unfold find_best_matching_hit in Hrun.
    destruct (best_match_loop (event.hits e) l 0 _ cache) as [best cache1].
    simpl in Hcache.
    destruct (Qltb (distance best) 50).
    + destruct (hit_it best) as [pos|]; [|discriminate].
      destruct (l !! pos) as [x|] eqn:Hx; [|discriminate].
      apply IH in Hrun; [exact Hrun | exact Hcache | |].
      * apply Forall_insert; [exact HA|]. apply Forall_delete. exact Hlast.
      * simpl. apply Forall_app. split; [exact He|]. constructor; [|constructor].
        exact (proj1 (Forall_lookup _ _) Hlast pos x Hx).
    + apply IH in Hrun; assumption.
Qed.

Lemma evaluate_candidate_event_sound (seed_hit : hit) (starting_scan : scan.t)
    (i : nat) (target : observation_target.t) (A : list (list hit))
    (off_scans : list scan.t) (cache : distance_cache)
    (candidate : option event.t) (A' : list (list hit)) (cache' : distance_cache) :
  sound D cache -> Forall (Forall (lasting D)) A -> lasting D seed_hit ->
  (forall sc scan_hits s', sc ∈ off_scans -> scan.hits sc = Returns (scan_hits, s') ->
     Forall (lasting D) scan_hits) ->
  evaluate_candidate_event seed_hit starting_scan i target A off_scans cache
  = Returns (candidate, A', cache') ->
  sound D cache' /\ Forall (Forall (lasting D)) A'
  /\ (forall found, candidate = Some found -> not_seen_in off_scans found).
Proof.
  intros Hsound HA Hseed Hoff. unfold evaluate_candidate_event. intros Hrun.
  apply bind_returns in Hrun as ([[e A1] cache1] & Hmatch & Hrun).
  apply match_later_scans_sound in Hmatch as (Hcache1 & HA1 & He);
    [|exact Hsound|exact HA|simpl; constructor; [exact Hseed | constructor]].
  apply bind_returns in Hrun as ([times cache2] & Hcount & Hrun).
  apply count_in_off_scans_sound in Hcount as (_ & Hnone & Hcache2);
    [|exact Hcache1|exact Hoff|exact He].
  destruct ((1 <? length (event.hits e))%nat && (times =? 0)%Z) eqn:Hkeep;
    injection Hrun as <- <- <-.
  - split; [exact Hcache2|]. split; [exact HA1|].
    intros found [= <-]. apply andb_true_iff in Hkeep as [_ Hzero].
    apply Z.eqb_eq in Hzero. exact (Hnone Hzero).
  - split; [exact Hcache2|]. split; [exact HA1 | discriminate].
Qed.

Lemma search_seeds_sound (seeds : list hit) (starting_scan : scan.t) (i : nat)
    (target : observation_target.t) (off_scans : list scan.t) :
  (forall sc scan_hits s', sc ∈ off_scans -> scan.hits sc = Returns (scan_hits, s') ->
     Forall (lasting D) scan_hits) ->
  Forall (lasting D) seeds ->
  forall (A : list (list hit)) (cache : distance_cache) (E : list event.t)
         (A' : list (list hit)) (cache' : distance_cache) (E' : list event.t),
  sound D cache -> Forall (Forall (lasting D)) A -> Forall (not_seen_in off_scans) E ->
  search_seeds seeds starting_scan i target A off_scans cache E
  = Returns (A', cache', E') ->
  sound D cache' /\ Forall (Forall (lasting D)) A' /\ Forall (not_seen_in off_scans) E'.
Proof.
  intros Hoff Hseeds.
  induction Hseeds as [|seed_hit rest Hseed _ IH];
    intros A cache E A' cache' E' Hsound HA HE; simpl.
  - intros [= <- <- <-]. auto.
  - intros Hrun. apply bind_returns in Hrun as ([[candidate A1] cache1] & Heval & Hrun).
    apply evaluate_candidate_event_sound in Heval as (Hcache1 & HA1 & Hfound);
      [|assumption..].
    apply IH in Hrun; [exact Hrun | exact Hcache1 | exact HA1 |].
    destruct candidate as [found|]; [|exact HE].
    apply Forall_app. split; [exact HE|]. constructor; [|constructor].
    apply Hfound. reflexivity.
Qed.

Lemma search_scans_sound (indices : list nat) (target : observation_target.t)
    (off_scans : list scan.t) :
  (forall sc scan_hits s', sc ∈ off_scans -> scan.hits sc = Returns (scan_hits, s') ->
     Forall (lasting D) scan_hits) ->
  forall (A : list (list hit)) (cache : distance_cache) (E : list event.t)
         (A' : list (list hit)) (cache' : distance_cache) (E' : list event.t),
  sound D cache -> Forall (Forall (lasting D)) A -> Forall (not_seen_in off_scans) E ->
  search_scans indices target A off_scans cache E = Returns (A', cache', E') ->
  Forall (not_seen_in off_scans) E'.
Proof.
  intros Hoff. induction indices as [|i rest IH];
    intros A cache E A' cache' E' Hsound HA HE; simpl.
  - intros [= <- <- <-]. exact HE.
  - intros Hrun.
    apply bind_returns in Hrun as (starting_scan & _ & Hrun).
    apply bind_returns in Hrun as (seeds & Hseeds & Hrun).
    apply vector_subscript_nat in Hseeds.
    apply bind_returns in Hrun as ([[A1 cache1] E1] & Hscan & Hrun).
    apply search_seeds_sound in Hscan as (Hcache1 & HA1 & HE1);
      [|exact Hoff|exact (proj1 (Forall_lookup _ _) HA i seeds Hseeds)|assumption..].
    apply IH in Hrun; assumption.
Qed.

Lemma preload_hits_lasting (scans : list scan.t) :
  forall on_scan_hits,
  (forall sc scan_hits s', sc ∈ scans -> scan.hits sc = Returns (scan_hits, s') ->
     Forall (lasting D) scan_hits) ->
  preload_hits scans = Returns on_scan_hits ->
  Forall (Forall (lasting D)) on_scan_hits.
Proof.
  induction scans as [|s rest IH]; intros on_scan_hits Hall; simpl.
  - intros [= <-]. constructor.
  - intros Hrun. apply bind_returns in Hrun as ([scan_hits s'] & Hhits & Hrun).
    apply bind_returns in Hrun as (later & Hlater & Hrun). injection Hrun as <-.
    constructor.
    + apply (Hall s scan_hits s'); [left | exact Hhits].
    + apply IH; [|exact Hlater]. intros sc hs s0 Hin. apply Hall. right. exact Hin.
Qed.

Lemma elem_of_off_scans_from (observations : list observation_target.t)
    (ii on_target_index : Z) (sc : scan.t) :
  sc ∈ off_scans_from observations ii on_target_index ->
  exists target, target ∈ observations /\ sc ∈ observation_target._scans target.
Proof.
  revert ii. induction observations as [|obs rest IH]; intros ii; simpl.
  - intros Hin. apply elem_of_nil in Hin. destruct Hin.
  - intros Hin. apply elem_of_app in Hin as [Hin | Hin].
    + destruct (ii =? on_target_index)%Z; [apply elem_of_nil in Hin; destruct Hin|].
      exists obs. split; [left | exact Hin].
    + apply IH in Hin as (target & Htarget & Hsc).
      exists target. split; [right; exact Htarget | exact Hsc].
Qed.

(** The second part of C3 holds of a cadence whose hits all last as long:
    every event returned is at an average distance of at least 50 from every
    hit of every OFF scan. *)
Lemma event_search_not_seen_in_off (cadence_with_hits : cadence.t)
    (events : list event.t) :
  hits_lasting D cadence_with_hits ->
  event_search cadence_with_hits = Returns events ->
  Forall (not_seen_in (extract_off_scans cadence_with_hits 0)) events.
Proof.
  intros Hall. unfold event_search. intros Hrun.
  apply bind_returns in Hrun as (target & Htarget & Hrun).
  apply (vector_subscript_nat _ 0) in Htarget.
  apply list_elem_of_lookup_2 in Htarget.
  apply bind_returns in Hrun as (on_hits & Hpreload & Hrun).
  apply bind_returns in Hrun as ([[A' cache'] E'] & Hscans & Hrun).
  injection Hrun as <-.
  apply search_scans_sound in Hscans; [exact Hscans| | | |].
  - intros sc scan_hits s' Hin Hsc.
    apply elem_of_off_scans_from in Hin as (obs & Hobs & Hin).
    exact (Hall obs sc scan_hits s' Hobs Hin Hsc).
  - constructor.
  - apply (preload_hits_lasting _ _ (fun sc hs s' Hin Hsc =>
             Hall target sc hs s' Htarget Hin Hsc) Hpreload).
  - constructor.
Qed.

End same_duration.

(** Three hits on one track in three ON scans make one event of three hits;
    a hit on the same track in an OFF scan suppresses it. *)
Example event_search_on_only :
  exists found,
    event_search on_only = Returns [found]
    /\ event.hits found = [track 0; track 1; track 2]
    /\ event.average_drift_rate_Hz_per_sec found == 1.
Proof.
  eexists. split; [vm_compute; reflexivity|]. split; reflexivity.
Qed.

Example event_search_off_rejection : event_search on_and_off = Returns [].
Proof. vm_compute. reflexivity. Qed.

(** C3 at a failing input.  [event_search] returns one event, made of the
    seed and the follower, although the fast hit of the OFF scan is at an
    average distance below 50 from its hits: the distance from the fast hit
    to the seed is answered from the cache with the distance from the seed
    to the fast hit. *)
Theorem event_returned_though_seen_in_off :
  exists found,
    event_search a_cadence = Returns [found]
    /\ event.hits found = [seed; follower]
    /\ average_distance fast (event.hits found) < 50.
Proof.
  eexists. split; [vm_compute; reflexivity|].
  split; [reflexivity|]. vm_compute. reflexivity.
Qed.

End EventSearchProps.

(** ** The order of hits: core/hit.hpp *)

Module HitOrderProps.
Import EventDistance EventDistanceProps.

Lemma items_compare_refl (l : list (Z * Z)) : items_compare l l = Eq.
Proof.
  induction l as [|[k v] l IH]; simpl; [reflexivity|].
  unfold pair_compare. simpl. rewrite !Z.compare_refl. exact IH.
Qed.

Lemma hit_eqb_compare (a b : hit) : hit_eqb a b = true -> hit_compare a b = Eq.
Proof.
  unfold hit_eqb, hit_compare. rewrite !andb_true_iff, !Z.eqb_eq, !Qeq_bool_iff.
  rewrite bool_decide_eq_true.
  intros [[[[[[[[[[[H1 H2] H3] H4] H5] H6] H7] H8] H9] H10] H11] H12].
  apply Qeq_alt in H2, H3, H4, H6, H7, H9, H10.
  rewrite H1, H5, H8, H11, H12, !Z.compare_refl, H2, H3, H4, H6, H7, H9, H10.
  simpl. apply items_compare_refl.
Qed.

(** A lexicographic comparison is transitive when its head comes from a
    total order and its tail is transitive. *)
Lemma lex_trans (c1 c2 c3 r1 r2 r3 : comparison) :
  (c1 = Eq -> c3 = c2) -> (c2 = Eq -> c3 = c1) ->
  (c1 = Lt -> c2 = Lt -> c3 = Lt) ->
  (r1 = Lt -> r2 = Lt -> r3 = Lt) ->
  lex c1 r1 = Lt -> lex c2 r2 = Lt -> lex c3 r3 = Lt.
Proof.
  intros He1 He2 Hc Hr.
  destruct c1; simpl; [| |discriminate].
  - rewrite (He1 eq_refl). destruct c2; simpl; auto.
  - destruct c2; simpl; [| |discriminate].
    + rewrite (He2 eq_refl). reflexivity.
    + rewrite (Hc eq_refl eq_refl). reflexivity.
Qed.

Lemma Zcompare_head (x y z : Z) :
  ((x ?= y) = Eq -> (x ?= z) = (y ?= z))
  /\ ((y ?= z) = Eq -> (x ?= z) = (x ?= y))
  /\ ((x ?= y) = Lt -> (y ?= z) = Lt -> (x ?= z) = Lt).
Proof.
  repeat split.
  - intros H. apply Z.compare_eq in H. subst. reflexivity.
  - intros H. apply Z.compare_eq in H. subst. reflexivity.
  - rewrite !Z.compare_lt_iff. lia.
Qed.

Lemma Qcompare_head (x y z : Q) :
  ((x ?= y)%Q = Eq -> (x ?= z)%Q = (y ?= z)%Q)
  /\ ((y ?= z)%Q = Eq -> (x ?= z)%Q = (x ?= y)%Q)
  /\ ((x ?= y)%Q = Lt -> (y ?= z)%Q = Lt -> (x ?= z)%Q = Lt).
Proof.
  repeat split.
  - intros H. apply Qeq_alt in H. rewrite H. reflexivity.
  - intros H. apply Qeq_alt in H. rewrite H. reflexivity.
  - rewrite <- !Qlt_alt. apply Qlt_trans.
Qed.

Lemma items_compare_trans (l1 l2 l3 : list (Z * Z)) :
  items_compare l1 l2 = Lt -> items_compare l2 l3 = Lt -> items_compare l1 l3 = Lt.
Proof.
  revert l2 l3.
  induction l1 as [|[k1 v1] l1 IH]; intros [|[k2 v2] l2] [|[k3 v3] l3]; simpl;
    try reflexivity; try discriminate.
  unfold pair_compare. simpl.
  destruct (Zcompare_head k1 k2 k3) as (Hk1 & Hk2 & Hk3).
  destruct (Zcompare_head v1 v2 v3) as (Hv1 & Hv2 & Hv3).
  apply lex_trans; [| | |apply IH].
  - intros H. apply lex_eq in H as [Hk Hv]. rewrite (Hk1 Hk), (Hv1 Hv). reflexivity.
  - intros H. apply lex_eq in H as [Hk Hv]. rewrite (Hk2 Hk), (Hv2 Hv). reflexivity.
  - apply lex_trans; auto.
Qed.

(** [operator<] and [operator==] of hits: of two hits exactly one orders
    before the other, or they are equal.  Both read the same twelve fields;
    [integrated_channels] and [coarse_channel_number] take no part. *)
Theorem hit_order_trichotomy (a b : hit) :
  (hit_ltb a b = true /\ hit_eqb a b = false /\ hit_ltb b a = false)
  \/ (hit_ltb a b = false /\ hit_eqb a b = true /\ hit_ltb b a = false)
  \/ (hit_ltb a b = false /\ hit_eqb a b = false /\ hit_ltb b a = true).
Proof.
  unfold hit_ltb. rewrite (hit_compare_opp a b).
  destruct (hit_eqb a b) eqn:Heq.
  - apply hit_eqb_compare in Heq. rewrite Heq. simpl. auto.
  - destruct (hit_compare a b) eqn:Hc; simpl; auto.
    apply hit_compare_eq in Hc. congruence.
Qed.

(** [operator<] of hits is transitive: with the trichotomy it is a strict
    total order up to [operator==], as the containers ordered by it need. *)
Theorem hit_ltb_transitive (a b c : hit) :
  hit_ltb a b = true -> hit_ltb b c = true -> hit_ltb a c = true.
Proof.
  unfold hit_ltb.
  destruct (hit_compare a b) eqn:Hab; try discriminate.
  destruct (hit_compare b c) eqn:Hbc; try discriminate.
  intros _ _.
  assert (hit_compare a c = Lt) as ->; [|reflexivity].
  revert Hab Hbc. unfold hit_compare.
  repeat (apply lex_trans;
          [first [apply Zcompare_head | apply Qcompare_head]
          |first [apply Zcompare_head | apply Qcompare_head]
          |first [apply Zcompare_head | apply Qcompare_head]
          |]).
  apply items_compare_trans.
Qed.

Lemma hit_ltb_transitive_witness :
  hit_ltb Scenarios.short_early Scenarios.ten_seconds = true
  /\ hit_ltb Scenarios.ten_seconds Scenarios.long_late = true
  /\ hit_ltb Scenarios.short_early Scenarios.long_late = true.
Proof.
  split; [reflexivity|]. split; [reflexivity|].
  apply (hit_ltb_transitive Scenarios.short_early Scenarios.ten_seconds
           Scenarios.long_late); reflexivity.
Defined.

Lemma hit_ltb_not_eqb (a b : hit) : hit_ltb a b = true -> hit_eqb a b = false.
Proof.
  unfold hit_ltb. intros H. destruct (hit_eqb a b) eqn:Heq; [|reflexivity].
  apply hit_eqb_compare in Heq. rewrite Heq in H. discriminate.
Qed.

(** The comparator of the distance cache, which takes a pair and its swap
    for one key, is not transitive: whenever a hit [c] lies strictly between
    [a] and [b], the key [(a, b)] orders before [(c, c)] and [(c, c)] before
    [(b, a)], yet [(a, b)] does not order before [(b, a)].  It is therefore
    not the strict weak ordering a [std::map] expects of its comparator. *)
Theorem hit_pair_comparator_not_transitive (a b c : hit) :
  hit_ltb a c = true -> hit_ltb c b = true ->
  hit_pair_comparator (a, b) (c, c) = true
  /\ hit_pair_comparator (c, c) (b, a) = true
  /\ hit_pair_comparator (a, b) (b, a) = false.
Proof.
  intros Hac Hcb. unfold hit_pair_comparator, hit_pair_ltb. simpl.
  rewrite (hit_eqb_sym c a), !(hit_ltb_not_eqb a c Hac), !(hit_ltb_not_eqb c b Hcb).
  rewrite Hac, Hcb, !hit_eqb_refl. simpl.
  destruct (hit_eqb a b && hit_eqb b a); auto.
Qed.

Lemma hit_pair_comparator_not_transitive_witness :
  hit_ltb Scenarios.short_early Scenarios.ten_seconds = true
  /\ hit_ltb Scenarios.ten_seconds Scenarios.long_late = true
  /\ hit_pair_comparator (Scenarios.short_early, Scenarios.long_late)
       (Scenarios.ten_seconds, Scenarios.ten_seconds) = true
  /\ hit_pair_comparator (Scenarios.ten_seconds, Scenarios.ten_seconds)
       (Scenarios.long_late, Scenarios.short_early) = true
  /\ hit_pair_comparator (Scenarios.short_early, Scenarios.long_late)
       (Scenarios.long_late, Scenarios.short_early) = false.
Proof.
  split; [reflexivity|]. split; [reflexivity|].
  apply (hit_pair_comparator_not_transitive Scenarios.short_early Scenarios.long_late
           Scenarios.ten_seconds); reflexivity.
Defined.

End HitOrderProps.

(** ** The distance between hits as a measure *)

Module DistanceMeasureProps.
Import EventDistance EventDistanceProps.

Local Open Scope Q_scope.

Lemma drift_error_nonneg (a b : hit) : 0 <= drift_error a b.
Proof.
  unfold drift_error.
  destruct (Qlt_le_dec (drift_difference a b) 0) as [Hneg | Hpos].
  - setoid_replace (drift_difference a b * drift_difference a b)
      with ((- drift_difference a b) * (- drift_difference a b))
      using relation Qeq by ring.
    apply Qmult_le_0_compat; lra.
  - apply Qmult_le_0_compat; assumption.
Qed.

Lemma drift_error_self (a : hit) : drift_error a a == 0.
Proof.
  unfold drift_error, drift_difference.
  setoid_replace (drift_rate_Hz_per_sec a - drift_rate_Hz_per_sec a) with 0
    using relation Qeq by ring.
  change (Qabs 0) with 0. unfold Qdiv. ring.
Qed.

Lemma drift_error_swap (a b : hit) : drift_error a b == drift_error b a.
Proof.
  unfold drift_error, drift_difference.
  rewrite (Qabs_Qminus (drift_rate_Hz_per_sec a)).
  assert (Hden : eps + drift_rate_Hz_per_sec a * drift_rate_Hz_per_sec a
                 + drift_rate_Hz_per_sec b * drift_rate_Hz_per_sec b
                 == eps + drift_rate_Hz_per_sec b * drift_rate_Hz_per_sec b
                    + drift_rate_Hz_per_sec a * drift_rate_Hz_per_sec a) by ring.
  rewrite Hden. reflexivity.
Qed.

(** The distance is never negative, it is at least a hundredth of the
    difference of the two frequencies at the rendezvous (so a distance below
    the threshold of 50 means frequencies less than 5 kHz apart), and a hit
    is at distance zero from itself. *)
Theorem distance_func_measure (a b : hit) :
  0 <= distance_func a b
  /\ (1 # 100) * rendezvous_frequency_difference a b <= distance_func a b
  /\ distance_func a a == 0.
Proof.
  assert (Hfreq : 0 <= rendezvous_frequency_difference a b) by apply Qabs_nonneg.
  assert (Hdrift := drift_error_nonneg a b).
  assert (Hlow : (1 # 100) * rendezvous_frequency_difference a b <= distance_func a b).
  { unfold distance_func, freq_localization_weight, drift_error_weight,
      snr_difference_weight. lra. }
  repeat split.
  - lra.
  - exact Hlow.
  - unfold distance_func. rewrite drift_error_self.
    unfold rendezvous_frequency_difference, a_rendezvous_frequency,
      b_rendezvous_frequency, a_time_to_rendezvous, b_time_to_rendezvous,
      snr_difference, snr_difference_weight.
    setoid_replace (start_freq_MHz a * inject_Z (10 ^ 6)
                    + drift_rate_Hz_per_sec a * (rendezvous_time a a - start_time_sec a)
                    - (start_freq_MHz a * inject_Z (10 ^ 6)
                       + drift_rate_Hz_per_sec a
                         * (rendezvous_time a a - start_time_sec a)))
      with 0 using relation Qeq by ring.
    change (Qabs 0) with 0. ring.
Qed.

(** The distance does not depend on the order of its arguments when the two
    hits last equally long, or drift at the same rate: the rendezvous time,
    the one quantity that reads the duration of the second hit only, then is
    the same either way or cancels out. *)
Theorem distance_func_symmetric_when (a b : hit) :
  duration_sec a == duration_sec b
  \/ drift_rate_Hz_per_sec a == drift_rate_Hz_per_sec b ->
  distance_func a b == distance_func b a.
Proof.
  intros [Hd | Hr]; [apply distance_func_symmetric, Hd|].
  unfold distance_func. rewrite (drift_error_swap a b).
  unfold snr_difference. rewrite (Qabs_Qminus (snr a)).
  assert (Hf : rendezvous_frequency_difference a b
               == rendezvous_frequency_difference b a).
  { unfold rendezvous_frequency_difference, a_rendezvous_frequency,
      b_rendezvous_frequency, a_time_to_rendezvous, b_time_to_rendezvous.
    rewrite Hr.
    rewrite <- (Qabs_opp (start_freq_MHz b * _ + _ - _)).
    apply Qabs_wd. ring. }
  rewrite Hf. reflexivity.
Qed.

Lemma distance_func_symmetric_when_witness :
  (duration_sec Scenarios.long_late == duration_sec Scenarios.short_early
   \/ drift_rate_Hz_per_sec Scenarios.long_late
      == drift_rate_Hz_per_sec Scenarios.short_early)
  /\ ~ duration_sec Scenarios.long_late == duration_sec Scenarios.short_early
  /\ distance_func Scenarios.long_late Scenarios.short_early
     == distance_func Scenarios.short_early Scenarios.long_late.
Proof.
  split; [right; reflexivity|]. split; [vm_compute; discriminate|].
  apply (distance_func_symmetric_when Scenarios.long_late Scenarios.short_early).
  right. reflexivity.
Defined.

End DistanceMeasureProps.

(** ** Reading coarse channels: cache, pipeline and slices *)

Module ScanReadProps.
Import HitFilterStages.

Lemma apply_pipeline_app (p q : list scan.transform_stage) (cc : coarse_channel.t) :
  scan.apply_pipeline (p ++ q) cc
  = (transformed ← scan.apply_pipeline p cc; scan.apply_pipeline q transformed).
Proof.
  revert cc. induction p as [|f p IH]; intros cc; simpl; [reflexivity|].
  destruct (f cc) as [cc'| |]; simpl; [apply IH|reflexivity|reflexivity].
Qed.

Lemma load_coarse_channel_added_transform (transform : scan.transform_stage)
    (s : scan.t) (index global : Z) :
  scan.load_coarse_channel (scan.add_coarse_channel_transform transform s) index global
  = (s' ← scan.load_coarse_channel s index global;
     mret (scan.add_coarse_channel_transform transform s')).
Proof.
  unfold scan.load_coarse_channel. simpl.
  destruct (scan._data_source s) as [ds|]; [|reflexivity].
  destruct (length (get_data_shape ds) <? 3)%nat; [reflexivity|].
  destruct (vector_subscript _ 0) as [n| |]; simpl; [|reflexivity|reflexivity].
  destruct (read_data ds _ _) as [[]| |]; simpl; [|reflexivity|reflexivity].
  destruct (read_mask ds _ _) as [[]| |]; simpl; reflexivity.
Qed.

(** A transform added to a scan is applied last to every channel read: a
    read of the scan with the transform is a read of the scan without it,
    followed by the transform; the cache holds the same channels either
    way. *)
Lemma read_coarse_channel_added_transform (transform : scan.transform_stage)
    (s : scan.t) (index : Z) :
  scan.read_coarse_channel (scan.add_coarse_channel_transform transform s) index
  = ('(cc, s') ← scan.read_coarse_channel s index;
     transformed ← transform cc;
     mret (transformed, scan.add_coarse_channel_transform transform s')).
Proof.
  unfold scan.read_coarse_channel.
  change (scan.invalid_coarse_channel (scan.add_coarse_channel_transform transform s) index)
    with (scan.invalid_coarse_channel s index).
  destruct (scan.invalid_coarse_channel s index); [reflexivity|].
  change (scan._coarse_channel_offset (scan.add_coarse_channel_transform transform s))
    with (scan._coarse_channel_offset s).
  change (scan._coarse_channels (scan.add_coarse_channel_transform transform s))
    with (scan._coarse_channels s).
  set (global := (index + scan._coarse_channel_offset s)%Z).
  assert (Hread : forall s1 : scan.t,
    match scan._coarse_channels (scan.add_coarse_channel_transform transform s1) !! global with
    | None => Throws out_of_range
    | Some cc =>
        transformed_cc ← scan.apply_pipeline
          (scan._coarse_channel_pipeline (scan.add_coarse_channel_transform transform s1)) cc;
        mret (transformed_cc, scan.add_coarse_channel_transform transform s1)
    end
    = ('(cc, s') ← match scan._coarse_channels s1 !! global with
                   | None => Throws out_of_range
                   | Some cc =>
                       transformed_cc ← scan.apply_pipeline
                                        (scan._coarse_channel_pipeline s1) cc;
                       mret (transformed_cc, s1)
                   end;
       transformed ← transform cc;
       mret (transformed, scan.add_coarse_channel_transform transform s'))).
  { intros s1. simpl.
    destruct (scan._coarse_channels s1 !! global) as [cc|]; [|reflexivity].
    rewrite apply_pipeline_app.
    destruct (scan.apply_pipeline (scan._coarse_channel_pipeline s1) cc) as [t| |];
      simpl; [|reflexivity|reflexivity].
    destruct (transform t); reflexivity. }
  destruct (scan._coarse_channels s !! global) as [cc|] eqn:Hcached.
  - simpl. rewrite Hcached. specialize (Hread s). simpl in Hread.
    rewrite Hcached in Hread. exact Hread.
  - rewrite load_coarse_channel_added_transform.
    destruct (scan.load_coarse_channel s index global) as [s1| |]; simpl;
      [|reflexivity|reflexivity].
    apply (Hread s1).
Qed.

Lemma load_coarse_channel_returns (s s1 : scan.t) (index global : Z) :
  scan.load_coarse_channel s index global = Returns s1 ->
  exists new_coarse,
    s1 = scan.with_coarse_channels (<[global := new_coarse]> (scan._coarse_channels s)) s.
Proof.
  unfold scan.load_coarse_channel.
  destruct (scan._data_source s) as [ds|]; [|discriminate].
  destruct (length (get_data_shape ds) <? 3)%nat; [discriminate|].
  destruct (vector_subscript _ 0) as [n| |]; simpl; [|discriminate|discriminate].
  destruct (read_data ds _ _) as [[]| |]; simpl; [|discriminate|discriminate].
  destruct (read_mask ds _ _) as [[]| |]; simpl; [|discriminate|discriminate].
  intros [= <-]. eexists. reflexivity.
Qed.

(** A read of a cached channel: the pipeline is applied to the channel in
    the cache, and the scan is left as it is. *)
Lemma read_coarse_channel_cached (s : scan.t) (index : Z) (raw : coarse_channel.t) :
  scan.invalid_coarse_channel s index = false ->
  scan._coarse_channels s !! (index + scan._coarse_channel_offset s)%Z = Some raw ->
  scan.read_coarse_channel s index
  = (transformed_cc ← scan.apply_pipeline (scan._coarse_channel_pipeline s) raw;
     mret (transformed_cc, s))
  /\ scan.peak_coarse_channel s index
     = (transformed_cc ← scan.apply_pipeline (scan._coarse_channel_pipeline s) raw;
        mret (Some transformed_cc)).
Proof.
  intros Hguard Hcached. unfold scan.read_coarse_channel, scan.peak_coarse_channel.
  rewrite Hguard, Hcached. simpl. rewrite Hcached. split; reflexivity.
Qed.

(** A read that returns: the channel returned is the pipeline's image of a
    channel that is in the cache afterwards, and the scan is unchanged or has
    that one channel more. *)
Lemma read_coarse_channel_returns (s s' : scan.t) (index : Z) (cc : coarse_channel.t) :
  scan.read_coarse_channel s index = Returns (cc, s') ->
  scan.invalid_coarse_channel s index = false
  /\ exists raw,
       scan._coarse_channels s' !! (index + scan._coarse_channel_offset s)%Z = Some raw
       /\ scan.apply_pipeline (scan._coarse_channel_pipeline s) raw = Returns cc
       /\ (s' = s
           \/ scan._coarse_channels s !! (index + scan._coarse_channel_offset s)%Z = None
              /\ s' = scan.with_coarse_channels
                        (<[(index + scan._coarse_channel_offset s)%Z := raw]>
                           (scan._coarse_channels s)) s).
Proof.
  unfold scan.read_coarse_channel.
  destruct (scan.invalid_coarse_channel s index) eqn:Hguard; [discriminate|].
  split; [reflexivity|].
  destruct (scan._coarse_channels s !! (index + scan._coarse_channel_offset s)%Z)
    as [raw|] eqn:Hcached; simpl in H.
  - rewrite Hcached in H.
    destruct (scan.apply_pipeline (scan._coarse_channel_pipeline s) raw) as [t| |] eqn:Hp;
      simpl in H; [|discriminate|discriminate].
    injection H as <- <-. exists raw. auto.
  - destruct (scan.load_coarse_channel s index _) as [s1| |] eqn:Hload;
      simpl in H; [|discriminate|discriminate].
    apply load_coarse_channel_returns in Hload as [raw ->]. simpl in H.
    rewrite lookup_insert_eq in H.
    destruct (scan.apply_pipeline (scan._coarse_channel_pipeline s) raw) as [t| |] eqn:Hp;
      simpl in H; [|discriminate|discriminate].
    injection H as <- <-. exists raw. simpl. rewrite lookup_insert_eq. auto.
Qed.

(** A channel that was read stays in the cache: after a read that returns,
    the same read returns the same channel without changing the scan
    further, and a peak finds the channel.  A read changes nothing of the
    scan but its cache, and takes no channel out of it. *)
Theorem read_coarse_channel_caches (s s' : scan.t) (index : Z) (cc : coarse_channel.t) :
  scan.read_coarse_channel s index = Returns (cc, s') ->
  scan.read_coarse_channel s' index = Returns (cc, s')
  /\ scan.peak_coarse_channel s' index = Returns (Some cc)
  /\ s' = scan.with_coarse_channels (scan._coarse_channels s') s
  /\ forall k c, scan._coarse_channels s !! k = Some c ->
                 scan._coarse_channels s' !! k = Some c.
Proof.
  intros H. apply read_coarse_channel_returns in H as (Hguard & raw & Hraw & Hp & Hs').
  assert (Hsame : s' = scan.with_coarse_channels (scan._coarse_channels s') s).
  { destruct Hs' as [-> | [_ ->]]; [destruct s|]; reflexivity. }
  assert (Hoff : scan._coarse_channel_offset s' = scan._coarse_channel_offset s)
    by (rewrite Hsame; reflexivity).
  assert (Hpipe : scan._coarse_channel_pipeline s' = scan._coarse_channel_pipeline s)
    by (rewrite Hsame; reflexivity).
  assert (Hguard' : scan.invalid_coarse_channel s' index = false)
    by (rewrite Hsame; exact Hguard).
  destruct (read_coarse_channel_cached s' index raw Hguard') as [Hread Hpeak].
  { rewrite Hoff. exact Hraw. }
  rewrite Hread, Hpeak, Hpipe, Hp. simpl.
  repeat split; try reflexivity; [exact Hsame|].
  intros k c Hk. destruct Hs' as [-> | [Hnone ->]]; [exact Hk|]. simpl.
  rewrite lookup_insert_ne; [exact Hk|]. intros <-. congruence.
Qed.

Lemma read_coarse_channel_caches_witness :
  exists cc s',
    scan.read_coarse_channel Scenarios.unread_scan 1 = Returns (cc, s')
    /\ scan.read_coarse_channel s' 1 = Returns (cc, s')
    /\ scan.peak_coarse_channel s' 1 = Returns (Some cc).
Proof.
  eexists _, _. split; [reflexivity|].
  destruct (read_coarse_channel_caches Scenarios.unread_scan _ 1 _ eq_refl)
    as (H1 & H2 & _).
  split; [exact H1|exact H2].
Defined.

End ScanReadProps.

(** ** The hits of a scan, and the filter as a stage of its pipeline *)

Module ScanHitsProps.
Import HitFilter HitFilterStages ScanReadProps.

Lemma remove_if_app (pred : hit -> bool * hit) (l1 l2 : list hit) :
  remove_if pred (l1 ++ l2) = remove_if pred l1 ++ remove_if pred l2.
Proof.
  induction l1 as [|h l1 IH]; simpl; [reflexivity|].
  destruct (pred h) as [[] h']; rewrite IH; reflexivity.
Qed.

Lemma filter_hits_app (options : filter_options) (l1 l2 : list hit) :
  filter_hits (l1 ++ l2) options = filter_hits l1 options ++ filter_hits l2 options.
Proof. apply remove_if_app. Qed.

Lemma reads_as_reads (s : scan.t) (transformed : list coarse_channel.t) :
  scan.reads_as s transformed ->
  Forall2 (fun index cc => scan.read_coarse_channel s index = Returns (cc, s))
    (seqZ 0 (scan.get_number_coarse_channels s)) transformed.
Proof.
  intros [Hnum Hcached]. unfold scan.get_number_coarse_channels. rewrite Hnum.
  apply Forall2_same_length_lookup_2.
  - rewrite length_seqZ. lia.
  - intros i index cc Hindex Hcc.
    apply lookup_seqZ in Hindex as [-> Hi].
    destruct (Hcached i cc Hcc) as (raw & Hraw & Hpipeline).
    destruct (read_coarse_channel_cached s (0 + Z.of_nat i) raw) as [Hread _].
    + unfold scan.invalid_coarse_channel. rewrite Hnum. lia.
    + rewrite Z.add_0_l. exact Hraw.
    + rewrite Hread, Hpipeline. reflexivity.
Qed.

Lemma collect_hits_cached (s : scan.t) (indices : list Z)
    (transformed : list coarse_channel.t) :
  Forall2 (fun index cc => scan.read_coarse_channel s index = Returns (cc, s))
    indices transformed ->
  forall all_hits,
    scan.collect_hits indices s all_hits
    = Returns (all_hits
               ++ concat (map (fun cc => from_option force [] (coarse_channel._hits cc))
                            transformed), s).
Proof.
  induction 1 as [|index cc indices transformed Hread _ IH]; intros all_hits; simpl.
  - rewrite app_nil_r. reflexivity.
  - rewrite Hread. simpl. unfold coarse_channel.hits.
    destruct (coarse_channel._hits cc) as [h|]; simpl.
    + rewrite IH, app_assoc. reflexivity.
    + apply IH.
Qed.

(** [scan::hits] on a scan whose channels are all in the cache: the hits of
    the channels in the order of their indices, a channel without hits
    contributing none (its [std::logic_error] is caught), and the scan is left
    as it was. *)
Theorem scan_hits_cached (s : scan.t) (transformed : list coarse_channel.t) :
  scan.reads_as s transformed ->
  scan.hits s
  = Returns (concat (map (fun cc => from_option force [] (coarse_channel._hits cc))
                       transformed), s).
Proof.
  intros H. unfold scan.hits.
  rewrite (collect_hits_cached s _ transformed (reads_as_reads s transformed H)).
  reflexivity.
Qed.

Lemma half_searched_reads_as :
  scan.reads_as Scenarios.half_searched
    [Scenarios.channel_with_hits 0 0 [Scenarios.drift1]; Scenarios.channel_without_hits 1].
Proof.
  split; [reflexivity|].
  intros [|[|i]] cc; simpl; intros [= <-]; eexists; split; reflexivity.
Defined.

Lemma scan_hits_cached_witness :
  scan.hits Scenarios.half_searched = Returns ([Scenarios.drift1], Scenarios.half_searched).
Proof.
  exact (scan_hits_cached Scenarios.half_searched _ half_searched_reads_as).
Defined.

Lemma collect_hits_filtered (options : filter_options) (indices : list Z) :
  forall (s : scan.t) (all_hits filtered : list hit) (s_filtered : scan.t),
  scan.collect_hits indices (filter_hits_scan s options) (filter_hits all_hits options)
  = Returns (filtered, s_filtered) ->
  exists found s',
    scan.collect_hits indices s all_hits = Returns (found, s')
    /\ filtered = filter_hits found options
    /\ s_filtered = filter_hits_scan s' options.
Proof.
  induction indices as [|index indices IH]; intros s all_hits filtered s_filtered; simpl.
  - intros [= <- <-]. eauto.
  - unfold filter_hits_scan at 1. rewrite read_coarse_channel_added_transform.
    destruct (scan.read_coarse_channel s index) as [[cc s1]| |]; simpl;
      [|discriminate|discriminate].
    unfold filter_hits_coarse_channel, coarse_channel.has_hits, coarse_channel.hits.
    destruct (coarse_channel._hits cc) as [h|]; simpl; [|discriminate].
    rewrite <- filter_hits_app. apply IH.
Qed.

(** Filtering a scan and then collecting its hits gives the filter of the
    hits collected from the scan: whenever [hits()] of the filtered scan
    returns, [hits()] of the scan returns too, and the former's hits are
    [filter_hits] of the latter's. *)
Theorem filter_hits_scan_hits (s s_filtered : scan.t) (options : filter_options)
    (filtered : list hit) :
  scan.hits (filter_hits_scan s options) = Returns (filtered, s_filtered) ->
  exists found s',
    scan.hits s = Returns (found, s')
    /\ filtered = filter_hits found options
    /\ s_filtered = filter_hits_scan s' options.
Proof.
  unfold scan.hits. intros H.
  apply (collect_hits_filtered options _ s [] filtered s_filtered H).
Qed.

Lemma filter_hits_scan_hits_witness :
  exists found s',
    scan.hits (Scenarios.scan_with_hits 0 16 [Scenarios.still; Scenarios.drift1])
    = Returns (found, s')
    /\ [Scenarios.drift1] = filter_hits found Scenarios.only_zero_drift.
Proof.
  destruct (filter_hits_scan_hits
              (Scenarios.scan_with_hits 0 16 [Scenarios.still; Scenarios.drift1])
              _ Scenarios.only_zero_drift [Scenarios.drift1] eq_refl)
    as (found & s' & Hfound & Hfiltered & _).
  exists found, s'. split; assumption.
Defined.

Lemma collect_hits_filtered_throws (options : filter_options) (s : scan.t)
    (indices : list Z) (transformed : list coarse_channel.t) :
  Forall2 (fun index cc => scan.read_coarse_channel s index = Returns (cc, s))
    indices transformed ->
  Exists (fun cc => coarse_channel.has_hits cc = false) transformed ->
  forall all_hits,
    scan.collect_hits indices (filter_hits_scan s options) all_hits
    = Throws invalid_argument.
Proof.
  induction 1 as [|index cc indices transformed Hread _ IH]; intros Hsome all_hits.
  - inversion Hsome.
  - simpl. unfold filter_hits_scan at 1. rewrite read_coarse_channel_added_transform.
    rewrite Hread. simpl.
    unfold filter_hits_coarse_channel.
    destruct (coarse_channel.has_hits cc) eqn:Hhas; [|reflexivity].
    assert (Hrest : Exists (fun cc => coarse_channel.has_hits cc = false) transformed)
      by (inversion Hsome; subst; [congruence|assumption]).
    unfold coarse_channel.has_hits, coarse_channel.hits in *.
    destruct (coarse_channel._hits cc) as [h|]; [|discriminate]. simpl.
    apply IH, Hrest.
Qed.

(** The filter as a stage makes [hits()] fail where it used to skip: on a
    scan with all channels in the cache, one of which has no hits, [hits()]
    of the filtered scan throws the [std::invalid_argument] of the stage (the
    read is outside the [try]), while [hits()] of the scan itself returns the
    hits of the other channels. *)
Theorem filter_hits_scan_without_hits (s : scan.t) (options : filter_options)
    (transformed : list coarse_channel.t) :
  scan.reads_as s transformed ->
  Exists (fun cc => coarse_channel.has_hits cc = false) transformed ->
  scan.hits (filter_hits_scan s options) = Throws invalid_argument
  /\ exists found, scan.hits s = Returns (found, s).
Proof.
  intros Hreads Hsome. split.
  - unfold scan.hits.
    apply (collect_hits_filtered_throws options s _ transformed); [|exact Hsome].
    apply (reads_as_reads s transformed Hreads).
  - eexists. unfold scan.hits.
    rewrite (collect_hits_cached s _ transformed (reads_as_reads s transformed Hreads)).
    reflexivity.
Qed.

Lemma filter_hits_scan_without_hits_witness :
  scan.hits (filter_hits_scan Scenarios.half_searched default_filter_options)
  = Throws invalid_argument
  /\ exists found,
       scan.hits Scenarios.half_searched = Returns (found, Scenarios.half_searched).
Proof.
  apply (filter_hits_scan_without_hits Scenarios.half_searched default_filter_options
           [Scenarios.channel_with_hits 0 0 [Scenarios.drift1];
            Scenarios.channel_without_hits 1]).
  - exact half_searched_reads_as.
  - right. left. reflexivity.
Defined.

End ScanHitsProps.

(** ** Hit search and hit filter as stages of one pipeline *)

Module StagesProps.
Import HitFilter HitFilterStages HitSearchStages ScanReadProps.

Section stages.

Variable protohit_search :
  frequency_drift_plane.t -> noise_stats -> HitSearch.hit_search_options -> list protohit.
Variable indeterminate : hit.

(** The order of the stages decides what a read returns.  With the search
    registered first and the filter second, a read returns the channel with
    the filtered hits of the search.  With the filter registered first, a read
    throws [std::invalid_argument] on a channel that has no hits yet, and
    otherwise returns the channel with all the hits of the search: the filter
    has run on hits the search then replaces. *)
Theorem read_searched_and_filtered (s : scan.t)
    (search_options : HitSearch.hit_search_options) (options : filter_options)
    (index : Z) :
  scan.read_coarse_channel
    (filter_hits_scan
       (hit_search_scan protohit_search indeterminate s search_options) options) index
  = ('(cc, s') ← scan.read_coarse_channel s index;
     hits ← HitSearch.hit_search protohit_search indeterminate cc search_options;
     mret (coarse_channel.set_hits (filter_hits hits options) cc,
           filter_hits_scan
             (hit_search_scan protohit_search indeterminate s' search_options) options))
  /\ scan.read_coarse_channel
       (hit_search_scan protohit_search indeterminate
          (filter_hits_scan s options) search_options) index
     = ('(cc, s') ← scan.read_coarse_channel s index;
        if coarse_channel.has_hits cc then
          hits ← HitSearch.hit_search protohit_search indeterminate cc search_options;
          mret (coarse_channel.set_hits hits cc,
                hit_search_scan protohit_search indeterminate
                  (filter_hits_scan s' options) search_options)
        else Throws invalid_argument).
Proof.
  split.
  - unfold filter_hits_scan, hit_search_scan.
    rewrite !read_coarse_channel_added_transform.
    destruct (scan.read_coarse_channel s index) as [[cc s']| |]; simpl;
      [|reflexivity|reflexivity].
    unfold attach_hits.
    destruct (HitSearch.hit_search protohit_search indeterminate cc search_options)
      as [hits| |]; reflexivity.
  - unfold filter_hits_scan, hit_search_scan.
    rewrite !read_coarse_channel_added_transform.
    destruct (scan.read_coarse_channel s index) as [[cc s']| |]; simpl;
      [|reflexivity|reflexivity].
    unfold filter_hits_coarse_channel, coarse_channel.has_hits, coarse_channel.hits.
    destruct (coarse_channel._hits cc) as [h|]; simpl; [|reflexivity].
    unfold attach_hits.
    change (HitSearch.hit_search protohit_search indeterminate
              (coarse_channel.set_hits (filter_hits (force h) options) cc) search_options)
      with (HitSearch.hit_search protohit_search indeterminate cc search_options).
    destruct (HitSearch.hit_search protohit_search indeterminate cc search_options)
      as [hits| |]; reflexivity.
Qed.

End stages.

End StagesProps.

(** ** Slices of a scan and the channel of a frequency *)

Module ScanSliceProps.
Import ScanReadProps.

Local Open Scope Q_scope.

(** The channel a load builds and inserts. *)
Lemma load_coarse_channel_channel (s s1 : scan.t) (index global : Z) :
  scan.load_coarse_channel s index global = Returns s1 ->
  exists raw ds,
    s1 = scan.with_coarse_channels (<[global := raw]> (scan._coarse_channels s)) s
    /\ scan._data_source s = Some ds
    /\ get_data_shape ds !! 0%nat = Some (scan_metadata.ntsteps (coarse_channel._meta raw))
    /\ coarse_channel._coarse_channel_number raw = global
    /\ coarse_channel.fch1 raw
       = scan.fch1 s + scan.foff s * inject_Z (scan._fine_channels_per_coarse s * index)
    /\ coarse_channel.foff raw = scan.foff s
    /\ coarse_channel.tsamp raw = scan.tsamp s
    /\ coarse_channel.tstart raw = scan.tstart s
    /\ scan_metadata.nchans (coarse_channel._meta raw) = scan._fine_channels_per_coarse s
    /\ coarse_channel._noise_stats raw = None
    /\ coarse_channel._integrated_drift_plane raw = None
    /\ coarse_channel._hits raw = None.
Proof.
  unfold scan.load_coarse_channel.
  destruct (scan._data_source s) as [ds|]; [|discriminate].
  destruct (length (get_data_shape ds) <? 3)%nat eqn:Hshape; [discriminate|].
  destruct (vector_subscript _ 0) as [n| |] eqn:Hn; simpl; [|discriminate|discriminate].
  destruct (read_data ds _ _) as [[]| |]; simpl; [|discriminate|discriminate].
  destruct (read_mask ds _ _) as [[]| |]; simpl; [|discriminate|discriminate].
  intros [= <-]. eexists _, ds. split; [reflexivity|]. split; [reflexivity|].
  split; [|repeat split].
  apply (vector_subscript_nat _ 0%nat) in Hn.
  rewrite list_lookup_insert_ne in Hn by discriminate. exact Hn.
Qed.

(** A slice shows the channels of its parent under shifted indices: when
    index [i] of the slice of [s] from [start] and index [start + i] of [s]
    are both read, with no transform registered or with the channel already in
    the cache of [s], the two channels have the same number in the file, the
    same start frequency, the same resolutions, start time and shape, and the
    same products. *)
Theorem slice_scan_channels_read (s s1 s2 : scan.t) (start count index : Z)
    (cc1 cc2 : coarse_channel.t) :
  scan._coarse_channel_pipeline s = []
  \/ is_Some (scan._coarse_channels s !! (start + index + scan._coarse_channel_offset s)%Z) ->
  scan.read_coarse_channel (scan.slice_scan_channels s start count) index
  = Returns (cc1, s1) ->
  scan.read_coarse_channel s (start + index) = Returns (cc2, s2) ->
  coarse_channel._coarse_channel_number cc1 = coarse_channel._coarse_channel_number cc2
  /\ coarse_channel.fch1 cc1 == coarse_channel.fch1 cc2
  /\ coarse_channel.foff cc1 = coarse_channel.foff cc2
  /\ coarse_channel.tsamp cc1 = coarse_channel.tsamp cc2
  /\ coarse_channel.tstart cc1 = coarse_channel.tstart cc2
  /\ scan_metadata.nchans (coarse_channel._meta cc1)
     = scan_metadata.nchans (coarse_channel._meta cc2)
  /\ scan_metadata.ntsteps (coarse_channel._meta cc1)
     = scan_metadata.ntsteps (coarse_channel._meta cc2)
  /\ coarse_channel._noise_stats cc1 = coarse_channel._noise_stats cc2
  /\ coarse_channel._integrated_drift_plane cc1 = coarse_channel._integrated_drift_plane cc2
  /\ coarse_channel._hits cc1 = coarse_channel._hits cc2.
Proof.
  intros Hcase Hslice Hparent.
  assert (Hkey : (index + scan._coarse_channel_offset (scan.slice_scan_channels s start count)
                  = start + index + scan._coarse_channel_offset s)%Z) by (simpl; lia).
  set (global := (start + index + scan._coarse_channel_offset s)%Z) in *.
  unfold scan.read_coarse_channel in Hslice, Hparent.
  destruct (scan.invalid_coarse_channel _ index); [discriminate|].
  destruct (scan.invalid_coarse_channel s _); [discriminate|].
  rewrite Hkey in Hslice. fold global in Hparent.
  change (scan._coarse_channels (scan.slice_scan_channels s start count))
    with (scan._coarse_channels s) in Hslice.
  destruct (scan._coarse_channels s !! global) as [raw|] eqn:Hcached.
  - simpl in Hslice, Hparent. rewrite Hcached in Hslice, Hparent.
    change (scan._coarse_channel_pipeline (scan.slice_scan_channels s start count))
      with (scan._coarse_channel_pipeline s) in Hslice.
    destruct (scan.apply_pipeline (scan._coarse_channel_pipeline s) raw) as [t| |];
      [|discriminate|discriminate].
    injection Hslice as <- _. injection Hparent as <- _.
    repeat split; reflexivity.
  - destruct Hcase as [Hnone | [raw Hraw]]; [|congruence].
    apply bind_returns in Hslice as (t1 & Hload1 & Hslice).
    apply bind_returns in Hparent as (t2 & Hload2 & Hparent).
    apply load_coarse_channel_channel in Hload1
      as (raw1 & ds1 & -> & Hds1 & Hsteps1 & Hnumber1 & Hfch1 & Hfoff1 & Htsamp1 & Htstart1
          & Hnchans1 & Hnoise1 & Hplane1 & Hhits1).
    apply load_coarse_channel_channel in Hload2
      as (raw2 & ds2 & -> & Hds2 & Hsteps2 & Hnumber2 & Hfch2 & Hfoff2 & Htsamp2 & Htstart2
          & Hnchans2 & Hnoise2 & Hplane2 & Hhits2).
    simpl in Hslice, Hparent. rewrite lookup_insert_eq in Hslice, Hparent.
    rewrite Hnone in Hslice, Hparent. simpl in Hslice, Hparent.
    injection Hslice as <- _. injection Hparent as <- _.
    simpl in Hds1. rewrite Hds2 in Hds1. injection Hds1 as <-.
    rewrite Hnumber1, Hnumber2, Hfch1, Hfch2, Hfoff1, Hfoff2, Htsamp1, Htsamp2,
      Htstart1, Htstart2, Hnchans1, Hnchans2, Hnoise1, Hnoise2, Hplane1, Hplane2,
      Hhits1, Hhits2.
    repeat split; try reflexivity.
    + unfold scan.fch1, scan.foff, scan.slice_scan_channels.
      cbn [scan._meta scan_metadata.fch1 scan_metadata.foff scan._fine_channels_per_coarse].
      unfold scan.fch1, scan.foff.
      rewrite !inject_Z_mult, inject_Z_plus. ring.
    + congruence.
Qed.

Lemma slice_scan_channels_read_witness :
  exists cc1 s1 cc2 s2,
    scan.read_coarse_channel (scan.slice_scan_channels Scenarios.unread_scan 1 1) 0
    = Returns (cc1, s1)
    /\ scan.read_coarse_channel Scenarios.unread_scan 1 = Returns (cc2, s2)
    /\ coarse_channel._coarse_channel_number cc1 = 1%Z
    /\ coarse_channel._coarse_channel_number cc2 = 1%Z
    /\ coarse_channel.fch1 cc1 == coarse_channel.fch1 cc2.
Proof.
  eexists _, _, _, _. split; [reflexivity|]. split; [reflexivity|].
  split; [reflexivity|]. split; [reflexivity|].
  destruct (slice_scan_channels_read Scenarios.unread_scan _ _ 1 1 0 _ _
              (or_introl eq_refl) eq_refl eq_refl) as (_ & Hfch1 & _).
  exact Hfch1.
Defined.

(** Slices compose: a slice from [b] of a slice from [a] is the slice from
    [a + b], in every member, the start frequencies being equal as numbers.
    With the count [-1] (up to the last channel) this needs the first slice
    to reach the last channel too. *)
Theorem slice_scan_channels_twice (s : scan.t) (a c b d : Z) :
  d <> (-1)%Z \/ c = (-1)%Z ->
  let twice := scan.slice_scan_channels (scan.slice_scan_channels s a c) b d in
  let once := scan.slice_scan_channels s (a + b) d in
  scan._coarse_channel_offset twice = scan._coarse_channel_offset once
  /\ scan._num_coarse_channels twice = scan._num_coarse_channels once
  /\ scan.nchans twice = scan.nchans once
  /\ scan.fch1 twice == scan.fch1 once
  /\ scan.foff twice = scan.foff once
  /\ scan.tsamp twice = scan.tsamp once
  /\ scan.tstart twice = scan.tstart once
  /\ scan.ntsteps twice = scan.ntsteps once
  /\ scan._fine_channels_per_coarse twice = scan._fine_channels_per_coarse once
  /\ scan._coarse_channels twice = scan._coarse_channels once
  /\ scan._coarse_channel_pipeline twice = scan._coarse_channel_pipeline once
  /\ scan._data_source twice = scan._data_source once
  /\ scan._tduration_secs twice = scan._tduration_secs once.
Proof.
  intros Hcount twice once.
  assert (Hnum : scan._num_coarse_channels twice = scan._num_coarse_channels once).
  { subst twice once. unfold scan.slice_scan_channels, scan.get_number_coarse_channels.
    simpl. destruct (d =? -1)%Z eqn:Hd; [|reflexivity].
    apply Z.eqb_eq in Hd. destruct Hcount as [Hcount | ->]; [contradiction|].
    simpl. lia. }
  repeat split; try reflexivity.
  - simpl. lia.
  - exact Hnum.
  - unfold scan.nchans. simpl. f_equal.
    exact Hnum.
  - subst twice once. unfold scan.fch1, scan.foff, scan.slice_scan_channels.
    cbn [scan._meta scan_metadata.fch1 scan_metadata.foff scan._fine_channels_per_coarse].
    unfold scan.fch1, scan.foff.
    cbn [scan._meta scan_metadata.fch1 scan_metadata.foff scan._fine_channels_per_coarse].
    rewrite inject_Z_plus. ring.
Qed.

Lemma slice_scan_channels_twice_witness :
  scan._coarse_channel_offset
    (scan.slice_scan_channels (scan.slice_scan_channels Scenarios.two_channels 1 (-1)) 0 (-1))
  = 1%Z
  /\ scan._num_coarse_channels
       (scan.slice_scan_channels (scan.slice_scan_channels Scenarios.two_channels 1 (-1)) 0 (-1))
     = scan._num_coarse_channels (scan.slice_scan_channels Scenarios.two_channels 1 (-1)).
Proof.
  destruct (slice_scan_channels_twice Scenarios.two_channels 1 (-1) 0 (-1)
              (or_intror eq_refl)) as (Hoffset & Hnum & _).
  split; [exact Hoffset | exact Hnum].
Defined.

(** [Qfloor] by its bounds. *)
Lemma Qfloor_bounds (x : Q) (k : Z) :
  inject_Z k <= x -> x < inject_Z (k + 1) -> Qfloor x = k.
Proof.
  intros Hlow Hhigh.
  assert (H1 : (k <= Qfloor x)%Z).
  { rewrite <- (Qfloor_Z k). apply Qfloor_resp_le, Hlow. }
  assert (H2 : (Qfloor x < k + 1)%Z).
  { rewrite Zlt_Qlt. eapply Qle_lt_trans; [apply Qfloor_le | exact Hhigh]. }
  lia.
Qed.



End ScanSliceProps.

(** ** Cadences: consistency and the getters that depend on it *)

Module CadenceProps.

Lemma first_valid_scan_mismatch (observations : list observation_target.t)
    (reference : scan.t) :
  cadence.first_valid_scan observations = Some reference ->
  cadence.consistency_loop (scan.fch1 reference) (scan.foff reference)
    (scan.nchans reference) observations = false.
Proof.
  induction observations as [|obs rest IH]; simpl; [discriminate|].
  destruct (observation_target._scans obs) as [|sc scans]; simpl.
  - exact IH.
  - intros [= ->]. rewrite ScanProps.mismatch_first. reflexivity.
Qed.

Lemma first_valid_scan_none (observations : list observation_target.t) :
  cadence.first_valid_scan observations = None
  <-> Forall (fun obs => observation_target._scans obs = []) observations.
Proof.
  induction observations as [|obs rest IH]; simpl.
  - split; [constructor | reflexivity].
  - destruct (observation_target._scans obs) as [|sc scans] eqn:Hscans.
    + rewrite IH. split.
      * intros H. constructor; assumption.
      * intros H. inversion H; assumption.
    + split; [discriminate|]. intros H. inversion H; congruence.
Qed.

(** [cadence::validate_scan_consistency] compares every scan with the first
    scan there is, and takes a difference below the tolerance for a mismatch;
    the first scan compared is the reference itself.  So it returns true only
    for a cadence without any scan, and the two getters that depend on it
    throw [std::runtime_error] for every cadence. *)
Theorem cadence_getters_always_throw (c : cadence.t) :
  cadence.get_number_coarse_channels c = Throws runtime_error
  /\ (forall frequency,
        cadence.get_coarse_channel_with_frequency c frequency = Throws runtime_error)
  /\ (cadence.validate_scan_consistency c = true
      <-> Forall (fun obs => observation_target._scans obs = [])
            (cadence._observations c)).
Proof.
  unfold cadence.get_number_coarse_channels, cadence.get_coarse_channel_with_frequency,
    cadence.validate_scan_consistency.
  destruct (cadence.first_valid_scan (cadence._observations c)) as [reference|] eqn:Hfirst.
  - rewrite (first_valid_scan_mismatch _ _ Hfirst).
    split; [reflexivity|]. split; [reflexivity|].
    split; [discriminate|]. intros H. apply first_valid_scan_none in H. congruence.
  - split; [reflexivity|]. split; [reflexivity|].
    split; [|reflexivity]. intros _. apply first_valid_scan_none, Hfirst.
Qed.

End CadenceProps.

(** ** Inferring the channelization of a scan *)

Module ChannelizationProps.
Import Channelization.

Lemma match_known_product (table : list (Z * Q * Q)) (n : Z) (foff tsamp : Q)
    (coarse fine : Z) :
  match_known table n foff tsamp = Some (coarse, fine) -> (coarse * fine = n)%Z.
Proof.
  induction table as [|[[fine0 freq_res] time_res] rest IH]; cbn [match_known];
    [discriminate|].
  destruct (_ && _) eqn:Htest; [|exact IH].
  apply andb_true_iff in Htest as [Htest _].
  apply andb_true_iff in Htest as [Hexact _].
  intros [= <- <-]. apply Z.eqb_eq, Hexact.
Qed.

Lemma round_from_product (common n coarse fine : Z) :
  round_from common n = Returns (Some (coarse, fine)) -> (coarse * fine = n)%Z.
Proof.
  unfold round_from.
  destruct (Z.quot n common =? 0)%Z; [discriminate|].
  destruct ((common + _) * _ =? n)%Z eqn:Hexact; [|discriminate].
  intros [= <- <-]. apply Z.eqb_eq in Hexact. lia.
Qed.

(** Whatever [infer_number_coarse_channels] returns divides the fine
    channels exactly: the number of coarse channels times the number of fine
    channels in each is the number of fine channels given. *)
Theorem infer_number_coarse_channels_exact (n : Z) (foff tsamp : Q) (coarse fine : Z) :
  infer_number_coarse_channels n foff tsamp = Returns (coarse, fine) ->
  (coarse * fine = n)%Z.
Proof.
  unfold infer_number_coarse_channels.
  destruct (match_known known_channelizations n foff tsamp) as [[c f]|] eqn:Hknown.
  - intros [= <- <-]. exact (match_known_product _ _ _ _ _ _ Hknown).
  - destruct (round_from (Z.shiftl 1 18) n) as [[[c f]|]| |] eqn:Hfirst; simpl;
      [| |discriminate|discriminate].
    + intros [= <- <-]. exact (round_from_product _ _ _ _ Hfirst).
    + destruct (round_from 1000000 n) as [[[c f]|]| |] eqn:Hsecond; simpl;
        [| |discriminate|discriminate].
      * intros [= <- <-]. exact (round_from_product _ _ _ _ Hsecond).
      * intros [= <- <-]. lia.
Qed.

Lemma infer_number_coarse_channels_exact_witness :
  infer_number_coarse_channels 3072 2860 (106 # 100) = Returns (3%Z, 1024%Z)
  /\ (3 * 1024 = 3072)%Z.
Proof.
  split; [reflexivity|].
  apply (infer_number_coarse_channels_exact 3072 2860 (106 # 100) 3 1024).
  reflexivity.
Defined.

(** With fewer than [2^18] fine channels and no match in the table of known
    channelizations, [infer_number_coarse_channels] divides by zero: the first
    fallback computes zero coarse channels and divides the remainder by that
    number.  The return of one coarse channel holding all fine channels is out
    of reach for such a scan. *)
Theorem infer_number_coarse_channels_small (n : Z) (foff tsamp : Q) :
  (Z.abs n < 2 ^ 18)%Z ->
  match_known known_channelizations n foff tsamp = None ->
  infer_number_coarse_channels n foff tsamp = Undefined.
Proof.
  intros Hsmall Hknown. unfold infer_number_coarse_channels, round_from.
  rewrite Hknown.
  assert (Hzero : Z.quot n (Z.shiftl 1 18) = 0%Z).
  { apply Z.quot_small_iff; [discriminate|]. exact Hsmall. }
  rewrite Hzero. reflexivity.
Qed.

Lemma infer_number_coarse_channels_small_witness :
  infer_number_coarse_channels 4096 1 1 = Undefined.
Proof.
  apply (infer_number_coarse_channels_small 4096 1 1); reflexivity.
Defined.

Lemma round_from_returns (common n : Z) :
  common <> 0%Z -> (Z.abs common <= Z.abs n)%Z ->
  exists rounded, round_from common n = Returns rounded.
Proof.
  intros Hcommon Hlarge. unfold round_from.
  assert (Hquot : Z.quot n common <> 0%Z).
  { rewrite Z.quot_small_iff by exact Hcommon. lia. }
  apply Z.eqb_neq in Hquot. rewrite Hquot.
  destruct (_ =? n)%Z; eexists; reflexivity.
Qed.

(** From a million fine channels on, [infer_number_coarse_channels] returns:
    neither fallback divides by zero. *)
Theorem infer_number_coarse_channels_large (n : Z) (foff tsamp : Q) :
  (1000000 <= Z.abs n)%Z ->
  exists found, infer_number_coarse_channels n foff tsamp = Returns found.
Proof.
  intros Hlarge. unfold infer_number_coarse_channels.
  destruct (match_known known_channelizations n foff tsamp) as [found|];
    [eexists; reflexivity|].
  destruct (round_from_returns (Z.shiftl 1 18) n) as [[found|] ->];
    [discriminate|change (Z.abs (Z.shiftl 1 18)) with 262144%Z; lia| |];
    [eexists; reflexivity|]. simpl.
  destruct (round_from_returns 1000000 n) as [[found|] ->];
    [discriminate|change (Z.abs 1000000) with 1000000%Z; lia| |];
    eexists; reflexivity.
Qed.

Lemma infer_number_coarse_channels_large_witness :
  exists found, infer_number_coarse_channels 3000001 1 1 = Returns found.
Proof.
  apply (infer_number_coarse_channels_large 3000001 1 1). discriminate.
Defined.

End ChannelizationProps.

(** ** The drift grid: order, range and channel spans *)

Module DriftGridProps.
Import frequency_drift_plane DriftGeometry DriftGeometryProps.
Local Open Scope Q_scope.

Lemma round_half_away_Z (z : Z) : round_half_away (inject_Z z) = z.
Proof.
  unfold round_half_away.
  destruct (Qle_bool 0 (inject_Z z)) eqn:Hsign.
  - apply ScanSliceProps.Qfloor_bounds; rewrite ?inject_Z_plus; change (inject_Z 1) with 1; lra.
  - assert (Qfloor (- inject_Z z + (1 # 2)) = (- z)%Z); [|lia].
    apply ScanSliceProps.Qfloor_bounds; rewrite ?inject_Z_plus, ?inject_Z_opp;
      change (inject_Z 1) with 1; lra.
Qed.

Section grid.

Variables (time_steps : Z) (foff tsamp : Q) (options : integrate_drifts_options).

Hypothesis time_steps_ge_2 : (2 <= time_steps)%Z.
Hypothesis foff_nonzero : ~ foff == 0.
Hypothesis tsamp_positive : 0 < tsamp.
Hypothesis resolution_nonzero : resolution options <> 0%Z.

(** An entry of the grid is the entry the loop body builds for its index,
    and its index passes the loop test. *)
Lemma compute_drifts_entry (grid : list drift_rate) (index : nat) (rate : drift_rate) :
  compute_drifts time_steps foff tsamp options = Returns grid ->
  grid !! index = Some rate ->
  rate = drift_rate_entry time_steps foff tsamp options (Z.of_nat index)
  /\ inject_Z (Z.of_nat index) < number_drifts time_steps foff tsamp options.
Proof.
  rewrite (compute_drifts_returns time_steps foff tsamp options) by assumption.
  intros [= <-] Hrate.
  destruct (Qlt_le_dec (inject_Z (Z.of_nat index))
              (number_drifts time_steps foff tsamp options)) as [Hlt | Hle].
  - split; [|exact Hlt].
    rewrite (drift_loop_lookup time_steps foff tsamp options _ 0 index) in Hrate.
    + injection Hrate as <-. rewrite Z.add_0_l. reflexivity.
    + assert (Hceil : (Z.of_nat index
                       < Qceiling (number_drifts time_steps foff tsamp options))%Z).
      { rewrite Zlt_Qlt. eapply Qlt_le_trans; [exact Hlt | apply Qle_ceiling]. }
      lia.
    + rewrite Z.add_0_l. exact Hlt.
  - rewrite (drift_loop_stops time_steps foff tsamp options _ 0 index) in Hrate;
      [discriminate|].
    rewrite Z.add_0_l. exact Hle.
Qed.


(** Every rate of the grid is a whole number of channels over the
    integration: the rate is its channel span times the unit drift (one
    channel over the [ntsteps - 1] steps), and the spans go from the rounded
    low bound in steps of [|resolution|] channels, upwards for a positive
    [foff] and downwards for a negative one. *)
Theorem compute_drifts_whole_spans (grid : list drift_rate) (i : nat) (rate : drift_rate) :
  compute_drifts time_steps foff tsamp options = Returns grid ->
  grid !! i = Some rate ->
  drift_rate_Hz_per_sec rate
  == inject_Z (drift_channels_span rate) * unit_drift_resolution time_steps foff tsamp
  /\ drift_channels_span rate
     = (round_half_away
          (low_rate_Hz_per_sec options / unit_drift_resolution time_steps foff tsamp)
        + (if Qltb 0 foff then 1 else -1)
          * (Z.of_nat i * Z.abs (resolution options)))%Z.
Proof.
  intros Hgrid Hrate.
  destruct (compute_drifts_entry grid i rate Hgrid Hrate) as [-> _].
  pose proof (unit_drift_resolution_nonzero time_steps foff tsamp time_steps_ge_2
                foff_nonzero tsamp_positive) as Hunit.
  set (unit := unit_drift_resolution time_steps foff tsamp) in *.
  set (low := round_half_away (low_rate_Hz_per_sec options / unit)).
  set (sign := (if Qltb 0 foff then 1 else -1)%Z).
  assert (Hspan_pos : 0 < inject_Z (time_steps - 1) * tsamp).
  { apply Qmult_lt_0_compat; [|exact tsamp_positive].
    change 0 with (inject_Z 0). rewrite <- Zlt_Qlt. lia. }
  assert (Habs : Qabs unit == inject_Z sign * unit).
  { subst sign. destruct (Qltb 0 foff) eqn:Hsign.
    - apply Qltb_lt in Hsign. rewrite Qabs_pos; [ring|].
      subst unit. unfold unit_drift_resolution, foff_Hz.
      apply Qle_shift_div_l; [exact Hspan_pos|]. rewrite Qmult_0_l.
      apply Qmult_le_0_compat; [lra | discriminate].
    - apply Qltb_ge in Hsign. rewrite Qabs_neg; [ring|].
      subst unit. unfold unit_drift_resolution, foff_Hz.
      apply Qle_shift_div_r; [exact Hspan_pos|]. rewrite Qmult_0_l.
      setoid_replace (foff * inject_Z (10 ^ 6)) with (- ((- foff) * inject_Z (10 ^ 6)))
        using relation Qeq by ring.
      assert (0 <= - foff * inject_Z (10 ^ 6)); [|lra].
      apply Qmult_le_0_compat; [lra | discriminate]. }
  assert (Hhz : drift_rate_Hz_per_sec
                  (drift_rate_entry time_steps foff tsamp options (Z.of_nat i))
                == inject_Z (low + sign * (Z.of_nat i * Z.abs (resolution options))) * unit).
  { cbn [drift_rate_entry drift_rate_Hz_per_sec].
    unfold rounded_low_drift_Hz_sec, search_resolution_Hz_sec. fold unit. fold low.
    rewrite Qabs_Qmult, Habs.
    change (Qabs (inject_Z (resolution options)))
      with (inject_Z (Z.abs (resolution options))).
    rewrite inject_Z_plus, !inject_Z_mult. ring. }
  assert (Hspan : drift_channels_span
                    (drift_rate_entry time_steps foff tsamp options (Z.of_nat i))
                  = (low + sign * (Z.of_nat i * Z.abs (resolution options)))%Z).
  { cbn [drift_rate_entry drift_channels_span].
    rewrite <- (round_half_away_Z (low + sign * (Z.of_nat i * Z.abs (resolution options)))).
    apply round_half_away_comp.
    cbn [drift_rate_entry drift_rate_Hz_per_sec] in Hhz. rewrite Hhz.
    subst unit. unfold unit_drift_resolution, foff_Hz. field.
    assert (Hsteps : 0 < inject_Z (time_steps - 1)).
    { change 0 with (inject_Z 0). rewrite <- Zlt_Qlt. lia. }
    repeat split; [lra | lra | discriminate | exact foff_nonzero]. }
  split; [|exact Hspan]. rewrite Hspan. exact Hhz.
Qed.

End grid.


Lemma compute_drifts_whole_spans_witness :
  exists grid rate,
    compute_drifts 2 Scenarios.one_hertz 1 default_integrate_drifts_options = Returns grid
    /\ grid !! 3%nat = Some rate
    /\ drift_channels_span rate = (-2)%Z
    /\ drift_rate_Hz_per_sec rate
       == inject_Z (drift_channels_span rate)
          * unit_drift_resolution 2 Scenarios.one_hertz 1.
Proof.
  destruct (compute_drifts 2 Scenarios.one_hertz 1 default_integrate_drifts_options)
    as [grid| |] eqn:Hgrid; [|vm_compute in Hgrid; discriminate..].
  destruct (grid !! 3%nat) as [rate|] eqn:Hrate;
    [|vm_compute in Hgrid; injection Hgrid as <-; discriminate].
  destruct (compute_drifts_whole_spans 2 Scenarios.one_hertz 1
              default_integrate_drifts_options) with (grid := grid) (i := 3%nat)
    (rate := rate) as [Hhz Hspan].
  - lia.
  - vm_compute. discriminate.
  - reflexivity.
  - discriminate.
  - exact Hgrid.
  - exact Hrate.
  - exists grid, rate. split; [reflexivity|]. split; [exact Hrate|].
    split; [|exact Hhz]. rewrite Hspan. vm_compute. reflexivity.
Defined.

End DriftGridProps.

(** ** The fields a hit takes over unchanged *)

Module HitSearchFieldsProps.
Import HitSearch HitSearchProps.
Local Open Scope Q_scope.

Section hit_search.

Variable protohit_search :
  frequency_drift_plane.t -> noise_stats -> hit_search_options -> list protohit.
Variable indeterminate : hit.

(** Copying a count into a map that is the protohit's map changes nothing. *)
Lemma copy_flag_same (k : flag_values) (c : protohit) (h : hit) :
  rfi_counts h = protohit_rfi_counts c -> copy_flag k c h = h.
Proof.
  intros Hcounts. unfold copy_flag.
  destruct (protohit_rfi_counts c !! k) as [count|] eqn:Hcount; [|reflexivity].
  rewrite insert_id by (rewrite Hcounts; exact Hcount).
  apply HitFilterProps.with_rfi_counts_same.
Qed.

(** Besides the fields it computes, every hit [hit_search] emits has the
    flag counts of its protohit, the number of the coarse channel, the start
    time of the channel in seconds ([tstart] days times 24 * 60 * 60) and the
    drift rate the plane lists at the hit's [rate_index]; its
    [time_span_steps] is never assigned, and holds whatever the storage of the
    local hit held. *)
Theorem hit_search_carries (cc : coarse_channel.t) (options : hit_search_options)
    (hits : list hit) :
  hit_search protohit_search indeterminate cc options = Returns hits ->
  exists noise plane,
    coarse_channel.noise_estimate cc = Returns noise
    /\ coarse_channel.integrated_drift_plane cc = Returns plane
    /\ Forall2
         (fun c h =>
            rfi_counts h = protohit_rfi_counts c
            /\ coarse_channel_number h = coarse_channel._coarse_channel_number cc
            /\ start_time_sec h = coarse_channel.tstart cc * 24 * 60 * 60
            /\ (exists rate,
                  frequency_drift_plane.drift_rate_info plane !! Z.to_nat (rate_index h)
                  = Some rate
                  /\ drift_rate_Hz_per_sec h
                     = frequency_drift_plane.drift_rate_Hz_per_sec rate)
            /\ time_span_steps h = time_span_steps indeterminate)
         (protohit_search plane noise options) hits.
Proof.
  unfold hit_search.
  destruct (coarse_channel.noise_estimate cc) as [noise| |]; simpl; try discriminate.
  destruct (coarse_channel.integrated_drift_plane cc) as [plane| |];
    simpl; try discriminate.
  intros Hloop. exists noise, plane. split; [reflexivity|]. split; [reflexivity|].
  apply characterise_all_spec in Hloop as (new & -> & Hnew). simpl.
  eapply Forall2_impl; [exact Hnew|].
  intros c h. unfold characterise. simpl.
  destruct (vector_subscript (frequency_drift_plane.drift_rate_info plane)
              (drift_index (index_max c))) as [rate| |] eqn:Hrate;
    simpl; try discriminate.
  intros [= <-].
  apply vector_subscript_returns in Hrate as [_ Hrate].
  rewrite (copy_flag_same sigma_clip) by reflexivity.
  rewrite (copy_flag_same low_spectral_kurtosis) by reflexivity.
  rewrite (copy_flag_same high_spectral_kurtosis) by reflexivity.
  cbn -[Qabs Qmult Qplus Qminus Qdiv inject_Z Z.mul].
  repeat split; try reflexivity.
  exists rate. split; [exact Hrate | reflexivity].
Qed.

End hit_search.

Lemma hit_search_carries_witness :
  exists hits,
    hit_search (fun _ _ _ => [Scenarios.a_protohit]) Scenarios.seed
      Scenarios.a_dedrifted_channel Scenarios.some_options = Returns hits
    /\ exists noise plane,
         coarse_channel.noise_estimate Scenarios.a_dedrifted_channel = Returns noise
         /\ coarse_channel.integrated_drift_plane Scenarios.a_dedrifted_channel
            = Returns plane
         /\ Forall2
              (fun c h =>
                 rfi_counts h = protohit_rfi_counts c
                 /\ coarse_channel_number h
                    = coarse_channel._coarse_channel_number Scenarios.a_dedrifted_channel
                 /\ start_time_sec h
                    = coarse_channel.tstart Scenarios.a_dedrifted_channel * 24 * 60 * 60
                 /\ (exists rate,
                       frequency_drift_plane.drift_rate_info plane
                       !! Z.to_nat (rate_index h) = Some rate
                       /\ drift_rate_Hz_per_sec h
                          = frequency_drift_plane.drift_rate_Hz_per_sec rate)
                 /\ time_span_steps h = time_span_steps Scenarios.seed)
              [Scenarios.a_protohit] hits.
Proof.
  eexists. split.
  - vm_compute. reflexivity.
  - apply (hit_search_carries (fun _ _ _ => [Scenarios.a_protohit])
             Scenarios.seed Scenarios.a_dedrifted_channel Scenarios.some_options).
    vm_compute. reflexivity.
Defined.

End HitSearchFieldsProps.

(** ** Event search: what it returns, and that it returns *)

Module EventSearchRunProps.
Import EventDistance EventSearch EventDistanceProps EventSearchProps.
Local Open Scope Q_scope.

Lemma vector_subscript_lookup {A : Type} (v : list A) (i : nat) (a : A) :
  v !! i = Some a -> vector_subscript v (Z.of_nat i) = Returns a.
Proof.
  intros H. unfold vector_subscript.
  destruct (Z.ltb_spec (Z.of_nat i) 0) as [Hneg | _]; [lia|].
  rewrite Nat2Z.id, H. reflexivity.
Qed.

Lemma FLT_MAX_above_threshold : 50 < FLT_MAX.
Proof. reflexivity. Qed.

(** The best match so far: a position is recorded exactly when the distance
    went below [FLT_MAX], and it is a position already visited. *)
Lemma best_match_loop_valid (event_hits hits_to_check : list hit) :
  forall (pos : nat) (best : match_result) (cache : distance_cache),
  (hit_it best = None -> distance best = FLT_MAX) ->
  (forall p, hit_it best = Some p -> (p < pos)%nat /\ distance best < FLT_MAX) ->
  let result := (best_match_loop event_hits hits_to_check pos best cache).1 in
  (hit_it result = None -> distance result = FLT_MAX)
  /\ (forall p, hit_it result = Some p ->
        (p < pos + length hits_to_check)%nat /\ distance result < FLT_MAX).
Proof.
  induction hits_to_check as [|it rest IH]; intros pos best cache Hnone Hsome; simpl.
  - split; [exact Hnone|]. intros p Hp. destruct (Hsome p Hp). split; [lia | assumption].
  - destruct (lowest_dist_to_event event_hits it FLT_MAX cache) as [lowest cache1].
    destruct (Qltb lowest (distance best)) eqn:Hlower.
    + destruct (IH (S pos) {| distance := lowest; hit_it := Some pos |} cache1)
        as [Hnone' Hsome'].
      * discriminate.
      * simpl. intros p [= <-]. split; [lia|].
        apply Qltb_lt in Hlower.
        destruct (hit_it best) as [p0|] eqn:Hbest.
        -- destruct (Hsome p0 eq_refl) as [_ Hlt]. lra.
        -- rewrite (Hnone eq_refl) in Hlower. exact Hlower.
      * split; [exact Hnone'|]. intros p Hp. destruct (Hsome' p Hp). split; [lia|assumption].
    + destruct (IH (S pos) best cache1) as [Hnone' Hsome'].
      * exact Hnone.
      * intros p Hp. destruct (Hsome p Hp). split; [lia|assumption].
      * split; [exact Hnone'|]. intros p Hp. destruct (Hsome' p Hp). split; [lia|assumption].
Qed.

Lemma find_best_matching_hit_invariant (candidate_event : event.t)
    (hits_to_check : list hit) (cache : distance_cache) :
  let best := (find_best_matching_hit candidate_event hits_to_check cache).1 in
  (hit_it best = None -> distance best = FLT_MAX)
  /\ (forall pos, hit_it best = Some pos ->
        distance best < FLT_MAX /\ is_Some (hits_to_check !! pos)).
Proof.
  unfold find_best_matching_hit.
  destruct (best_match_loop_valid (event.hits candidate_event) hits_to_check 0
              {| distance := FLT_MAX; hit_it := None |} cache) as [Hnone Hsome];
    [reflexivity|discriminate|].
  simpl in Hnone, Hsome. simpl.
  split; [exact Hnone|].
  intros pos Hpos. destruct (Hsome pos Hpos) as [Hlt Hdist].
  split; [exact Hdist|]. apply lookup_lt_is_Some. exact Hlt.
Qed.

Lemma find_best_matching_hit_found (candidate_event : event.t)
    (hits_to_check : list hit) (cache : distance_cache) :
  Qltb (distance (find_best_matching_hit candidate_event hits_to_check cache).1) 50 = true ->
  exists pos matched,
    hit_it (find_best_matching_hit candidate_event hits_to_check cache).1 = Some pos
    /\ hits_to_check !! pos = Some matched.
Proof.
  destruct (find_best_matching_hit_invariant candidate_event hits_to_check cache)
    as [Hnone Hsome].
  intros Hbelow. apply Qltb_lt in Hbelow.
  destruct (hit_it _) as [pos|] eqn:Hpos.
  - destruct (Hsome pos eq_refl) as [_ [matched Hmatched]]. eauto.
  - rewrite (Hnone eq_refl) in Hbelow. pose proof FLT_MAX_above_threshold. lra.
Qed.

(** [find_best_matching_hit] returns a position exactly when it found a
    distance below [FLT_MAX], and the position is one of the list searched:
    a result below the threshold of 50 always comes with a hit to take, so
    the caller never dereferences [end()].  With no position, the distance
    is [FLT_MAX]. *)
Theorem find_best_matching_hit_valid (candidate_event : event.t)
    (hits_to_check : list hit) (cache : distance_cache) :
  let best := (find_best_matching_hit candidate_event hits_to_check cache).1 in
  (hit_it best = None -> distance best = FLT_MAX)
  /\ (forall pos, hit_it best = Some pos ->
        distance best < FLT_MAX /\ is_Some (hits_to_check !! pos))
  /\ (Qltb (distance best) 50 = true ->
      exists pos matched, hit_it best = Some pos /\ hits_to_check !! pos = Some matched).
Proof.
  destruct (find_best_matching_hit_invariant candidate_event hits_to_check cache)
    as [Hnone Hsome].
  split; [exact Hnone|]. split; [exact Hsome|].
  apply find_best_matching_hit_found.
Qed.

(** *** The search returns *)

(** The later scans: every index is in range, and a match below the
    threshold comes with a hit; at most one hit is added per scan. *)
Lemma match_later_scans_returns (indices : list nat) :
  forall (e : event.t) (A : list (list hit)) (cache : distance_cache),
  Forall (fun m => (m < length A)%nat) indices ->
  exists e' A' cache',
    match_later_scans indices e A cache = Returns (e', A', cache')
    /\ length A' = length A
    /\ (length (event.hits e') <= length (event.hits e) + length indices)%nat.
Proof.
  induction indices as [|m rest IH]; intros e A cache Hrange; simpl.
  - eexists _, _, _. split; [reflexivity|]. split; [reflexivity | lia].
  - inversion Hrange as [|? ? Hm Hrest]; subst.
    apply lookup_lt_is_Some in Hm as [l Hl].
    rewrite (vector_subscript_lookup _ _ _ Hl). simpl.
    pose proof (find_best_matching_hit_found e l cache) as Hfound.
    destruct (find_best_matching_hit e l cache) as [best cache1]. simpl in Hfound.
    destruct (Qltb (distance best) 50).
    + destruct (Hfound eq_refl) as (pos & matched & -> & ->).
      destruct (IH (with_hits (event.hits e ++ [matched]) e)
                  (<[m := delete pos l]> A) cache1)
        as (e' & A' & cache' & -> & Hlen & Hhits).
      { rewrite length_insert. exact Hrest. }
      eexists _, _, _. split; [reflexivity|].
      rewrite length_insert in Hlen. split; [exact Hlen|].
      simpl in Hhits. rewrite length_app in Hhits. simpl in Hhits. lia.
    + destruct (IH e A cache1 Hrest) as (e' & A' & cache' & -> & Hlen & Hhits).
      eexists _, _, _. split; [reflexivity|]. split; [exact Hlen | lia].
Qed.

Lemma count_in_off_scans_returns (candidate_event : event.t) (off_scans : list scan.t) :
  Forall (fun sc => exists scan_hits s', scan.hits sc = Returns (scan_hits, s')) off_scans ->
  forall (times : Z) (cache : distance_cache),
  exists result, count_in_off_scans candidate_event off_scans times cache = Returns result.
Proof.
  induction 1 as [|sc rest (scan_hits & s' & Hhits) _ IH]; intros times cache; simpl.
  - eexists. reflexivity.
  - rewrite Hhits. simpl.
    destruct (count_in_off_hits candidate_event scan_hits times cache) as [times1 cache1].
    apply IH.
Qed.

Lemma evaluate_candidate_event_returns (seed_hit : hit) (starting_scan : scan.t)
    (i : nat) (target : observation_target.t) (A : list (list hit))
    (off_scans : list scan.t) (cache : distance_cache) :
  length A = length (observation_target._scans target) ->
  Forall (fun sc => exists scan_hits s', scan.hits sc = Returns (scan_hits, s')) off_scans ->
  exists candidate A' cache',
    evaluate_candidate_event seed_hit starting_scan i target A off_scans cache
    = Returns (candidate, A', cache')
    /\ length A' = length A
    /\ forall found, candidate = Some found ->
         (1 < length (event.hits found)
          <= S (length (observation_target._scans target) - S i))%nat.
Proof.
  intros Hlength Hoff. unfold evaluate_candidate_event.
  match goal with
  | |- context [match_later_scans ?indices ?e A cache] =>
      destruct (match_later_scans_returns indices e A cache)
        as (e' & A' & cache' & -> & Hlen & Hhits)
  end.
  { apply Forall_forall. intros m Hm. apply elem_of_seq in Hm. lia. }
  simpl. rewrite length_seq in Hhits. simpl in Hhits.
  unfold count_event_in_off_scans.
  destruct (count_in_off_scans_returns e' off_scans Hoff 0%Z cache')
    as ([times cache''] & ->).
  simpl.
  destruct ((1 <? length (event.hits e'))%nat && (times =? 0)%Z) eqn:Hkeep.
  - eexists _, _, _. split; [reflexivity|]. split; [exact Hlen|].
    intros found [= <-]. simpl.
    apply andb_true_iff in Hkeep as [Hmany _]. apply Nat.ltb_lt in Hmany. lia.
  - eexists _, _, _. split; [reflexivity|]. split; [exact Hlen|]. discriminate.
Qed.

Lemma search_seeds_returns (bound : nat) (seeds : list hit) (starting_scan : scan.t)
    (i : nat) (target : observation_target.t) (off_scans : list scan.t) :
  Forall (fun sc => exists scan_hits s', scan.hits sc = Returns (scan_hits, s')) off_scans ->
  (S (length (observation_target._scans target) - S i) <= bound)%nat ->
  forall (A : list (list hit)) (cache : distance_cache) (E : list event.t),
  length A = length (observation_target._scans target) ->
  Forall (fun e => (1 < length (event.hits e) <= bound)%nat) E ->
  exists A' cache' E',
    search_seeds seeds starting_scan i target A off_scans cache E
    = Returns (A', cache', E')
    /\ length A' = length A
    /\ Forall (fun e => (1 < length (event.hits e) <= bound)%nat) E'.
Proof.
  intros Hoff Hbound.
  induction seeds as [|seed_hit rest IH]; intros A cache E Hlength HE; simpl.
  - eexists _, _, _. split; [reflexivity|]. split; [reflexivity | exact HE].
  - destruct (evaluate_candidate_event_returns seed_hit starting_scan i target A
                off_scans cache Hlength Hoff)
      as (candidate & A1 & cache1 & -> & Hlen1 & Hfound).
    simpl.
    destruct (IH A1 cache1 (match candidate with
                            | Some found => E ++ [found]
                            | None => E
                            end))
      as (A' & cache' & E' & -> & Hlen' & HE').
    + congruence.
    + destruct candidate as [found|]; [|exact HE].
      apply Forall_app. split; [exact HE|]. constructor; [|constructor].
      specialize (Hfound found eq_refl). lia.
    + eexists _, _, _. split; [reflexivity|]. split; [congruence | exact HE'].
Qed.

Lemma search_scans_returns (target : observation_target.t) (off_scans : list scan.t) :
  Forall (fun sc => exists scan_hits s', scan.hits sc = Returns (scan_hits, s')) off_scans ->
  forall (indices : list nat) (A : list (list hit)) (cache : distance_cache)
         (E : list event.t),
  Forall (fun i => (i < length (observation_target._scans target))%nat) indices ->
  length A = length (observation_target._scans target) ->
  Forall (fun e => (1 < length (event.hits e)
                    <= length (observation_target._scans target))%nat) E ->
  exists A' cache' E',
    search_scans indices target A off_scans cache E = Returns (A', cache', E')
    /\ Forall (fun e => (1 < length (event.hits e)
                         <= length (observation_target._scans target))%nat) E'.
Proof.
  intros Hoff.
  induction indices as [|i rest IH]; intros A cache E Hrange Hlength HE; simpl.
  - eexists _, _, _. split; [reflexivity | exact HE].
  - inversion Hrange as [|? ? Hi Hrest]; subst.
    destruct (lookup_lt_is_Some_2 (observation_target._scans target) i Hi)
      as [starting_scan Hscan].
    destruct (lookup_lt_is_Some_2 A i) as [seeds Hseeds]; [lia|].
    rewrite (vector_subscript_lookup _ _ _ Hscan), (vector_subscript_lookup _ _ _ Hseeds).
    simpl.
    destruct (search_seeds_returns (length (observation_target._scans target)) seeds
                starting_scan i target off_scans Hoff) with (A := A) (cache := cache)
      (E := E) as (A1 & cache1 & E1 & -> & Hlen1 & HE1); [lia|exact Hlength|exact HE|].
    simpl. apply IH; [exact Hrest|congruence|exact HE1].
Qed.

Lemma preload_hits_returns (scans : list scan.t) :
  Forall (fun sc => exists scan_hits s', scan.hits sc = Returns (scan_hits, s')) scans ->
  exists on_scan_hits,
    preload_hits scans = Returns on_scan_hits /\ length on_scan_hits = length scans.
Proof.
  induction 1 as [|sc rest (scan_hits & s' & Hhits) _ (later & Hlater & Hlen)]; simpl.
  - eexists. split; reflexivity.
  - rewrite Hhits. simpl. rewrite Hlater. simpl.
    eexists. split; [reflexivity|]. simpl. congruence.
Qed.

(** [event_search] returns, without indexing out of range or taking a hit
    that is not there, on every cadence that has a first target and whose
    scans all give their hits.  Every event it returns has at least two hits
    and at most as many as the ON target has scans: a target of a single scan
    gives no event. *)
Theorem event_search_returns (cadence_with_hits : cadence.t) (on_target : observation_target.t) :
  cadence._observations cadence_with_hits !! 0%nat = Some on_target ->
  (forall target sc,
     target ∈ cadence._observations cadence_with_hits ->
     sc ∈ observation_target._scans target ->
     exists scan_hits s', scan.hits sc = Returns (scan_hits, s')) ->
  exists events,
    event_search cadence_with_hits = Returns events
    /\ Forall (fun e => (1 < length (event.hits e)
                         <= length (observation_target._scans on_target))%nat) events
    /\ (length (observation_target._scans on_target) = 1%nat -> events = []).
Proof.
  intros Hfirst Hreadable. unfold event_search.
  pose proof (vector_subscript_lookup _ 0%nat _ Hfirst) as Hsubscript.
  change (Z.of_nat 0) with 0%Z in Hsubscript. rewrite Hsubscript. simpl.
  destruct (preload_hits_returns (observation_target._scans on_target))
    as (on_scan_hits & -> & Hlength).
  { apply Forall_forall. intros sc Hsc.
    apply (Hreadable on_target sc); [|exact Hsc].
    apply list_elem_of_lookup_2 with 0%nat. exact Hfirst. }
  simpl.
  destruct (search_scans_returns on_target (extract_off_scans cadence_with_hits 0))
    with (indices := seq 0 (length (observation_target._scans on_target)))
         (A := on_scan_hits) (cache := @nil ((hit * hit) * Q)) (E := @nil event.t)
    as (A' & cache' & events & -> & Hevents).
  - apply Forall_forall. intros sc Hsc.
    apply elem_of_off_scans_from in Hsc as (target & Htarget & Hsc).
    exact (Hreadable target sc Htarget Hsc).
  - apply Forall_forall. intros i Hi. apply elem_of_seq in Hi. lia.
  - exact Hlength.
  - constructor.
  - simpl. exists events. split; [reflexivity|]. split; [exact Hevents|].
    intros Hone. destruct events as [|e events]; [reflexivity|].
    inversion Hevents; subst. lia.
Qed.

Lemma event_search_returns_witness :
  exists events,
    event_search Scenarios.on_and_off = Returns events
    /\ Forall (fun e => (1 < length (event.hits e) <= 3)%nat) events.
Proof.
  destruct (event_search_returns Scenarios.on_and_off _ eq_refl)
    as (events & Hevents & Hsizes & _).
  - intros target sc Htarget Hsc.
    unfold Scenarios.on_and_off in Htarget. simpl in Htarget.
    repeat (apply elem_of_cons in Htarget as [-> | Htarget]);
      [| |apply elem_of_nil in Htarget; destruct Htarget];
      simpl in Hsc;
      repeat (apply elem_of_cons in Hsc as [-> | Hsc]);
      try (apply elem_of_nil in Hsc; destruct Hsc);
      eexists _, _; reflexivity.
  - exists events. split; [exact Hevents | exact Hsizes].
Defined.

End EventSearchRunProps.

(** ** Event search on three ON scans and a distant OFF hit *)

Module EventSearchRuns.
Import EventDistance EventSearch EventSearchProps.
Local Open Scope Q_scope.

Lemma on_and_far_off_lasting : hits_lasting 16 Scenarios.on_and_far_off.
Proof.
  intros target sc scan_hits s' Htarget Hsc Hhits.
  unfold Scenarios.on_and_far_off in Htarget. simpl in Htarget.
  repeat (apply elem_of_cons in Htarget as [-> | Htarget]);
    [| |apply elem_of_nil in Htarget; destruct Htarget];
    simpl in Hsc;
    repeat (apply elem_of_cons in Hsc as [-> | Hsc]);
    try (apply elem_of_nil in Hsc; destruct Hsc);
    vm_compute in Hhits; injection Hhits as <- _;
    repeat constructor.
Defined.

Lemma event_search_not_seen_in_off_witness :
  exists found,
    event_search Scenarios.on_and_far_off = Returns [found]
    /\ event.hits found = [Scenarios.track 0; Scenarios.track 1; Scenarios.track 2]
    /\ not_seen_in (extract_off_scans Scenarios.on_and_far_off 0) found.
Proof.
  destruct (event_search Scenarios.on_and_far_off) as [events| |] eqn:Hrun;
    [|vm_compute in Hrun; discriminate..].
  pose proof (event_search_not_seen_in_off 16 Scenarios.on_and_far_off events
                on_and_far_off_lasting Hrun) as Hall.
  vm_compute in Hrun. injection Hrun as <-.
  eexists. split; [reflexivity|]. split; [vm_compute; reflexivity|].
  inversion Hall; subst. assumption.
Defined.

Lemma event_search_hits_at_most_once_witness :
  exists events on_scan_hits,
    event_search Scenarios.on_and_far_off = Returns events
    /\ hits_of events ⊆+ concat on_scan_hits
    /\ concat on_scan_hits = [Scenarios.track 0; Scenarios.track 1; Scenarios.track 2].
Proof.
  destruct (event_search Scenarios.on_and_far_off) as [events| |] eqn:Hrun;
    [|vm_compute in Hrun; discriminate..].
  destruct (event_search_hits_at_most_once Scenarios.on_and_far_off events Hrun)
    as (on_target & on_scan_hits & Htarget & Hpreload & Hsub).
  injection Htarget as <-. vm_compute in Hpreload. injection Hpreload as <-.
  eexists _, _. split; [reflexivity|]. split; [exact Hsub | vm_compute; reflexivity].
Defined.

End EventSearchRuns.

(** ** A hit search that returns *)

Module HitSearchRuns.
Import HitSearch.

Lemma hit_search_returns_witness :
  exists hits,
    hit_search (fun _ _ _ => [Scenarios.a_protohit]) Scenarios.seed
      Scenarios.a_dedrifted_channel Scenarios.some_options = Returns hits.
Proof.
  apply (HitSearchProps.hit_search_returns (fun _ _ _ => [Scenarios.a_protohit])
           Scenarios.seed Scenarios.a_dedrifted_channel Scenarios.some_options
           {| noise_floor := 20; noise_power := 25 |} Scenarios.a_plane eq_refl eq_refl).
  constructor; [simpl; lia | constructor].
Defined.

End HitSearchRuns.

(** ** The range of drift rates of a scan *)

Module DriftRangeProps.
Import ScanReadProps ScanHitsProps.
Local Open Scope Q_scope.




Lemma collect_drift_range_without_plane (s : scan.t)
    (before : list coarse_channel.t) :
  forall (indices : list Z) (cc : coarse_channel.t) (after : list coarse_channel.t),
  Forall2 (fun index cc => scan.read_coarse_channel s index = Returns (cc, s))
    indices (before ++ cc :: after) ->
  Forall (fun cc => exists plane,
            coarse_channel._integrated_drift_plane cc = Some plane
            /\ frequency_drift_plane.drift_rate_info (force plane) <> []) before ->
  coarse_channel._integrated_drift_plane cc = None ->
  forall drift_range : Q * Q,
    scan.collect_drift_range indices s drift_range = Throws runtime_error.
Proof.
  induction before as [|first before IH]; intros indices cc after Hreads Hrates Hnone
    drift_range; simpl in Hreads.
  - inversion Hreads as [|index ? rest ? Hread Hrest]; subst. simpl.
    rewrite Hread. simpl. unfold coarse_channel.integrated_drift_plane. rewrite Hnone.
    reflexivity.
  - inversion Hreads as [|index ? rest ? Hread Hrest]; subst.
    inversion Hrates as [|? ? (plane & Hplane & Hnonempty) Hbefore]; subst.
    simpl. rewrite Hread. simpl. unfold coarse_channel.integrated_drift_plane.
    rewrite Hplane.
    destruct (frequency_drift_plane.drift_rate_info (force plane))
      as [|front rates] eqn:Hinfo; [contradiction|].
    destruct (last (front :: rates)) as [back|] eqn:Hlast;
      [|apply last_None in Hlast; discriminate].
    destruct (scan.rate_bounds (front :: rates) _ _) as [low high].
    apply (IH rest cc after Hrest Hbefore Hnone).
Qed.

(** A channel without a plane is not skipped: [integrated_drift_plane()]
    throws a [std::runtime_error], which the [catch] of [std::logic_error] in
    [scan::get_drift_range] lets through, so the call throws it at the first
    such channel. *)
Theorem get_drift_range_without_plane (s : scan.t)
    (before after : list coarse_channel.t) (cc : coarse_channel.t) :
  scan.reads_as s (before ++ cc :: after) ->
  Forall (fun cc => exists plane,
            coarse_channel._integrated_drift_plane cc = Some plane
            /\ frequency_drift_plane.drift_rate_info (force plane) <> []) before ->
  coarse_channel._integrated_drift_plane cc = None ->
  scan.get_drift_range s = Throws runtime_error.
Proof.
  intros Hreads Hrates Hnone. unfold scan.get_drift_range.
  apply (collect_drift_range_without_plane s before _ cc after
           (reads_as_reads s _ Hreads) Hrates Hnone).
Qed.


Lemma get_drift_range_without_plane_witness :
  scan.get_drift_range Scenarios.half_searched = Throws runtime_error.
Proof.
  apply (get_drift_range_without_plane Scenarios.half_searched []
           [Scenarios.channel_without_hits 1]
           (Scenarios.channel_with_hits 0 0 [Scenarios.drift1])).
  - exact half_searched_reads_as.
  - constructor.
  - reflexivity.
Defined.

End DriftRangeProps.

(** ** The format of a file of hits *)

Module HitsFileProps.
Import HitsFile.

Lemma substring_whole (s : string) : String.substring 0 (String.length s) s = s.
Proof. induction s as [|c s IH]; simpl; [reflexivity|]. rewrite IH. reflexivity. Qed.

Lemma length_append (p s : string) :
  String.length (String.append p s) = (String.length p + String.length s)%nat.
Proof. induction p as [|c p IH]; simpl; [reflexivity|]. rewrite IH. reflexivity. Qed.

Lemma substring_append (p s : string) :
  String.substring (String.length p) (String.length s) (String.append p s) = s.
Proof. induction p as [|c p IH]; simpl; [apply substring_whole | exact IH]. Qed.

Lemma substring_split (s : string) :
  forall n : nat, (n <= String.length s)%nat ->
  s = String.append (String.substring 0 n s)
        (String.substring n (String.length s - n) s).
Proof.
  induction s as [|c s IH]; intros [|n] Hn; simpl in *; try reflexivity; try lia.
  - rewrite substring_whole. reflexivity.
  - change (String c s
            = String c (String.append (String.substring 0 n s)
                          (String.substring n (String.length s - n) s))).
    f_equal. apply IH. lia.
Qed.

(** [ends_with] is the test it is named after: it holds exactly of the
    strings made of some prefix followed by the suffix. *)
Theorem ends_with_spec (str suffix : string) :
  ends_with str suffix = true <-> exists prefix, str = String.append prefix suffix.
Proof.
  unfold ends_with. rewrite andb_true_iff, Nat.leb_le, String.eqb_eq. split.
  - intros [Hlength Hsuffix].
    exists (String.substring 0 (String.length str - String.length suffix) str).
    etransitivity;
      [apply (substring_split str (String.length str - String.length suffix)); lia|].
    f_equal.
    replace (String.length str - (String.length str - String.length suffix))%nat
      with (String.length suffix) by lia.
    exact Hsuffix.
  - intros [prefix ->]. rewrite length_append. split; [lia|].
    replace (String.length prefix + String.length suffix - String.length suffix)%nat
      with (String.length prefix) by lia.
    apply substring_append.
Qed.



End HitsFileProps.

(** ** The name of a target *)

Module SourceNameProps.

Lemma source_name_loop_named (name : string) (names : list string) :
  name <> String.EmptyString ->
  Forall (fun n => n = String.EmptyString \/ n = name) names ->
  source_name_loop names name = name.
Proof.
  intros Hname. apply String.eqb_neq in Hname.
  induction 1 as [|n names [-> | ->] _ IH]; simpl; [reflexivity|exact IH|].
  rewrite Hname, String.eqb_refl. simpl. exact IH.
Qed.

Lemma source_name_loop_unnamed (name : string) (names : list string) :
  name <> String.EmptyString ->
  Forall (fun n => n = String.EmptyString \/ n = name) names ->
  (name ∈ names -> source_name_loop names String.EmptyString = name)
  /\ (name ∉ names -> source_name_loop names String.EmptyString = String.EmptyString).
Proof.
  intros Hname Hall.
  induction Hall as [|n names [-> | ->] Hrest [IHin IHout]]; simpl.
  - split; [|reflexivity]. intros Hin. apply elem_of_nil in Hin. destruct Hin.
  - split.
    + intros Hin. apply elem_of_cons in Hin as [Hin | Hin]; [contradiction | auto].
    + intros Hout. apply IHout. intros Hin. apply Hout. right. exact Hin.
  - pose proof Hname as Hneq. apply String.eqb_neq in Hneq. rewrite Hneq.
    change (String.eqb String.EmptyString String.EmptyString) with true. cbv iota.
    split.
    + intros _. exact (source_name_loop_named name names Hname Hrest).
    + intros Hout. exfalso. apply Hout. left.
Qed.

(** Scans that agree on their source name give that name to the target:
    when every scan is unnamed or named [name], the name extracted is [name]
    if one of them is named, and [unknown] if none is. *)
Theorem extract_source_name_uniform (name : string) (names : list string) :
  name <> String.EmptyString ->
  Forall (fun n => n = String.EmptyString \/ n = name) names ->
  (name ∈ names -> extract_source_name_from_scans names = name)
  /\ (name ∉ names -> extract_source_name_from_scans names = "unknown"%string).
Proof.
  intros Hname Hall. unfold extract_source_name_from_scans.
  destruct (source_name_loop_unnamed name names Hname Hall) as [Hin Hout].
  split.
  - intros H. rewrite (Hin H). apply String.eqb_neq in Hname. rewrite Hname. reflexivity.
  - intros H. rewrite (Hout H). reflexivity.
Qed.

Lemma extract_source_name_uniform_witness :
  extract_source_name_from_scans [String.EmptyString; "Voyager"; "Voyager"]%string
  = "Voyager"%string
  /\ extract_source_name_from_scans [String.EmptyString; String.EmptyString]
     = "unknown"%string.
Proof.
  split.
  - apply (extract_source_name_uniform "Voyager"
             [String.EmptyString; "Voyager"; "Voyager"]%string).
    + discriminate.
    + constructor; [left; reflexivity|]. constructor; [right; reflexivity|].
      constructor; [right; reflexivity | constructor].
    + right. left.
  - apply (extract_source_name_uniform "Voyager"
             [String.EmptyString; String.EmptyString]).
    + discriminate.
    + constructor; [left; reflexivity|]. constructor; [left; reflexivity | constructor].
    + intros Hin. apply elem_of_cons in Hin as [Hin | Hin]; [discriminate|].
      apply elem_of_cons in Hin as [Hin | Hin]; [discriminate|].
      apply elem_of_nil in Hin. exact Hin.
Defined.

Lemma append_nonempty (a b : string) :
  a <> String.EmptyString -> String.append a b <> String.EmptyString.
Proof. destruct a; [contradiction | discriminate]. Qed.

(** Scans of two names: the names are joined by [::], and a name that comes
    again after the join is joined once more, since it is compared with the
    joined name.  Three scans named [a], [b], [b] give [a::b::b]. *)
Theorem extract_source_name_repeats (a b : string) :
  a <> String.EmptyString -> b <> String.EmptyString -> a <> b ->
  extract_source_name_from_scans [a; b; b]
  = String.append (String.append a (String.append "::" b)) (String.append "::" b).
Proof.
  intros Ha Hb Hab. unfold extract_source_name_from_scans. simpl.
  pose proof Ha as Ha'. pose proof Hb as Hb'.
  apply String.eqb_neq in Ha', Hb', Hab. rewrite ?Ha', ?Hb', ?Hab. simpl.
  rewrite ?Ha', ?Hb', ?Hab.
  assert (Hjoined : String.eqb (String.append a (String.append "::" b)) b = false).
  { apply String.eqb_neq. intros Heq.
    apply (f_equal String.length) in Heq.
    rewrite !HitsFileProps.length_append in Heq. simpl in Heq. lia. }
  assert (Hjoined' : String.eqb (String.append a (String.append "::" b))
                       String.EmptyString = false).
  { apply String.eqb_neq, append_nonempty, Ha. }
  rewrite ?Hjoined, ?Hjoined'. simpl. rewrite ?Hjoined, ?Hjoined'.
  assert (Hall : String.eqb (String.append (String.append a (String.append "::" b))
                               (String.append "::" b)) String.EmptyString = false).
  { apply String.eqb_neq, append_nonempty, append_nonempty, Ha. }
  rewrite Hall. reflexivity.
Qed.

Lemma extract_source_name_repeats_witness :
  extract_source_name_from_scans ["A"; "B"; "B"]%string = "A::B::B"%string.
Proof.
  apply (extract_source_name_repeats "A" "B"); discriminate.
Defined.

End SourceNameProps.
